(** * A shallow embedding of the [logging] package of go-telemetry

    The development follows [logging/logger.go]: the caller resolver
    ([getModulePath], [getCaller]), the record and attribute model
    ([argsToAttrs], [nextAttrFromArgs]), the logger tree with its parent
    pointers ([NewLogger], [NewChildLogger], [RootLogger], [Handlers],
    [AddHandler], [PanicOnError], [SetPanicOnError]), dispatch and the
    levelled calls ([Log], [Debug], ...) and the closing cascade ([Close]).

    Loggers live in a store indexed by address, because the Go code shares
    them through pointers: a child points to its parent, a parent holds the
    pointers of its children, and the handler list is the one stored in the
    root.

    After the logger come the string builder of [logging/ansi], the pretty
    handler with its attribute printer, and the JSON handler. *)

From Equations Require Import Equations.
From Stdlib Require Import ZArith Lia String Ascii.
From stdpp Require Import base tactics option numbers strings list gmap.

Set Warnings "-register-all".

Local Open Scope string_scope.
Local Open Scope Z_scope.
Local Open Scope list_scope.

(** ** Values and errors *)

(** A value of Go's [any]. The type switch of [nextAttrFromArgs] only
    separates strings from everything else. *)
Inductive Any : Type :=
| AString (s : string)
| AInt (z : Z)
| ABool (b : bool)
| ANil
| AOpaque (tag : nat).

#[global] Instance Any_eq_dec : EqDecision Any.
Proof. solve_decision. Defined.

(** Go's [error] values. [ErrNoCaller] is the package variable of that name;
    [ErrNew] stands for any other error value; [ErrJoin] is the value built
    by [errors.Join]. *)
Inductive Err : Type :=
| ErrNoCaller
| ErrNew (msg : string)
| ErrJoin (errs : list Err).

(** [err != ErrNoCaller], in the form [err == ErrNoCaller]. *)
Definition isErrNoCaller (e : Err) : bool :=
  match e with ErrNoCaller => true | _ => false end.

(** [errors.Is(err, ErrNoCaller)]: the error itself, or any error reached
    through the [Unwrap() []error] of a joined error. *)
Fixpoint errors_Is_ErrNoCaller (e : Err) : bool :=
  match e with
  | ErrNoCaller => true
  | ErrNew _ => false
  | ErrJoin es => existsb errors_Is_ErrNoCaller es
  end.

(** The non-nil errors of a list, in order. *)
Definition nonNil (errs : list (option Err)) : list Err := omap id errs.

(** [errors.Join(errs...)]: nil values are discarded; the result is nil when
    nothing is left. *)
Definition errors_Join (errs : list (option Err)) : option Err :=
  match nonNil errs with
  | [] => None
  | es => Some (ErrJoin es)
  end.

(** ** Records and attributes *)

Inductive Level : Type :=
| LevelDebug | LevelInfo | LevelWarn | LevelError | LevelFatal | LevelPanic.

(** The [iota] value of a level. *)
Definition Level_value (l : Level) : Z :=
  match l with
  | LevelDebug => 0 | LevelInfo => 1 | LevelWarn => 2
  | LevelError => 3 | LevelFatal => 4 | LevelPanic => 5
  end.

Inductive LoggerState : Type := LoggerState_Open | LoggerState_Closed.

Record Attribute : Type := mkAttribute { Key : string; Value : Any }.

(** [runtime.Frame], reduced to the fields the package reads. *)
Record Frame : Type := mkFrame { Function : string; File : string; Line : Z }.

Definition Time := Z.
Definition UUID := Z.

Record Record_ : Type := mkRecord {
  Time_ : Time;
  Level_ : Level;
  Message : string;
  Caller : option Frame;
  Attributes : list Attribute
}.

(** *** [nextAttrFromArgs] and [argsToAttrs] *)

(** [None] is the run-time panic of [args[0]] on an empty slice. *)
Definition nextAttrFromArgs (args : list Any) : option (Attribute * list Any) :=
  match args with
  | [] => None
  | AString x :: rest =>
      match rest with
      | [] => Some (mkAttribute "!BADKEY" (AString x), [])
      | v :: rest' => Some (mkAttribute x v, rest')
      end
  | x :: rest => Some (mkAttribute "!BADKEY" x, rest)
  end.

(** Keeps the equation [x = y] next to the value matched on. *)
Definition inspect {A : Type} (x : A) : {y : A | x = y} := exist _ x eq_refl.

(** The loop [for len(remaining) > 0] of [argsToAttrs]. The measure is the
    number of arguments that remain. *)
Equations? argsToAttrs_loop (remaining : list Any) (attrs : list Attribute)
  : list Attribute by wf (length remaining) lt :=
  argsToAttrs_loop [] attrs := attrs;
  argsToAttrs_loop (a :: rest) attrs with inspect (nextAttrFromArgs (a :: rest)) := {
    | exist _ (Some (attr, remaining')) _ => argsToAttrs_loop remaining' (attrs ++ [attr]);
    | exist _ None _ => attrs }.
Proof.
  destruct a, rest; simpl in *; simplify_eq; simpl; lia.
Qed.

Definition argsToAttrs (args : list Any) : list Attribute :=
  argsToAttrs_loop args [].

(** ** The caller resolver *)

(** What [panic] carries. *)
Inductive PanicValue : Type :=
| PanicString (msg : string)
| PanicError (e : Err)
| PanicNilDeref.

(** The outcome of a call that touches no logger: a value or a panic. *)
Inductive Try (A : Type) : Type :=
| Value_ (a : A)
| Panic_ (v : PanicValue).
Arguments Value_ {A} a.
Arguments Panic_ {A} v.

(** [strings.Contains(s, c)] for a separator [c] of one byte. *)
Fixpoint strings_Contains (s : string) (c : ascii) : bool :=
  match s with
  | EmptyString => false
  | String x s' => Ascii.eqb x c || strings_Contains s' c
  end.

Fixpoint lastIndex_from (i found : Z) (s : string) (c : ascii) : Z :=
  match s with
  | EmptyString => found
  | String x s' => lastIndex_from (i + 1) (if Ascii.eqb x c then i else found) s' c
  end.

(** [strings.LastIndex(s, c)] for a separator [c] of one byte: the index of
    its last occurrence, or [-1]. *)
Definition strings_LastIndex (s : string) (c : ascii) : Z :=
  lastIndex_from 0 (-1) s c.

Definition getModulePath (functionPath : string) : Try string :=
  let isMethod := strings_Contains functionPath "("%char in
  let endOfModuleName :=
    if isMethod then strings_LastIndex functionPath "("%char - 1
    else strings_LastIndex functionPath "."%char in
  if endOfModuleName =? -1 then
    Panic_ (PanicString "malformed module name does not contain a . delimiter")
  else Value_ (String.substring 0 (Z.to_nat endOfModuleName) functionPath).

(** The loop of [getCaller] over the frames that [frames.Next()] still has
    to deliver. [Next] on an exhausted iterator delivers the zero frame,
    whose function name is empty. *)
Fixpoint getCaller_loop (thisModule : string) (frames : list Frame)
  : Try (option Frame * option Err) :=
  match frames with
  | [] =>
      match getModulePath "" with
      | Panic_ v => Panic_ v
      | Value_ module =>
          if bool_decide (module ≠ thisModule) then Value_ (Some (mkFrame "" "" 0), None)
          else Value_ (None, Some ErrNoCaller)
      end
  | frame :: rest =>
      match getModulePath (Function frame) with
      | Panic_ v => Panic_ v
      | Value_ module =>
          if bool_decide (module ≠ thisModule) then Value_ (Some frame, None)
          else match rest with
               | [] => Value_ (None, Some ErrNoCaller)
               | _ :: _ => getCaller_loop thisModule rest
               end
      end
  end.

(** [getCaller], on the stack it is called with: [stack] lists the frames
    from [getCaller]'s own frame outwards, which is what
    [runtime.Callers(1, pcs)] records; [pcs] has room for 8 of them. *)
Definition getCaller (stack : list Frame) : Try (option Frame * option Err) :=
  let pcs := take 8 stack in
  match pcs with
  | [] => Value_ (None, Some ErrNoCaller)
  | firstFrame :: rest =>
      match rest with
      | [] => Value_ (None, Some ErrNoCaller)
      | _ :: _ =>
          match getModulePath (Function firstFrame) with
          | Panic_ v => Panic_ v
          | Value_ thisModule => getCaller_loop thisModule rest
          end
      end
  end.

(** The frames of the package's own functions. *)
Definition pkg : string := "github.com/link00000000/telemetry/logging".
Definition frameAt (name : string) (line : Z) : Frame :=
  mkFrame (String.append pkg name) "logging/logger.go" line.
Definition frame_getCaller : Frame := frameAt ".getCaller" 38.

(** ** Handlers, loggers and the store *)

(** The address of a logger in the store: what a [*Logger] holds. *)
Abbreviation addr := nat.

(** One call of a handler operation, with what the handler answered. A
    closing call is recorded with its outcome, the error returned or the
    panic. *)
Inductive Call : Type :=
| CallCreated (h : nat) (logger : addr) (t : Time) (caller : option Frame)
| CallClosed (h : nat) (logger : addr) (t : Time) (caller : option Frame)
    (res : Try (option Err))
| CallRecord (h : nat) (logger : addr) (r : Record_) (res : option Err).

(** A value of the [Handler] interface. [hid] names the handler in the
    trace of calls. What a handler answers may depend on every call made to
    any handler before ([list Call]), which covers handlers with a state of
    their own. Handlers do not call back into the logger tree. They are
    given the address of the logger and not its fields: [state] is
    unexported, so a handler of another package cannot read it, and the
    handlers of this package do not. [OnLoggerCreated] has no result: the
    call is only recorded. [OnLoggerClosed] returns an error or nil, or
    panics: [Close] hands it whatever caller the resolver found, which is
    nil when the stack is deep, and the JSON handler of the repository
    reads through that pointer. *)
Record Handler : Type := mkHandler {
  hid : nat;
  OnLoggerClosed : list Call → addr → Time → option Frame → Try (option Err);
  HandleRecord : list Call → addr → Record_ → option Err
}.

Record Logger : Type := mkLogger {
  id_ : UUID;
  parent : option addr;
  children : list addr;
  state : LoggerState;
  panicOnError : bool;
  handlers : list Handler
}.

(** The store of loggers, the calls made to handlers so far, and how many
    times the clock and the UUID generator have been read. *)
Record World : Type := mkWorld {
  heap : list Logger;
  trace : list Call;
  ticks : nat;
  uuids : nat
}.

Definition set_heap (h : list Logger) (w : World) : World :=
  mkWorld h (trace w) (ticks w) (uuids w).
Definition set_trace (t : list Call) (w : World) : World :=
  mkWorld (heap w) t (ticks w) (uuids w).
(** The world after one more reading of the clock. *)
Definition tick (w : World) : World :=
  mkWorld (heap w) (trace w) (S (ticks w)) (uuids w).

Definition set_parent (p : option addr) (l : Logger) : Logger :=
  mkLogger (id_ l) p (children l) (state l) (panicOnError l) (handlers l).
Definition set_children (cs : list addr) (l : Logger) : Logger :=
  mkLogger (id_ l) (parent l) cs (state l) (panicOnError l) (handlers l).
Definition set_state (s : LoggerState) (l : Logger) : Logger :=
  mkLogger (id_ l) (parent l) (children l) s (panicOnError l) (handlers l).
Definition set_panicOnError (b : bool) (l : Logger) : Logger :=
  mkLogger (id_ l) (parent l) (children l) (state l) b (handlers l).
Definition set_handlers (hs : list Handler) (l : Logger) : Logger :=
  mkLogger (id_ l) (parent l) (children l) (state l) (panicOnError l) hs.

(** ** Outcomes of a call *)

(** A call returns ([Done]), panics, ends the process ([os.Exit]), or never
    returns; the first three leave a world behind. *)
Inductive Res (A : Type) : Type :=
| Done (a : A) (w : World)
| Panics (v : PanicValue) (w : World)
| Exits (code : Z) (w : World)
| Diverges.
Arguments Done {A} a w.
Arguments Panics {A} v w.
Arguments Exits {A} code w.
Arguments Diverges {A}.

Definition M (A : Type) : Type := World → Res A.

#[global] Instance M_ret : MRet M := λ A a w, Done a w.
#[global] Instance M_bind : MBind M := λ A B k m w,
  match m w with
  | Done a w' => k a w'
  | Panics v w' => Panics v w'
  | Exits c w' => Exits c w'
  | Diverges => Diverges
  end.

Definition panic {A : Type} (v : PanicValue) : M A := λ w, Panics v w.
Definition os_Exit {A : Type} (code : Z) : M A := λ w, Exits code w.
Definition diverge {A : Type} : M A := λ _, Diverges.

(** Reading through a pointer; an address with no logger behind it is the
    nil pointer. *)
Definition deref (l : addr) : M Logger := λ w,
  match heap w !! l with
  | Some lg => Done lg w
  | None => Panics PanicNilDeref w
  end.

(** Writing the fields of the logger at [l]. *)
Definition update (l : addr) (f : Logger → Logger) : M unit := λ w,
  match heap w !! l with
  | Some lg => Done () (set_heap (<[l := f lg]> (heap w)) w)
  | None => Panics PanicNilDeref w
  end.

Definition liftTry {A : Type} (t : Try A) : M A := λ w,
  match t with
  | Value_ a => Done a w
  | Panic_ v => Panics v w
  end.

(** ** The operations of [Logger] *)

Section Operations.

(** The run-time system the package runs on: the caller resolver (the
    package binds it to [getCaller]; the operations only look at the
    frame and the error it returns), the clock behind [time.Now()] and
    the generator behind [uuid.New()], both as the sequence of values
    they deliver. *)
Variable resolve : list Frame → Try (option Frame * option Err).
Variable timeNow : nat → Time.
Variable uuidNew : nat → UUID.

(** [getCaller()], called from a function whose stack is [stk]. *)
Definition callGetCaller (stk : list Frame) : M (option Frame * option Err) :=
  liftTry (resolve (frame_getCaller :: stk)).

Definition time_Now : M Time := λ w,
  Done (timeNow (ticks w)) (tick w).

Definition uuid_New : M UUID := λ w,
  Done (uuidNew (uuids w)) (mkWorld (heap w) (trace w) (ticks w) (S (uuids w))).

(** [&Logger{...}]: a new logger at the next free address. *)
Definition alloc (l : Logger) : M addr := λ w,
  Done (length (heap w)) (set_heap (heap w ++ [l]) w).

Definition NewLogger : M addr :=
  u ← uuid_New;
  alloc (mkLogger u None [] LoggerState_Open false []).

(** The loop [for l.parent != nil] of [RootLogger]. *)
Fixpoint RootLogger_loop (fuel : nat) (l : addr) : M addr :=
  match fuel with
  | O => diverge
  | S fuel' =>
      lg ← deref l;
      match parent lg with
      | None => mret l
      | Some p => RootLogger_loop fuel' p
      end
  end.

(** A chain of parents that visits no logger twice has at most as many
    links as there are loggers, so this fuel is only exhausted on a cycle
    of parents, where the Go loop does not end either. *)
Definition RootLogger (logger : addr) : M addr := λ w,
  RootLogger_loop (S (length (heap w))) logger w.

Definition Handlers (logger : addr) : M (list Handler) :=
  r ← RootLogger logger;
  lg ← deref r;
  mret (handlers lg).

Definition AddHandler (logger : addr) (handler : Handler) : M unit :=
  r ← RootLogger logger;
  r' ← RootLogger logger;
  lg' ← deref r';
  update r (set_handlers (handlers lg' ++ [handler])).

Definition PanicOnError (logger : addr) : M bool :=
  r ← RootLogger logger;
  lg ← deref r;
  mret (panicOnError lg).

Definition SetPanicOnError (logger : addr) (value : bool) : M unit :=
  r ← RootLogger logger;
  update r (set_panicOnError value).

(** [err != nil && err != ErrNoCaller] *)
Definition otherError (err : option Err) : bool :=
  match err with
  | Some e => negb (isErrNoCaller e)
  | None => false
  end.

(** [err != nil && !errors.Is(err, ErrNoCaller)] *)
Definition otherErrorIs (err : option Err) : bool :=
  match err with
  | Some e => negb (errors_Is_ErrNoCaller e)
  | None => false
  end.

(** Calls of the three handler operations; each is recorded in the trace,
    the fallible ones with their answer. A closing call that panics takes
    [Close] with it: nothing in the package recovers. *)
Definition call_OnLoggerCreated (h : Handler) (logger : addr) (now : Time)
    (caller : option Frame) : M unit := λ w,
  Done () (set_trace (trace w ++ [CallCreated (hid h) logger now caller]) w).

Definition call_OnLoggerClosed (h : Handler) (logger : addr) (now : Time)
    (caller : option Frame) : M (option Err) := λ w,
  let res := OnLoggerClosed h (trace w) logger now caller in
  let w' := set_trace (trace w ++ [CallClosed (hid h) logger now caller res]) w in
  match res with
  | Value_ err => Done err w'
  | Panic_ v => Panics v w'
  end.

Definition call_HandleRecord (h : Handler) (logger : addr) (record : Record_)
    : M (option Err) := λ w,
  let res := HandleRecord h (trace w) logger record in
  Done res (set_trace (trace w ++ [CallRecord (hid h) logger record res]) w).

(** [for _, handler := range childLogger.Handlers()] of [NewChildLogger] *)
Fixpoint rangeOnLoggerCreated (hs : list Handler) (logger : addr) (now : Time)
    (caller : option Frame) : M unit :=
  match hs with
  | [] => mret ()
  | handler :: hs' =>
      call_OnLoggerCreated handler logger now caller;;
      rangeOnLoggerCreated hs' logger now caller
  end.

(** [for _, handler := range logger.Handlers()] of [Close]; every answer,
    nil or not, is appended to [errs]. *)
Fixpoint rangeOnLoggerClosed (hs : list Handler) (logger : addr) (now : Time)
    (caller : option Frame) (errs : list (option Err)) : M (list (option Err)) :=
  match hs with
  | [] => mret errs
  | handler :: hs' =>
      e ← call_OnLoggerClosed handler logger now caller;
      rangeOnLoggerClosed hs' logger now caller (errs ++ [e])
  end.

(** [for _, handler := range logger.Handlers()] of [Log] *)
Fixpoint rangeHandleRecord (hs : list Handler) (logger : addr) (record : Record_)
    (errs : list (option Err)) : M (list (option Err)) :=
  match hs with
  | [] => mret errs
  | handler :: hs' =>
      e ← call_HandleRecord handler logger record;
      rangeHandleRecord hs' logger record (errs ++ [e])
  end.

(** Whether the pointer [l] is nil. *)
Definition isNil (l : addr) : M bool := λ w,
  Done (bool_decide (heap w !! l = None)) w.

(** With a nil receiver the new logger is allocated, its parent is set to
    nil, which it already is, and reading [logger.children] panics. *)
Definition NewChildLogger (stk : list Frame) (logger : addr) : M addr :=
  nil ← isNil logger;
  childLogger ← NewLogger;
  if (nil : bool) then panic PanicNilDeref
  else
    update childLogger (set_parent (Some logger));;
    lg ← deref logger;
    update logger (set_children (children lg ++ [childLogger]));;
    r ← callGetCaller (frameAt ".(*Logger).NewChildLogger" 133 :: stk);
    let '(caller, err) := r in
    if otherError err then
      match err with Some e => panic (PanicError e) | None => mret childLogger end
    else
      now ← time_Now;
      hs ← Handlers childLogger;
      rangeOnLoggerCreated hs childLogger now caller;;
      mret childLogger.

(** [for _, child := range logger.children] of [Close]; [close] is the
    recursive call. Only non-nil results are appended. *)
Fixpoint closeChildren (close : addr → M (option Err)) (cs : list addr)
    (errs : list (option Err)) : M (list (option Err)) :=
  match cs with
  | [] => mret errs
  | child :: cs' =>
      err ← close child;
      closeChildren close cs'
        (match err with Some e => errs ++ [Some e] | None => errs end)
  end.

(** [Close], with the depth of recursion bounded by [fuel]. [stk] is the
    stack of the caller; the recursive call is made from line 158 and
    [getCaller] from line 164. *)
Fixpoint Close_fuel (fuel : nat) (stk : list Frame) (logger : addr)
    : M (option Err) :=
  match fuel with
  | O => diverge
  | S fuel' =>
      lg ← deref logger;
      match state lg with
      | LoggerState_Closed => mret None
      | LoggerState_Open =>
          errs ← closeChildren
                   (Close_fuel fuel' (frameAt ".(*Logger).Close" 158 :: stk))
                   (children lg) [];
          r ← callGetCaller (frameAt ".(*Logger).Close" 164 :: stk);
          let '(caller, err) := r in
          if otherError err then mret err
          else
            now ← time_Now;
            hs ← Handlers logger;
            errs' ← rangeOnLoggerClosed hs logger now caller errs;
            update logger (set_state LoggerState_Closed);;
            mret (errors_Join errs')
      end
  end.

(** On a tree the recursion is never deeper than the number of loggers;
    [Close_fuel_spec] proves that this fuel is enough. *)
Definition Close (stk : list Frame) (logger : addr) : M (option Err) := λ w,
  Close_fuel (S (length (heap w))) stk logger w.

Definition Log (stk : list Frame) (logger : addr) (level : Level)
    (message : string) (args : list Any) : M (option Err) :=
  r ← callGetCaller (frameAt ".(*Logger).Log" 208 :: stk);
  let '(caller, err) := r in
  if otherErrorIs err then mret err
  else
    now ← time_Now;
    let record := mkRecord now level message caller (argsToAttrs args) in
    hs ← Handlers logger;
    errs ← rangeHandleRecord hs logger record [];
    mret (errors_Join errs).

(** The body shared by [Debug], [Info], [Warn] and [Error], called from
    line [line] of the method [name]. *)
Definition leveled (name : string) (line : Z) (level : Level) (stk : list Frame)
    (logger : addr) (message : string) (args : list Any) : M (option Err) :=
  err ← Log (frameAt name line :: stk) logger level message args;
  match err with
  | None => mret err
  | Some e =>
      p ← PanicOnError logger;
      if (p : bool) then panic (PanicError e) else mret err
  end.

Definition Debug := leveled ".(*Logger).Debug" 232 LevelDebug.
Definition Info := leveled ".(*Logger).Info" 241 LevelInfo.
Definition Warn := leveled ".(*Logger).Warn" 250 LevelWarn.
Definition Error := leveled ".(*Logger).Error" 259 LevelError.

Definition Fatal (stk : list Frame) (logger : addr) (message : string)
    (args : list Any) : M unit :=
  err ← Log (frameAt ".(*Logger).Fatal" 268 :: stk) logger LevelFatal message args;
  match err with
  | None => os_Exit (A := unit) 1
  | Some e =>
      p ← PanicOnError logger;
      if (p : bool) then panic (PanicError e) else os_Exit (A := unit) 1
  end.

Definition Panic (stk : list Frame) (logger : addr) (message : string)
    (args : list Any) : M unit :=
  err ← Log (frameAt ".(*Logger).Panic" 277 :: stk) logger LevelPanic message args;
  match err with
  | None => panic (PanicString "an unrecoverable error has occurred")
  | Some e =>
      p ← PanicOnError logger;
      if (p : bool) then panic (PanicError e)
      else panic (PanicString "an unrecoverable error has occurred")
  end.

(** [LogReader] of [streams.go]. [scans] are the calls of
    [scanner.Scan()] that return true, in order, each with the token
    [scanner.Text()] and with what [scanner.Err()] returns after it: a
    [bufio.Scanner] whose reader has failed still delivers the data it
    holds, token by token, with the error of the reader pending. After
    them [Scan] returns false. [format] is [fmt.Sprintf(format, line)]; what
    [Log] returns is dropped. *)
Fixpoint LogReader (stk : list Frame) (logger : addr)
    (scans : list (string * option Err))
    (level : Level) (format : string → string) (args : list Any)
    : M (option Err) :=
  match scans with
  | [] => mret None
  | (text, scanErr) :: rest =>
      match scanErr with
      | Some err => mret (Some err)
      | None =>
          _ ← Log (mkFrame (String.append pkg ".(*Logger).LogReader")
                     "logging/streams.go" 16 :: stk)
                  logger level (format text) args;
          LogReader stk logger rest level format args
      end
  end.

End Operations.

(** * Predicates used in the statements *)

Local Open Scope nat_scope.

(** ** Attribute parsing *)

Definition isString (x : Any) : bool :=
  match x with AString _ => true | _ => false end.

(** [Parses args units attrs]: [args] is cut into the consecutive non-empty
    pieces [units], and [nextAttrFromArgs], applied to what remains before
    each piece, consumes exactly that piece and yields the attribute at the
    same position of [attrs]. *)
Inductive Parses : list Any → list (list Any) → list Attribute → Prop :=
| Parses_nil : Parses [] [] []
| Parses_unit u rest attr units attrs :
    u ≠ [] →
    nextAttrFromArgs (u ++ rest) = Some (attr, rest) →
    Parses rest units attrs →
    Parses (u ++ rest) (u :: units) (attr :: attrs).

(** ** The logger tree *)

(** The stores the package builds (see [reachable_wf]). A logger is created
    by [NewLogger] with no parent and no children, and only
    [NewChildLogger] links loggers: the child is new, so its address is
    above its parent's, it lies once in the child list of its parent, and
    nowhere else. *)
Definition wf (h : list Logger) : Prop :=
  ∀ a lg, h !! a = Some lg →
    (∀ p, parent lg = Some p → p < a ∧ ∃ lp, h !! p = Some lp ∧ a ∈ children lp) ∧
    (∀ c, c ∈ children lg → a < c ∧ ∃ lc, h !! c = Some lc ∧ parent lc = Some a) ∧
    NoDup (children lg).

(** The same conditions as a computation, for concrete stores. *)
Definition wfNodeb (h : list Logger) (a : addr) (lg : Logger) : bool :=
  match parent lg with
  | None => true
  | Some p =>
      bool_decide (p < a) &&
      match h !! p with
      | Some lp => bool_decide (a ∈ children lp)
      | None => false
      end
  end &&
  forallb (λ c, bool_decide (a < c) &&
                match h !! c with
                | Some lc => bool_decide (parent lc = Some a)
                | None => false
                end) (children lg) &&
  bool_decide (NoDup (children lg)).

Definition wfb (h : list Logger) : bool :=
  forallb (λ a, match h !! a with Some lg => wfNodeb h a lg | None => true end)
    (seq 0 (length h)).

(** [under h a b]: [b] is [a] or a descendant of [a]; the chain of parents
    from [b] passes through [a]. *)
Inductive under (h : list Logger) (a : addr) : addr → Prop :=
| under_refl : under h a a
| under_child b lb p :
    h !! b = Some lb → parent lb = Some p → under h a p → under h a b.


(** The store [h] with the loggers at the addresses [S] marked closed. *)
Definition closeAll (S : list addr) (h : list Logger) : list Logger :=
  imap (λ i lg, if bool_decide (i ∈ S) then set_state LoggerState_Closed lg else lg) h.

(** Post-order over the open part of the tree below [a]: the children from
    first to last, each with what lies below it, then [a] itself; a closed
    logger and everything below it is left out. *)
Fixpoint closeOrder (fuel : nat) (h : list Logger) (a : addr) : list addr :=
  match fuel with
  | O => []
  | S fuel' =>
      match h !! a with
      | None => []
      | Some lg =>
          match state lg with
          | LoggerState_Closed => []
          | LoggerState_Open => (children lg ≫= closeOrder fuel' h) ++ [a]
          end
      end
  end.

(** Pre-order over the same part of the tree: [a] first, then the children
    from first to last, each followed by what lies below it. *)
Fixpoint preOrder (fuel : nat) (h : list Logger) (a : addr) : list addr :=
  match fuel with
  | O => []
  | S fuel' =>
      match h !! a with
      | None => []
      | Some lg =>
          match state lg with
          | LoggerState_Closed => []
          | LoggerState_Open => a :: (children lg ≫= preOrder fuel' h)
          end
      end
  end.

(** A logger with its state forgotten. *)
Definition eraseState (l : Logger) : Logger := set_state LoggerState_Open l.

(** ** Traces *)

(** Which operation of which handler a call is, and for which logger. *)
Inductive CallKey : Type :=
| KCreated (h : nat) (logger : addr)
| KClosed (h : nat) (logger : addr)
| KRecord (h : nat) (logger : addr).

Definition callKey (c : Call) : CallKey :=
  match c with
  | CallCreated h l _ _ => KCreated h l
  | CallClosed h l _ _ _ => KClosed h l
  | CallRecord h l _ _ => KRecord h l
  end.

(** The error the handler returned; a creation call returns nothing, and
    neither does a closing call that panicked. *)
Definition callResult (c : Call) : option Err :=
  match c with
  | CallCreated _ _ _ _ => None
  | CallClosed _ _ _ _ (Value_ res) => res
  | CallClosed _ _ _ _ (Panic_ _) => None
  | CallRecord _ _ _ res => res
  end.

(** The loggers whose closing was notified, in the order of the calls. *)
Definition closedTargets (t : list Call) : list addr :=
  omap (λ c, match c with CallClosed _ l _ _ _ => Some l | _ => None end) t.

(** [calls] are the calls of one dispatch over the handlers [hs], made after
    the trace [t0]: one call per handler, in the order of [hs], the [i]-th
    one to the [i]-th handler, which answers knowing the trace up to its
    own call. [mk h t] is the call of handler [h] after the trace [t]. *)
Definition dispatched (mk : Handler → list Call → Call) (hs : list Handler)
    (t0 : list Call) (calls : list Call) : Prop :=
  length calls = length hs ∧
  ∀ i h, hs !! i = Some h → calls !! i = Some (mk h (t0 ++ take i calls)).


Definition mkRecorded (logger : addr) (record : Record_)
    (h : Handler) (t : list Call) : Call :=
  CallRecord (hid h) logger record (HandleRecord h t logger record).

Definition mkCreated (logger : addr) (now : Time) (caller : option Frame)
    (h : Handler) (t : list Call) : Call :=
  CallCreated (hid h) logger now caller.

(** ** The caller resolver *)

(** The resolver returns, and not with an error that makes [Close] and
    [NewChildLogger] give up. *)
Definition resolves (t : Try (option Frame * option Err)) : Prop :=
  ∃ caller err, t = Value_ (caller, err) ∧ otherError err = false.

Definition frame_Close_rec : Frame := frameAt ".(*Logger).Close" 158.
Definition frame_Close_get : Frame := frameAt ".(*Logger).Close" 164.

(** The stack on which the [k]-th nested [Close] below a [Close] called
    from [stk] calls [getCaller]. *)
Definition closeStack (k : nat) (stk : list Frame) : list Frame :=
  frame_getCaller :: frame_Close_get :: replicate k frame_Close_rec ++ stk.

(** A frame whose function name [getModulePath] accepts. *)
Definition wellNamed (f : Frame) : Prop :=
  ∃ m, getModulePath (Function f) = Value_ m.

(** ** Orders *)


(** ** The levelled calls that return *)

Inductive LeveledMethod : Type := MDebug | MInfo | MWarn | MError.

Definition runLeveled (resolve : list Frame → Try (option Frame * option Err))
    (timeNow : nat → Time) (m : LeveledMethod)
    : list Frame → addr → string → list Any → M (option Err) :=
  match m with
  | MDebug => Debug resolve timeNow
  | MInfo => Info resolve timeNow
  | MWarn => Warn resolve timeNow
  | MError => Error resolve timeNow
  end.

Definition levelOf (m : LeveledMethod) : Level :=
  match m with
  | MDebug => LevelDebug | MInfo => LevelInfo
  | MWarn => LevelWarn | MError => LevelError
  end.

(** The frame of the method while it calls [Log]. *)
Definition methodFrame (m : LeveledMethod) : Frame :=
  match m with
  | MDebug => frameAt ".(*Logger).Debug" 232
  | MInfo => frameAt ".(*Logger).Info" 241
  | MWarn => frameAt ".(*Logger).Warn" 250
  | MError => frameAt ".(*Logger).Error" 259
  end.

(** The stack on which [Log], called from a function with the stack [stk],
    calls [getCaller]. *)
Definition logStack (stk : list Frame) : list Frame :=
  frame_getCaller :: frameAt ".(*Logger).Log" 208 :: stk.

(** The stack on which [NewChildLogger], called from a function with the
    stack [stk], calls [getCaller]. *)
Definition childStack (stk : list Frame) : list Frame :=
  frame_getCaller :: frameAt ".(*Logger).NewChildLogger" 133 :: stk.

(** ** Outcomes up to the store *)

(** The outcome [r] with the store of the world it leaves replaced by [h]. *)
Definition withHeap {A} (h : list Logger) (r : Res A) : Res A :=
  match r with
  | Done a w => Done a (set_heap h w)
  | Panics v w => Panics v (set_heap h w)
  | Exits c w => Exits c (set_heap h w)
  | Diverges => Diverges
  end.

(** The world an outcome leaves, if any. *)
Definition resWorld {A} (r : Res A) : option World :=
  match r with
  | Done _ w | Panics _ w | Exits _ w => Some w
  | Diverges => None
  end.

(** ** Creating a child *)

(** The logger [NewLogger] allocates, and the one [NewChildLogger] leaves
    at the new address. *)
Definition freshLogger (u : UUID) : Logger :=
  mkLogger u None [] LoggerState_Open false [].
Definition freshChild (u : UUID) (p : addr) : Logger :=
  mkLogger u (Some p) [] LoggerState_Open false [].

(** The store after [NewChildLogger] on the logger [lg] at [a]: one entry
    more in the child list of [a], one logger more at the end. *)
Definition childAdded (h : list Logger) (a : addr) (lg : Logger) (u : UUID)
    : list Logger :=
  <[a := set_children (children lg ++ [length h]) lg]> h ++ [freshChild u a].

(** [h'] has the loggers of [h], with the links to the parent and the
    configuration they had. *)
Definition linksKept (h h' : list Logger) : Prop :=
  ∀ i lg, h !! i = Some lg →
    ∃ lg', h' !! i = Some lg' ∧ parent lg' = parent lg ∧
           handlers lg' = handlers lg ∧ panicOnError lg' = panicOnError lg.

(** ** The operations of the package, as one type *)

Inductive Op : Type :=
| OpNewLogger
| OpNewChildLogger (stk : list Frame) (logger : addr)
| OpClose (stk : list Frame) (logger : addr)
| OpRootLogger (logger : addr)
| OpHandlers (logger : addr)
| OpAddHandler (logger : addr) (h : Handler)
| OpPanicOnError (logger : addr)
| OpSetPanicOnError (logger : addr) (value : bool)
| OpLog (stk : list Frame) (logger : addr) (level : Level) (message : string)
    (args : list Any)
| OpLeveled (m : LeveledMethod) (stk : list Frame) (logger : addr)
    (message : string) (args : list Any)
| OpFatal (stk : list Frame) (logger : addr) (message : string) (args : list Any)
| OpPanic (stk : list Frame) (logger : addr) (message : string) (args : list Any)
| OpLogReader (stk : list Frame) (logger : addr)
    (scans : list (string * option Err))
    (level : Level) (format : string → string) (args : list Any).

(** Running an operation for its effect on the world. *)
Definition run (resolve : list Frame → Try (option Frame * option Err))
    (timeNow : nat → Time) (uuidNew : nat → UUID) (op : Op) : M unit :=
  match op with
  | OpNewLogger => _ ← NewLogger uuidNew; mret ()
  | OpNewChildLogger stk l => _ ← NewChildLogger resolve timeNow uuidNew stk l; mret ()
  | OpClose stk l => _ ← Close resolve timeNow stk l; mret ()
  | OpRootLogger l => _ ← RootLogger l; mret ()
  | OpHandlers l => _ ← Handlers l; mret ()
  | OpAddHandler l h => AddHandler l h
  | OpPanicOnError l => _ ← PanicOnError l; mret ()
  | OpSetPanicOnError l v => SetPanicOnError l v
  | OpLog stk l level message args =>
      _ ← Log resolve timeNow stk l level message args; mret ()
  | OpLeveled m stk l message args =>
      _ ← runLeveled resolve timeNow m stk l message args; mret ()
  | OpFatal stk l message args => Fatal resolve timeNow stk l message args
  | OpPanic stk l message args => Panic resolve timeNow stk l message args
  | OpLogReader stk l scans level format args =>
      _ ← LogReader resolve timeNow stk l scans level format args; mret ()
  end.

(** [w'] has the loggers of [w], and those closed in [w] are closed in
    [w']. *)
Definition grows (w w' : World) : Prop :=
  ∀ i lg, heap w !! i = Some lg →
    ∃ lg', heap w' !! i = Some lg' ∧
           (state lg = LoggerState_Closed → state lg' = LoggerState_Closed).

(** A computation that, however it ends, leaves a world related by [R] to
    the one it started in. *)
Definition Pres (R : World → World → Prop) {A} (m : M A) : Prop :=
  ∀ w w', resWorld (m w) = Some w' → R w w'.

(** A computation that reopens no logger. *)
Definition Mono {A} (m : M A) : Prop := Pres grows m.

(** The links of a store: the parent and the children of each logger. *)
Definition links (h : list Logger) : list (option addr * list addr) :=
  (λ l, (parent l, children l)) <$> h.

Definition sameLinks (w w' : World) : Prop := links (heap w') = links (heap w).

(** A write to the fields of a logger that touches no link and reopens
    nothing. *)
Definition fieldWrite (f : Logger → Logger) : Prop :=
  ∀ lg, parent (f lg) = parent lg ∧ children (f lg) = children lg ∧
        (state lg = LoggerState_Closed → state (f lg) = LoggerState_Closed).

Definition emptyWorld : World := mkWorld [] [] 0 0.

(** The worlds a program can build with the operations of the package. *)
Inductive reachable (resolve : list Frame → Try (option Frame * option Err))
    (timeNow : nat → Time) (uuidNew : nat → UUID) : World → Prop :=
| reachable_empty : reachable resolve timeNow uuidNew emptyWorld
| reachable_step op w w' :
    reachable resolve timeNow uuidNew w →
    resWorld (run resolve timeNow uuidNew op w) = Some w' →
    reachable resolve timeNow uuidNew w'.

(** ** The closing cascade *)

(** [n] is [j] levels below [a]: it is reached from [a] through [j] child
    lists. *)
Inductive levelsBelow (h : list Logger) (a : addr) : addr → nat → Prop :=
| levelsBelow_O : levelsBelow h a a 0
| levelsBelow_S l lg c j :
    levelsBelow h a l j → h !! l = Some lg → c ∈ children lg →
    levelsBelow h a c (S j).

(** The handlers [hs] return from the closing call for the logger [l] with
    the caller [caller], whatever has been called before and whatever the
    time. *)
Definition returnsClosing (hs : list Handler) (l : addr) (caller : option Frame)
    : Prop :=
  ∀ hd t now, hd ∈ hs → ∃ res, OnLoggerClosed hd t l now caller = Value_ res.

(** The closing calls that a [Close] on [a], called from [stk], can make to
    the handlers [hs] return: each handler returns from the call for a
    logger [k] levels below [a] when it is given the caller that the
    resolver finds [k] levels deep in the recursion. *)
Definition closingReturns (resolve : list Frame → Try (option Frame * option Err))
    (stk : list Frame) (h : list Logger) (a : addr) (hs : list Handler) : Prop :=
  ∀ l k caller err,
    levelsBelow h a l k →
    resolve (closeStack k stk) = Value_ (caller, err) →
    returnsClosing hs l caller.


(** ** Concrete trees *)

(** A handler that accepts every call, and one that fails on every call. *)
Definition quietHandler (n : nat) : Handler :=
  mkHandler n (λ _ _ _ _, Value_ None) (λ _ _ _, None).
Definition failingHandler (n : nat) (msg : string) : Handler :=
  mkHandler n (λ _ _ _ _, Value_ (Some (ErrNew msg))) (λ _ _ _, Some (ErrNew msg)).

(** The stack of [main], a clock and a UUID generator. *)
Definition mainFrame : Frame := mkFrame "main.main" "main.go" 12.
Definition clock0 : nat → Time := λ n, Z.of_nat n.
Definition uuid0 : nat → UUID := λ n, Z.of_nat n.

(** The world left by a run of [m] from the empty world. *)
Definition worldAfter {A} (m : M A) : World :=
  match m emptyWorld with
  | Done _ w | Panics _ w | Exits _ w => w
  | Diverges => emptyWorld
  end.

(** [root := NewLogger(); root.AddHandler(h); a := root.NewChildLogger();
    b := a.NewChildLogger()], called from [main]: the chain 0 -> 1 -> 2. *)
Definition chainWorld (h : Handler) : World :=
  worldAfter (
    root ← NewLogger uuid0;
    AddHandler root h;;
    a ← NewChildLogger getCaller clock0 uuid0 [mainFrame] root;
    NewChildLogger getCaller clock0 uuid0 [mainFrame] a).

(** The chain 0 -> 1 -> 2 again, with two handlers registered on the root,
    the first of which fails on every call. *)
Definition twoHandlers : list Handler :=
  [failingHandler 1 "disk full"; quietHandler 2].

Definition chainWorld2 : World :=
  worldAfter (
    root ← NewLogger uuid0;
    AddHandler root (failingHandler 1 "disk full");;
    AddHandler root (quietHandler 2);;
    a ← NewChildLogger getCaller clock0 uuid0 [mainFrame] root;
    NewChildLogger getCaller clock0 uuid0 [mainFrame] a).

(** The leaf of that chain. *)
Definition leaf2 : Logger :=
  mkLogger 2%Z (Some 1) [] LoggerState_Open false [].

(** That chain after [Close] on the leaf. *)
Definition closedLeafWorld : World :=
  match resWorld (Close getCaller clock0 [mainFrame] 2 chainWorld2) with
  | Some w => w
  | None => chainWorld2
  end.

(** A root 0 with one handler and the children 1 and 2; 3 is a child of 1. *)
Definition familyWorld : World :=
  worldAfter (
    root ← NewLogger uuid0;
    AddHandler root (quietHandler 1);;
    a ← NewChildLogger getCaller clock0 uuid0 [mainFrame] root;
    NewChildLogger getCaller clock0 uuid0 [mainFrame] root;;
    NewChildLogger getCaller clock0 uuid0 [mainFrame] a).

(** The root and the second child of that tree. *)
Definition familyRoot : Logger :=
  mkLogger 0%Z None [1; 2] LoggerState_Open false [quietHandler 1].

(** A child created under a logger that has been closed: 0 -> 1 -> 2 with
    1 closed and 2 open. *)
Definition shieldWorld : World :=
  worldAfter (
    root ← NewLogger uuid0;
    AddHandler root (quietHandler 1);;
    a ← NewChildLogger getCaller clock0 uuid0 [mainFrame] root;
    _ ← Close getCaller clock0 [mainFrame] a;
    NewChildLogger getCaller clock0 uuid0 [mainFrame] a).

(** * The escape codes of [logging/ansi] *)

Module ansi.

Local Open Scope Z_scope.

(** [type EscapeCode int], with the constants in the order of their
    [iota]. *)
Definition EscapeCode := Z.

Definition Reset : EscapeCode := 0.
Definition Bold : EscapeCode := 1.
Definition Dim : EscapeCode := 2.
Definition Italic : EscapeCode := 3.
Definition Underline : EscapeCode := 4.
Definition Blink : EscapeCode := 5.
Definition Reverse : EscapeCode := 6.
Definition Hidden : EscapeCode := 7.
Definition FgBlack : EscapeCode := 8.
Definition FgRed : EscapeCode := 9.
Definition FgGreen : EscapeCode := 10.
Definition FgYellow : EscapeCode := 11.
Definition FgBlue : EscapeCode := 12.
Definition FgMagenta : EscapeCode := 13.
Definition FgCyan : EscapeCode := 14.
Definition FgWhite : EscapeCode := 15.
Definition FgBrightBlack : EscapeCode := 16.
Definition FgBrightRed : EscapeCode := 17.
Definition FgBrightGreen : EscapeCode := 18.
Definition FgBrightYellow : EscapeCode := 19.
Definition FgBrightBlue : EscapeCode := 20.
Definition FgBrightMagenta : EscapeCode := 21.
Definition FgBrightCyan : EscapeCode := 22.
Definition FgBrightWhite : EscapeCode := 23.
Definition BgBlack : EscapeCode := 24.
Definition BgRed : EscapeCode := 25.
Definition BgGreen : EscapeCode := 26.
Definition BgYellow : EscapeCode := 27.
Definition BgBlue : EscapeCode := 28.
Definition BgMagenta : EscapeCode := 29.
Definition BgCyan : EscapeCode := 30.
Definition BgWhite : EscapeCode := 31.
Definition BgBrightBlack : EscapeCode := 32.
Definition BgBrightRed : EscapeCode := 33.
Definition BgBrightGreen : EscapeCode := 34.
Definition BgBrightYellow : EscapeCode := 35.
Definition BgBrightBlue : EscapeCode := 36.
Definition BgBrightMagenta : EscapeCode := 37.
Definition BgBrightCyan : EscapeCode := 38.
Definition BgBrightWhite : EscapeCode := 39.

(** The byte [\033]. *)
Definition ESC : ascii := "027"%char.

(** The entries of [strs], in the order of the map literal. *)
Definition strs_entries : list (EscapeCode * string) := [
  (Reset, String ESC "[0m");
  (Bold, String ESC "[1m");
  (Dim, String ESC "[2m");
  (Italic, String ESC "[3m");
  (Underline, String ESC "[4m");
  (Blink, String ESC "[5m");
  (Reverse, String ESC "[7m");
  (Hidden, String ESC "[8m");
  (FgBlack, String ESC "[30m");
  (FgRed, String ESC "[31m");
  (FgGreen, String ESC "[32m");
  (FgYellow, String ESC "[33m");
  (FgBlue, String ESC "[34m");
  (FgMagenta, String ESC "[35m");
  (FgCyan, String ESC "[36m");
  (FgWhite, String ESC "[37m");
  (FgBrightBlack, String ESC "[90m");
  (FgBrightRed, String ESC "[91m");
  (FgBrightGreen, String ESC "[92m");
  (FgBrightYellow, String ESC "[93m");
  (FgBrightBlue, String ESC "[94m");
  (FgBrightMagenta, String ESC "[95m");
  (FgBrightCyan, String ESC "[96m");
  (FgBrightWhite, String ESC "[97m");
  (BgBlack, String ESC "[40m");
  (BgRed, String ESC "[41m");
  (BgGreen, String ESC "[42m");
  (BgYellow, String ESC "[43m");
  (BgBlue, String ESC "[44m");
  (BgMagenta, String ESC "[45m");
  (BgCyan, String ESC "[46m");
  (BgWhite, String ESC "[47m");
  (BgBrightBlack, String ESC "[100m");
  (BgBrightRed, String ESC "[101m");
  (BgBrightGreen, String ESC "[102m");
  (BgBrightYellow, String ESC "[103m");
  (BgBrightBlue, String ESC "[104m");
  (BgBrightMagenta, String ESC "[105m");
  (BgBrightCyan, String ESC "[106m");
  (BgBrightWhite, String ESC "[107m")
].

Definition strs : gmap Z string := list_to_map strs_entries.

(** [strs[ec]]: a key that is not in the map yields the empty string. *)
Definition strs_at (ec : EscapeCode) : string := default "" (strs !! ec).

(** [type EscapeMode int] *)
Definition EscapeMode := Z.
Definition EscapeMode_Enable : EscapeMode := 0.
Definition EscapeMode_Disable : EscapeMode := 1.

(** [str] is the text the [strings.Builder] holds. *)
Record AnsiStringBuilder : Type := mkBuilder {
  str : string;
  escapeMode : EscapeMode
}.

(** A method with the receiver [*AnsiStringBuilder]: it returns a value and
    leaves the builder changed. *)
Definition B (A : Type) : Type := AnsiStringBuilder → A * AnsiStringBuilder.

#[global] Instance B_ret : MRet B := λ A a b, (a, b).
#[global] Instance B_bind : MBind B := λ A C k m b,
  let '(a, b') := m b in k a b'.

Definition NewAnsiStringBuilder : AnsiStringBuilder :=
  mkBuilder "" EscapeMode_Enable.

(** [var str ansi.AnsiStringBuilder]: the zero value. *)
Definition zero : AnsiStringBuilder := mkBuilder "" 0.

Definition SetEscapeMode (mode : EscapeMode) : B unit := λ b,
  ((), mkBuilder (str b) mode).

(** [strings.Builder.WriteString] appends [s] and returns its length in
    bytes and a nil error. *)
Definition WriteString (s : string) : B (Z * option Err) := λ b,
  ((Z.of_nat (String.length s), None), mkBuilder (str b +:+ s) (escapeMode b)).

Definition WriteEscapeCode (ec : EscapeCode) : B (Z * option Err) := λ b,
  if escapeMode b =? EscapeMode_Disable then ((0, None), b)
  else WriteString (strs_at ec) b.

(** An argument of [Write(ss ...any)]: an [EscapeCode], or a value of
    another type. *)
Inductive Val : Type :=
| VCode (ec : EscapeCode)
| VAny (v : Any).

(** The loop of [Write], with the count [n] so far. *)
Fixpoint Write_loop (ss : list Val) (n : Z) : B (Z * option Err) :=
  match ss with
  | [] => mret (n, None)
  | s :: rest =>
      match s with
      | VCode s =>
          r ← WriteEscapeCode s;
          let '(nn, err) := r in
          let n := n + nn in
          match err with
          | Some e => mret (n, Some e)
          | None => Write_loop rest n
          end
      | VAny (AString s) =>
          r ← WriteString s;
          let '(nn, err) := r in
          let n := n + nn in
          match err with
          | Some e => mret (n, Some e)
          | None => Write_loop rest n
          end
      | VAny _ => Write_loop rest n
      end
  end.

Definition Write (ss : list Val) : B (Z * option Err) := Write_loop ss 0.

(** [String()] *)
Definition String_ (b : AnsiStringBuilder) : string := str b.

End ansi.

(** * The pretty handler *)

(** A value of an attribute as the type switch of [printAttrsRec] sees it:
    a slice of attributes, an error, or anything else; and a slice of
    attributes with such values. *)
Inductive AttrValue : Type :=
| VAttrs (v : AttrList)
| VError (v : Err)
| VOther (v : Any)
with AttrList : Type :=
| AttrNil
| AttrCons (key : string) (value : AttrValue) (rest : AttrList).

Scheme AttrList_mut := Induction for AttrList Sort Prop
  with AttrValue_mut := Induction for AttrValue Sort Prop.

(** The line feed and the double quote, as strings. *)
Definition LF : ascii := "010"%char.
Definition nl : string := String LF "".
Definition dquote : string := String "034"%char "".

Definition globalPadding : string := "                     ".

(** An [io.Writer], by what the handlers ask of it: whether it is an
    [*os.File], whether the descriptor of that file is a terminal, and the
    errors that [fmt.Fprintf(writer, format)] and [writer.Write(data)]
    return. *)
Record Writer : Type := mkWriter {
  isFile : bool;
  isTerminal : bool;
  writer_Fprintf : string → option Err;
  writer_Write : string → option Err
}.

Record PrettyHandler : Type := mkPrettyHandler {
  pretty_writer : Writer;
  pretty_level : Level
}.

Definition NewPrettyHandler (writer : Writer) (level : Level) : PrettyHandler :=
  mkPrettyHandler writer level.

Definition PrettyHandler_useColor (handler : PrettyHandler) : bool :=
  if negb (isFile (pretty_writer handler)) then false
  else isTerminal (pretty_writer handler).

Definition PrettyHandler_OnLoggerCreated (handler : PrettyHandler) (logger : addr)
    (timestamp : Time) (caller : option Frame) : unit := ().

Definition PrettyHandler_OnLoggerClosed (handler : PrettyHandler) (logger : addr)
    (timestamp : Time) (caller : option Frame) : option Err := None.

Section Pretty.

(** The formatting done by the libraries: [fmt.Sprintf("%#v", v)] for an
    error and for another value, [v.Error()], [fmt.Sprintf("%d", n)],
    [Time.Format("2006/01/02 15:04:05")], and
    [filepath.Rel(projectRoot, file)], which returns a path or an error.
    [view] is what the type switch on the value of an attribute finds. *)
Variable goSyntaxError : Err → string.
Variable goSyntax : Any → string.
Variable errorText : Err → string.
Variable itoa : Z → string.
Variable formatTime : Time → string.
Variable filepath_Rel : string → option string.
Variable view : Any → AttrValue.

Fixpoint printAttrsRec (attrs : AttrList) (padding : string) : ansi.B unit :=
  match attrs with
  | AttrNil => mret ()
  | AttrCons key value rest =>
      _ ← ansi.WriteString padding;
      let isLast := match rest with AttrNil => true | AttrCons _ _ _ => false end in
      _ ← (if negb isLast then ansi.WriteString "├─ "
           else ansi.WriteString "└─ ");
      _ ← match value with
          | VAttrs v =>
              _ ← ansi.Write [ansi.VCode ansi.FgBrightBlack; ansi.VAny (AString key);
                              ansi.VCode ansi.Reset; ansi.VAny (AString nl)];
              if negb isLast then printAttrsRec v (padding +:+ "│   ")
              else printAttrsRec v (padding +:+ "    ")
          | VError v =>
              _ ← ansi.Write [ansi.VCode ansi.FgBrightBlack; ansi.VAny (AString key);
                              ansi.VCode ansi.Reset; ansi.VAny (AString ": ");
                              ansi.VAny (AString (goSyntaxError v +:+ " " +:+ dquote
                                                   +:+ errorText v +:+ dquote));
                              ansi.VAny (AString nl)];
              mret ()
          | VOther v =>
              _ ← ansi.Write [ansi.VCode ansi.FgBrightBlack; ansi.VAny (AString key);
                              ansi.VCode ansi.Reset; ansi.VAny (AString ": ");
                              ansi.VAny (AString (goSyntax v));
                              ansi.VAny (AString nl)];
              mret ()
          end;
      printAttrsRec rest padding
  end.

(** [record.Attributes], with each value as the type switch finds it. *)
Fixpoint viewAttrs (attrs : list Attribute) : AttrList :=
  match attrs with
  | [] => AttrNil
  | attr :: rest => AttrCons (Key attr) (view (Value attr)) (viewAttrs rest)
  end.

(** The text [HandleRecord] builds in [str]. *)
Definition PrettyHandler_build (handler : PrettyHandler) (record : Record_)
    : ansi.B unit :=
  _ ← (if PrettyHandler_useColor handler
       then ansi.SetEscapeMode ansi.EscapeMode_Enable
       else ansi.SetEscapeMode ansi.EscapeMode_Disable);
  _ ← ansi.Write [ansi.VAny (AString (formatTime (Time_ record)));
                  ansi.VAny (AString " ")];
  _ ← match Level_ record with
      | LevelDebug =>
          ansi.Write [ansi.VCode ansi.FgMagenta; ansi.VAny (AString "DBG");
                      ansi.VCode ansi.Reset]
      | LevelInfo =>
          ansi.Write [ansi.VCode ansi.FgBlue; ansi.VAny (AString "INF");
                      ansi.VCode ansi.Reset]
      | LevelWarn =>
          ansi.Write [ansi.VCode ansi.FgYellow; ansi.VAny (AString "WRN");
                      ansi.VCode ansi.Reset]
      | LevelError =>
          ansi.Write [ansi.VCode ansi.FgRed; ansi.VAny (AString "ERR");
                      ansi.VCode ansi.Reset]
      | LevelFatal =>
          ansi.Write [ansi.VCode ansi.FgBlack; ansi.VCode ansi.BgRed;
                      ansi.VAny (AString "FTL"); ansi.VCode ansi.Reset]
      | LevelPanic =>
          ansi.Write [ansi.VCode ansi.FgBlack; ansi.VCode ansi.BgRed;
                      ansi.VAny (AString "!!!"); ansi.VCode ansi.Reset]
      end;
  _ ← ansi.WriteString " ";
  let callerRelativePath :=
    match Caller record with
    | Some caller => filepath_Rel (File caller)
    | None => None
    end in
  _ ← match callerRelativePath, Caller record with
      | Some relativePath, Some caller =>
          ansi.Write [ansi.VCode ansi.FgBrightBlack;
                      ansi.VAny (AString ("<" +:+ relativePath +:+ ":"
                                          +:+ itoa (Line caller) +:+ "> "));
                      ansi.VCode ansi.Reset]
      | _, _ =>
          ansi.Write [ansi.VCode ansi.FgBrightBlack;
                      ansi.VAny (AString "<UNKNOWN CALLER> ");
                      ansi.VCode ansi.Reset]
      end;
  _ ← ansi.WriteString (Message record);
  _ ← ansi.WriteString nl;
  printAttrsRec (viewAttrs (Attributes record)) globalPadding.

(** [HandleRecord]: the error it returns and the format strings it hands
    to [fmt.Fprintf], in order. *)
Definition PrettyHandler_HandleRecord (handler : PrettyHandler) (logger : addr)
    (record : Record_) : option Err * list string :=
  if (Level_value (Level_ record) <? Level_value (pretty_level handler))%Z
  then (None, [])
  else
    let str := snd (PrettyHandler_build handler record ansi.zero) in
    (writer_Fprintf (pretty_writer handler) (ansi.String_ str), [ansi.String_ str]).

End Pretty.

(** The number of bytes [c] in [s]. *)
Fixpoint countByte (c : ascii) (s : string) : nat :=
  match s with
  | EmptyString => 0
  | String x s' => (if Ascii.eqb x c then 1 else 0) + countByte c s'
  end.

(** The number of attributes of a slice, those of the nested slices
    included. *)
Fixpoint attrCount (attrs : AttrList) : nat :=
  match attrs with
  | AttrNil => 0
  | AttrCons _ value rest =>
      S (match value with VAttrs v => attrCount v | _ => 0 end + attrCount rest)
  end.

(** No key of [attrs], and no rendering of a value of [attrs], holds the
    byte [c]. *)
Fixpoint attrsFree (goSyntaxError : Err → string) (goSyntax : Any → string)
    (errorText : Err → string) (c : ascii) (attrs : AttrList) : Prop :=
  match attrs with
  | AttrNil => True
  | AttrCons key value rest =>
      countByte c key = 0 ∧
      match value with
      | VAttrs v => attrsFree goSyntaxError goSyntax errorText c v
      | VError e => countByte c (goSyntaxError e) = 0 ∧ countByte c (errorText e) = 0
      | VOther v => countByte c (goSyntax v) = 0
      end ∧
      attrsFree goSyntaxError goSyntax errorText c rest
  end.

(** What [Write] appends for one argument: the escape sequence of a code
    unless the mode is [EscapeMode_Disable], a string itself, and nothing
    for a value of another type. *)
Definition writtenFor (mode : ansi.EscapeMode) (s : ansi.Val) : string :=
  match s with
  | ansi.VCode ec => if (mode =? ansi.EscapeMode_Disable)%Z then "" else ansi.strs_at ec
  | ansi.VAny (AString s) => s
  | ansi.VAny _ => ""
  end.

(** The strings among the arguments of [Write], in order. *)
Definition stringsOf (ss : list ansi.Val) : list string :=
  omap (λ s, match s with ansi.VAny (AString s) => Some s | _ => None end) ss.

(** The concatenation of a list of strings. *)
Definition joined (l : list string) : string := foldr String.append "" l.

(** A Select Graphic Rendition sequence: [ESC], an opening bracket, one to
    three decimal digits and the letter m. *)
Definition isDigit (c : ascii) : bool :=
  (48 <=? nat_of_ascii c) && (nat_of_ascii c <=? 57).

Definition isSGR (s : string) : bool :=
  match s with
  | String e (String "[" rest) =>
      Ascii.eqb e ansi.ESC &&
      match rest with
      | String a "m" => isDigit a
      | String a (String b "m") => isDigit a && isDigit b
      | String a (String b (String c "m")) => isDigit a && isDigit b && isDigit c
      | _ => false
      end
  | _ => false
  end.

(** * Predicates for the other operations of [Logger] *)

(** A computation that does not end the process. *)
Definition neverExits {A} (m : M A) : Prop :=
  ∀ w c w', m w ≠ Exits c w'.

(** The frames of [Fatal], [Panic] and [LogReader] while they call [Log]. *)
Definition frame_Fatal : Frame := frameAt ".(*Logger).Fatal" 268.
Definition frame_Panic : Frame := frameAt ".(*Logger).Panic" 277.
Definition frame_LogReader : Frame :=
  mkFrame (String.append pkg ".(*Logger).LogReader") "logging/streams.go" 16.

(** The handler, the logger and the record of a call of [HandleRecord]. *)
Definition recordedBy (c : Call) : option (nat * addr * Record_) :=
  match c with
  | CallRecord h l r _ => Some (h, l, r)
  | _ => None
  end.

(** The links of [h] are still there in [h']: each logger of [h] is in [h']
    with the parent it had, and the children it had are the first of its
    children. *)
Definition linksGrow (h h' : list Logger) : Prop :=
  ∀ i lg, h !! i = Some lg →
    ∃ lg', h' !! i = Some lg' ∧ parent lg' = parent lg ∧
           children lg `prefix_of` children lg'.

(** The chain 0 -> 1 -> 2 after [Close] on its root. *)
Definition closedChainWorld : World :=
  match resWorld (Close getCaller clock0 [mainFrame] 0 (chainWorld (quietHandler 7))) with
  | Some w => w
  | None => chainWorld (quietHandler 7)
  end.

(** The world after the operations [ops], run one after the other from
    [w] with [getCaller] as the resolver; an operation that does not end
    leaves the world as it is. *)
Definition runFrom (w : World) (ops : list Op) : World :=
  foldl (λ w op, match resWorld (run getCaller clock0 uuid0 op w) with
                 | Some w' => w'
                 | None => w
                 end) w ops.

(** A root with one handler and two children, the first of them closed. *)
Definition builtWorld : World :=
  runFrom emptyWorld
    [OpNewLogger; OpAddHandler 0 (quietHandler 1);
     OpNewChildLogger [mainFrame] 0; OpNewChildLogger [mainFrame] 0;
     OpClose [mainFrame] 1].

(** The world [NewChildLogger] on the logger [lg] at [a] leaves when it
    gives up after linking the child: the child is in the store, no handler
    was called and the clock was not read. *)
Definition childLinked (w : World) (a : addr) (lg : Logger) (u : UUID) : World :=
  mkWorld (childAdded (heap w) a lg u) (trace w) (ticks w) (S (uuids w)).

(** A resolver that fails with an error other than [ErrNoCaller] on every
    stack. *)
Definition failingResolver (stack : list Frame) : Try (option Frame * option Err) :=
  Value_ (None, Some (ErrNew "stack unavailable")).

(** [m], run on a builder in the mode [mode], appends a text with [k]
    bytes [c] to the text of the builder and leaves the mode. *)
Definition appendsCount {A} (mode : ansi.EscapeMode) (c : ascii) (k : nat)
    (m : ansi.B A) : Prop :=
  ∀ b, ansi.escapeMode b = mode →
    ∃ x text, m b = (x, ansi.mkBuilder (ansi.str b +:+ text) mode) ∧
              countByte c text = k.

(** The byte [c] is in none of the fixed strings of the pretty handler. *)
Definition notInLayout (c : ascii) : Prop :=
  Forall (λ s, countByte c s = 0)
    ["├─ "; "└─ "; "│   "; "    "; ": "; " "; dquote; globalPadding;
     "DBG"; "INF"; "WRN"; "ERR"; "FTL"; "!!!"; "<"; ":"; "> ";
     "<UNKNOWN CALLER> "].

(** The byte [c] is in no escape sequence that [Write] appends in the mode
    [mode]. *)
Definition notInCodes (mode : ansi.EscapeMode) (c : ascii) : Prop :=
  ∀ ec, countByte c (writtenFor mode (ansi.VCode ec)) = 0.

(** The byte [c] is in none of the texts that [HandleRecord] takes from
    the record: the formatted time, the message, the relative path and the
    line of the caller, and the keys and values of the attributes. *)
Definition recordFree (goSyntaxError : Err → string) (goSyntax : Any → string)
    (errorText : Err → string) (itoa : Z → string) (formatTime : Time → string)
    (filepath_Rel : string → option string) (view : Any → AttrValue)
    (c : ascii) (record : Record_) : Prop :=
  countByte c (formatTime (Time_ record)) = 0 ∧
  countByte c (Message record) = 0 ∧
  (∀ caller path, Caller record = Some caller →
     filepath_Rel (File caller) = Some path →
     countByte c path = 0 ∧ countByte c (itoa (Line caller)) = 0) ∧
  attrsFree goSyntaxError goSyntax errorText c (viewAttrs view (Attributes record)).

(** A rendering of values for the examples: a string as it is, and a
    question mark for anything else. *)
Definition plainSyntax (v : Any) : string :=
  match v with AString s => s | _ => "?" end.
Definition plainError (e : Err) : string :=
  match e with ErrNew msg => msg | _ => "error" end.

(** Two attributes, the second with a nested slice of two. *)
Definition sampleAttrs : AttrList :=
  AttrCons "user" (VOther (AString "ann"))
    (AttrCons "http"
       (VAttrs (AttrCons "code" (VOther (AInt 200))
                  (AttrCons "cause" (VError (ErrNew "timeout")) AttrNil)))
       AttrNil).

(** A writer that is no file and accepts everything, a handler on it for
    the levels from [LevelInfo] up, and a record with two attributes. *)
Definition bufferWriter : Writer := mkWriter false false (λ _, None) (λ _, None).
Definition samplePretty : PrettyHandler := NewPrettyHandler bufferWriter LevelInfo.
Definition sampleRecord : Record_ :=
  mkRecord 0%Z LevelWarn "disk almost full" (Some mainFrame)
    (argsToAttrs [AString "free"; AInt 3; AString "path"; AString "/var"]).

(** * The JSON handler *)

Inductive JsonHandlerMessageType : Type :=
| JsonHandlerMessageType_LoggerCreated
| JsonHandlerMessageType_LoggerClosed
| JsonHandlerMessageType_Record.

Record JsonHandlerCaller : Type := mkJsonHandlerCaller {
  caller_File : string;
  caller_Line : Z
}.

Record JsonHandlerLogger : Type := mkJsonHandlerLogger {
  logger_Id : string;
  logger_Parent : option string;
  logger_Children : list string;
  logger_Root : string
}.

Record JsonHandlerLoggerCreated : Type := mkJsonHandlerLoggerCreated {
  created_Time : Time;
  created_Caller : JsonHandlerCaller;
  created_Logger : JsonHandlerLogger
}.

Record JsonHandlerLoggerClosed : Type := mkJsonHandlerLoggerClosed {
  closed_Time : Time;
  closed_Caller : JsonHandlerCaller;
  closed_Logger : JsonHandlerLogger
}.

Record JsonHandlerRecord : Type := mkJsonHandlerRecord {
  record_Time : Time;
  record_Level : string;
  record_Message : string;
  record_Error : option string;
  record_Caller : JsonHandlerCaller;
  record_Logger : JsonHandlerLogger
}.

Record JsonHandlerMessage (T : Type) : Type := mkJsonHandlerMessage {
  message_Type : JsonHandlerMessageType;
  message_Data : T
}.
Arguments mkJsonHandlerMessage {T} _ _.
Arguments message_Type {T} _.
Arguments message_Data {T} _.

Record JsonHandler : Type := mkJsonHandler {
  json_writer : Writer;
  json_level : Level
}.

Definition NewJsonHandler (writer : Writer) (level : Level) : JsonHandler :=
  mkJsonHandler writer level.

Section Json.

(** [uuid.UUID.String()], and [json.Marshal] on the three messages: the
    bytes and the error it returns. *)
Variable uuid_String : UUID → string.
Variable marshalCreated :
  JsonHandlerMessage JsonHandlerLoggerCreated → string * option Err.
Variable marshalClosed :
  JsonHandlerMessage JsonHandlerLoggerClosed → string * option Err.
Variable marshalRecord :
  JsonHandlerMessage JsonHandlerRecord → string * option Err.

(** Reading through a [*runtime.Frame]. *)
Definition derefFrame (caller : option Frame) : M Frame :=
  match caller with
  | Some frame => mret frame
  | None => panic PanicNilDeref
  end.

(** [for i, c := range logger.children], with the identifiers collected so
    far. *)
Fixpoint rangeChildren (cs : list addr) (ids : list string) : M (list string) :=
  match cs with
  | [] => mret ids
  | c :: cs' =>
      lc ← deref c;
      rangeChildren cs' (ids ++ [uuid_String (id_ lc)])
  end.

(** The lines that fill the [Logger] field of a message; the three
    operations have them alike. *)
Definition describeLogger (logger : addr) : M JsonHandlerLogger :=
  lg ← deref logger;
  let Id := uuid_String (id_ lg) in
  r ← RootLogger logger;
  lr ← deref r;
  let Root := uuid_String (id_ lr) in
  Parent ← match parent lg with
           | Some p => lp ← deref p; mret (Some (uuid_String (id_ lp)))
           | None => mret None
           end;
  Children ← rangeChildren (children lg) [];
  mret (mkJsonHandlerLogger Id Parent Children Root).

(** The operations of the handler return what the Go methods return and
    the data handed to [writer.Write], in order. *)
Definition JsonHandler_OnLoggerCreated (handler : JsonHandler) (logger : addr)
    (timestamp : Time) (caller : option Frame) : M (list string) :=
  frame ← derefFrame caller;
  let Caller := mkJsonHandlerCaller (File frame) (Line frame) in
  Logger ← describeLogger logger;
  let loggerCreated :=
    mkJsonHandlerMessage JsonHandlerMessageType_LoggerCreated
      (mkJsonHandlerLoggerCreated timestamp Caller Logger) in
  let '(data, err) := marshalCreated loggerCreated in
  match err with
  | Some e => panic (PanicError e)
  | None => mret [data +:+ nl]
  end.

Definition JsonHandler_OnLoggerClosed (handler : JsonHandler) (logger : addr)
    (timestamp : Time) (caller : option Frame) : M (option Err * list string) :=
  frame ← derefFrame caller;
  let Caller := mkJsonHandlerCaller (File frame) (Line frame) in
  Logger ← describeLogger logger;
  let loggerClosed :=
    mkJsonHandlerMessage JsonHandlerMessageType_LoggerClosed
      (mkJsonHandlerLoggerClosed timestamp Caller Logger) in
  let '(data, err) := marshalClosed loggerClosed in
  match err with
  | Some e => mret (Some e, [])
  | None =>
      let _ := writer_Write (json_writer handler) (data +:+ nl) in
      match err with
      | Some e => mret (Some e, [data +:+ nl])
      | None => mret (None, [data +:+ nl])
      end
  end.

Definition JsonHandler_HandleRecord (handler : JsonHandler) (logger : addr)
    (record : Record_) : M (option Err * list string) :=
  if (Level_value (Level_ record) <? Level_value (json_level handler))%Z
  then mret (None, [])
  else
    let Level :=
      match Level_ record with
      | LevelDebug => "debug"
      | LevelInfo => "info"
      | LevelWarn => "warn"
      | LevelError => "error"
      | LevelFatal => "fatal"
      | LevelPanic => "panic"
      end in
    frame ← derefFrame (Caller record);
    let Caller := mkJsonHandlerCaller (File frame) (Line frame) in
    Logger ← describeLogger logger;
    let message :=
      mkJsonHandlerMessage JsonHandlerMessageType_Record
        (mkJsonHandlerRecord (Time_ record) Level (Message record) None
           Caller Logger) in
    let '(data, err) := marshalRecord message in
    match err with
    | Some e => mret (Some e, [])
    | None =>
        let _ := writer_Write (json_writer handler) (data +:+ nl) in
        match err with
        | Some e => mret (Some e, [data +:+ nl])
        | None => mret (None, [data +:+ nl])
        end
    end.

End Json.

(** What the handler says of the logger at [a] in the store [h]: its
    identifier, the identifier of its parent, those of its children, in
    order, and the identifier of the logger at [r]. *)
Definition describes (uuid_String : UUID → string) (h : list Logger) (a r : addr)
    (d : JsonHandlerLogger) : Prop :=
  ∃ lg lr,
    h !! a = Some lg ∧ h !! r = Some lr ∧
    logger_Id d = uuid_String (id_ lg) ∧
    logger_Root d = uuid_String (id_ lr) ∧
    logger_Parent d = (p ← parent lg; lp ← h !! p; Some (uuid_String (id_ lp))) ∧
    Forall2 (λ c s, ∃ lc, h !! c = Some lc ∧ s = uuid_String (id_ lc))
      (children lg) (logger_Children d).

(** A JSON handler on the buffer for the levels from [LevelInfo] up, an
    identifier printed as one digit, an encoder that accepts everything,
    and a record that has no caller. *)
Definition sampleJson : JsonHandler := NewJsonHandler bufferWriter LevelInfo.
Definition digitId (u : UUID) : string :=
  String (ascii_of_nat (48 + Z.to_nat u)) "".
Definition emptyObject {T} (m : JsonHandlerMessage T) : string * option Err :=
  ("{}", None).
Definition orphanRecord : Record_ :=
  mkRecord 0%Z LevelWarn "disk almost full" None [].

(** * The callers that [Close] reports *)

(** From [w] to [w'] the links stay those of [h0], only loggers at the
    addresses in [W] are written, and the calls added to the trace all
    satisfy [P]. *)
Definition emitted (h0 : list Logger) (P : Call → Prop) (W : addr → Prop)
    (w w' : World) : Prop :=
  links (heap w') = links h0 ∧
  (∀ n, ¬ W n → heap w' !! n = heap w !! n) ∧
  ∃ ext, trace w' = trace w ++ ext ∧ Forall P ext.

(** A computation that, run on a store with the links of [h0], only makes
    calls that satisfy [P], only writes loggers at the addresses in [W],
    leaves the links, and returns a value that satisfies [Q] when it
    returns. *)
Definition emits (h0 : list Logger) (P : Call → Prop) (W : addr → Prop)
    {A} (Q : A → Prop) (m : M A) : Prop :=
  ∀ w, links (heap w) = links h0 →
    match m w with
    | Done a w' => Q a ∧ emitted h0 P W w w'
    | Panics _ w' | Exits _ w' => emitted h0 P W w w'
    | Diverges => True
    end.

(** The loggers at and below [l]. *)
Definition below (h : list Logger) (l n : addr) : Prop :=
  ∃ j, levelsBelow h l n j.

(** A closing call for a logger [j] levels below [l], with the caller that
    the resolver returns [k + j] levels deep in the recursion of a [Close]
    called from [stk]. *)
Definition closedAt (resolve : list Frame → Try (option Frame * option Err))
    (stk : list Frame) (h0 : list Logger) (l : addr) (k : nat) (c : Call) : Prop :=
  ∃ hid n t caller res j err,
    c = CallClosed hid n t caller res ∧ levelsBelow h0 l n j ∧
    resolve (closeStack (k + j) stk) = Value_ (caller, err).

(** A chain of eight loggers, 0 -> 1 -> ... -> 7, with one handler. *)
Definition deepWorld : World :=
  runFrom emptyWorld
    (OpNewLogger :: OpAddHandler 0 (quietHandler 1)
     :: ((λ l, OpNewChildLogger [mainFrame] l) <$> seq 0 7)).

(** The logger and the caller of a closing call. *)
Definition closedWith (c : Call) : option (addr * option Frame) :=
  match c with
  | CallClosed _ l _ caller _ => Some (l, caller)
  | _ => None
  end.

(** That chain after [Close] on its root, called from [main]. *)
Definition closedDeepWorld : World :=
  match resWorld (Close getCaller clock0 [mainFrame] 0 deepWorld) with
  | Some w => w
  | None => deepWorld
  end.

(** * A closing call that panics *)

(** What the JSON handler of the repository answers to [Close], as a value
    of [Handler]. [OnLoggerClosed] reads [caller.File] before anything
    else, so it panics when [Close] hands it no caller; with a caller, on a
    tree, and with an encoder that accepts the message, it returns nil
    ([JsonHandler_closing_call] relates it to [JsonHandler_OnLoggerClosed]).
    [HandleRecord] returns nil under the same conditions; no record is
    logged on the trees below. *)
Definition jsonHandler (n : nat) : Handler :=
  mkHandler n
    (λ _ _ _ caller,
       match caller with
       | Some _ => Value_ None
       | None => Panic_ PanicNilDeref
       end)
    (λ _ _ _, None).




(** * Lemmas and theorems *)

(** ** Attribute parsing *)

Lemma nextAttrFromArgs_shorter args attr remaining :
  nextAttrFromArgs args = Some (attr, remaining) →
  length remaining < length args.
Proof.
  destruct args as [|[] [|? ?]]; simpl; intros; simplify_eq; simpl; lia.
Qed.

Lemma nextAttrFromArgs_cons a rest :
  ∃ attr remaining, nextAttrFromArgs (a :: rest) = Some (attr, remaining).
Proof. destruct a, rest; simpl; eauto. Qed.

(** What [nextAttrFromArgs] consumes is a prefix of one or two arguments. *)
Lemma nextAttrFromArgs_prefix args attr remaining :
  nextAttrFromArgs args = Some (attr, remaining) →
  ∃ u, args = u ++ remaining ∧ (length u = 1 ∨ length u = 2).
Proof.
  destruct args as [|a [|v rest]]; [done|..].
  - intros H. exists [a]. destruct a; simpl in *; simplify_eq; auto.
  - intros H. destruct a; simpl in *; simplify_eq;
      first [ by eexists [_; _]; split; [reflexivity | auto]
            | by eexists [_]; split; [reflexivity | auto] ].
Qed.

Lemma argsToAttrs_loop_step a rest attrs attr remaining :
  nextAttrFromArgs (a :: rest) = Some (attr, remaining) →
  argsToAttrs_loop (a :: rest) attrs = argsToAttrs_loop remaining (attrs ++ [attr]).
Proof.
  intros H. simp argsToAttrs_loop.
  generalize (inspect (nextAttrFromArgs (a :: rest))).
  intros [r Hr].
  assert (r = Some (attr, remaining)) as -> by congruence.
  reflexivity.
Qed.

(** The accumulator of the loop only grows at its end. *)
Lemma argsToAttrs_loop_acc remaining : ∀ attrs,
  argsToAttrs_loop remaining attrs = attrs ++ argsToAttrs_loop remaining [].
Proof.
  remember (length remaining) as n eqn:Hn. revert remaining Hn.
  induction n as [n IH] using lt_wf_ind. intros remaining -> attrs.
  destruct remaining as [|a rest].
  - simp argsToAttrs_loop. by rewrite app_nil_r.
  - destruct (nextAttrFromArgs_cons a rest) as (attr & rem' & E).
    rewrite !(argsToAttrs_loop_step _ _ _ _ _ E).
    pose proof (nextAttrFromArgs_shorter _ _ _ E) as Hlt.
    rewrite (IH _ Hlt _ eq_refl (attrs ++ [attr])).
    rewrite (IH _ Hlt _ eq_refl ([] ++ [attr])).
    by rewrite <- app_assoc.
Qed.

Lemma argsToAttrs_nil : argsToAttrs [] = [].
Proof. reflexivity. Qed.

Lemma argsToAttrs_step a rest attr remaining :
  nextAttrFromArgs (a :: rest) = Some (attr, remaining) →
  argsToAttrs (a :: rest) = attr :: argsToAttrs remaining.
Proof.
  intros E. unfold argsToAttrs.
  rewrite (argsToAttrs_loop_step _ _ _ _ _ E), argsToAttrs_loop_acc.
  reflexivity.
Qed.

(** C4. Attribute parsing consumes the arguments pairwise: a string is a
    key and takes the next argument as its value; a string with nothing
    after it is kept as the value under the key "!BADKEY"; an argument that
    is not a string is kept as the value under "!BADKEY" and is consumed
    alone. The three inputs of the specification give the three outputs it
    lists. *)
Theorem C4_attribute_parsing :
  (∀ k v rest,
     nextAttrFromArgs (AString k :: v :: rest) = Some (mkAttribute k v, rest) ∧
     argsToAttrs (AString k :: v :: rest) = mkAttribute k v :: argsToAttrs rest) ∧
  (∀ k,
     nextAttrFromArgs [AString k] = Some (mkAttribute "!BADKEY" (AString k), []) ∧
     argsToAttrs [AString k] = [mkAttribute "!BADKEY" (AString k)]) ∧
  (∀ x rest,
     if isString x then True
     else nextAttrFromArgs (x :: rest) = Some (mkAttribute "!BADKEY" x, rest) ∧
          argsToAttrs (x :: rest) = mkAttribute "!BADKEY" x :: argsToAttrs rest) ∧
  argsToAttrs [AString "key1"; AInt 1%Z; AString "key2"; AInt 2%Z]
    = [mkAttribute "key1" (AInt 1%Z); mkAttribute "key2" (AInt 2%Z)] ∧
  argsToAttrs [AString "lonekey"] = [mkAttribute "!BADKEY" (AString "lonekey")] ∧
  argsToAttrs [AInt 42%Z; AString "key"; AString "v"]
    = [mkAttribute "!BADKEY" (AInt 42%Z); mkAttribute "key" (AString "v")].
Proof.
  split_and!; try reflexivity.
  - intros k v rest. split; [done | by apply argsToAttrs_step].
  - intros k. split; [done | by apply (argsToAttrs_step _ _ _ [])].
  - intros x rest.
    destruct x; simpl; try done; (split; [done | by apply argsToAttrs_step]).
Qed.

Lemma Parses_cons_inv a rest units attrs attr remaining :
  nextAttrFromArgs (a :: rest) = Some (attr, remaining) →
  Parses (a :: rest) units attrs →
  ∃ u units0 attrs0,
    units = u :: units0 ∧ attrs = attr :: attrs0 ∧
    a :: rest = u ++ remaining ∧ Parses remaining units0 attrs0.
Proof.
  intros E HP. remember (a :: rest) as args eqn:Hargs.
  destruct HP as [|u r attr0 units0 attrs0 Hne HE HP]; [done|].
  rewrite HE in E. simplify_eq. by exists u, units0, attrs0.
Qed.

(** C9. On every argument list the parser returns (it is a total function,
    its loop decreasing the number of remaining arguments), the pieces it
    consumes, of one or two arguments each, make up the whole list in
    order, there is one attribute per piece, in the same order, and no
    other cut of the list and no other attribute list is a run of the
    parser: the result is determined by the arguments. *)
Theorem C9_argsToAttrs_consumes_all (args : list Any) :
  ∃ units,
    concat units = args ∧
    Parses args units (argsToAttrs args) ∧
    length (argsToAttrs args) = length units ∧
    Forall (λ u, length u = 1 ∨ length u = 2)%nat units ∧
    ∀ units' attrs', Parses args units' attrs' →
      units' = units ∧ attrs' = argsToAttrs args.
Proof.
  remember (length args) as n eqn:Hn. revert args Hn.
  induction n as [n IH] using lt_wf_ind. intros args ->.
  destruct args as [|a rest].
  - exists []. split_and!; try by constructor.
    intros units' attrs' HP. remember [] as args eqn:Hargs.
    destruct HP as [|u r ? ? ? Hne]; [done|]. by destruct u.
  - destruct (nextAttrFromArgs_cons a rest) as (attr & rem' & E).
    pose proof (nextAttrFromArgs_shorter _ _ _ E) as Hlt.
    destruct (nextAttrFromArgs_prefix _ _ _ E) as (u & Hu & Hlen).
    destruct (IH _ Hlt rem' eq_refl) as (units & Hcat & Hp & Hl & Hall & Huniq).
    rewrite (argsToAttrs_step _ _ _ _ E).
    exists (u :: units). split_and!.
    + simpl. by rewrite Hcat.
    + rewrite Hu. rewrite Hu in E.
      constructor; [by destruct u; simpl in *; [lia|] | done | done].
    + simpl. by rewrite Hl.
    + by constructor.
    + intros units' attrs' HP.
      destruct (Parses_cons_inv _ _ _ _ _ _ E HP)
        as (u' & units0 & attrs0 & -> & -> & Hu' & HP0).
      rewrite Hu in Hu'. apply app_inv_tail in Hu'. subst u'.
      by destruct (Huniq _ _ HP0) as [-> ->].
Qed.

(** ** Stores that differ in states only *)

Ltac munfold :=
  unfold mbind, M_bind, mret, M_ret, deref, update, panic, os_Exit, diverge,
    liftTry in *.

Lemma eraseState_fields l l' :
  eraseState l' = eraseState l →
  id_ l' = id_ l ∧ parent l' = parent l ∧ children l' = children l ∧
  panicOnError l' = panicOnError l ∧ handlers l' = handlers l.
Proof. destruct l, l'; unfold eraseState, set_state; simpl; intros; by simplify_eq. Qed.

Lemma sameTree_length (h h' : list Logger) :
  eraseState <$> h' = eraseState <$> h → length h' = length h.
Proof. intros H. apply (f_equal length) in H. by rewrite !length_fmap in H. Qed.

Lemma sameTree_lookup (h h' : list Logger) i lg :
  eraseState <$> h' = eraseState <$> h →
  h !! i = Some lg →
  ∃ lg', h' !! i = Some lg' ∧ eraseState lg' = eraseState lg.
Proof.
  intros H Hi. apply (f_equal (.!! i)) in H.
  rewrite !list_lookup_fmap, Hi in H. simpl in H.
  destruct (h' !! i) as [lg'|]; simpl in H; [|done].
  exists lg'. split; [done | congruence].
Qed.



Lemma closeAll_length S h : length (closeAll S h) = length h.
Proof. unfold closeAll. by rewrite length_imap. Qed.








(** ** [RootLogger] and the accessors that go through it *)

Lemma RootLogger_loop_total (w : World) :
  wf (heap w) → ∀ a, a < length (heap w) →
  ∃ r lr, heap w !! r = Some lr ∧ parent lr = None ∧ r ≤ a ∧
          ∀ fuel, a < fuel → RootLogger_loop fuel a w = Done r w.
Proof.
  intros Hwf a. induction a as [a IH] using lt_wf_ind. intros Ha.
  destruct (lookup_lt_is_Some_2 _ _ Ha) as [lg Hlg].
  destruct (parent lg) as [p|] eqn:Hp.
  - destruct (Hwf a lg Hlg) as (Hpar & _).
    destruct (Hpar p Hp) as (Hlt & _).
    destruct (IH p Hlt ltac:(lia)) as (r & lr & Hr & Hpr & Hle & Hrun).
    exists r, lr. split_and!; [done|done|lia|].
    intros [|fuel] Hf; [lia|]. simpl. munfold. rewrite Hlg, Hp.
    apply Hrun. lia.
  - exists a, lg. split_and!; [done|done|lia|].
    intros [|fuel] Hf; [lia|]. simpl. munfold. by rewrite Hlg, Hp.
Qed.

Lemma RootLogger_total (w : World) a :
  wf (heap w) → a < length (heap w) →
  ∃ r lr, RootLogger a w = Done r w ∧ heap w !! r = Some lr ∧ parent lr = None.
Proof.
  intros Hwf Ha.
  destruct (RootLogger_loop_total w Hwf a Ha) as (r & lr & Hr & Hp & _ & Hrun).
  exists r, lr. split_and!; [|done|done]. apply Hrun. lia.
Qed.

(** A child has the root of its parent. *)
Lemma RootLogger_child (w : World) c lc a :
  wf (heap w) → heap w !! c = Some lc → parent lc = Some a →
  RootLogger c w = RootLogger a w.
Proof.
  intros Hwf Hc Hp.
  destruct (Hwf c lc Hc) as (Hpar & _).
  destruct (Hpar a Hp) as (Hlt & _).
  pose proof (lookup_lt_Some _ _ _ Hc) as Hclt.
  destruct (RootLogger_loop_total w Hwf a ltac:(lia)) as (r & lr & _ & _ & _ & Hrun).
  unfold RootLogger. rewrite (Hrun (S (length (heap w)))) by lia.
  simpl. munfold. rewrite Hc, Hp. apply Hrun. lia.
Qed.

Lemma RootLogger_loop_sameTree fuel : ∀ a (w w' : World) r,
  eraseState <$> heap w' = eraseState <$> heap w →
  RootLogger_loop fuel a w = Done r w →
  RootLogger_loop fuel a w' = Done r w'.
Proof.
  induction fuel as [|fuel IH]; intros a w w' r Hs; simpl; [done|].
  munfold. destruct (heap w !! a) as [lg|] eqn:Hlg; [|done].
  destruct (sameTree_lookup _ _ _ _ Hs Hlg) as (lg' & Hlg' & He).
  destruct (eraseState_fields _ _ He) as (_ & Hp & _).
  rewrite Hlg', Hp. destruct (parent lg) as [p|]; [by apply IH|].
  intros; by simplify_eq.
Qed.

Lemma RootLogger_sameTree a (w w' : World) r :
  eraseState <$> heap w' = eraseState <$> heap w →
  RootLogger a w = Done r w → RootLogger a w' = Done r w'.
Proof.
  intros Hs. unfold RootLogger. rewrite (sameTree_length _ _ Hs).
  by apply RootLogger_loop_sameTree.
Qed.

Lemma RootLogger_loop_pure fuel : ∀ a (w w' : World) r,
  RootLogger_loop fuel a w = Done r w' → w' = w.
Proof.
  induction fuel as [|fuel IH]; intros a w w' r; simpl; [done|].
  munfold. destruct (heap w !! a) as [lg|]; [|done].
  destruct (parent lg) as [p|]; [by apply IH|]. intros; by simplify_eq.
Qed.

Lemma Handlers_root (w : World) a r lr :
  RootLogger a w = Done r w → heap w !! r = Some lr →
  Handlers a w = Done (handlers lr) w.
Proof. intros Hr Hl. unfold Handlers. munfold. by rewrite Hr, Hl. Qed.

Lemma PanicOnError_root (w : World) a r lr :
  RootLogger a w = Done r w → heap w !! r = Some lr →
  PanicOnError a w = Done (panicOnError lr) w.
Proof. intros Hr Hl. unfold PanicOnError. munfold. by rewrite Hr, Hl. Qed.

Lemma Handlers_inv (w : World) a hs w0 :
  Handlers a w = Done hs w0 →
  w0 = w ∧ ∃ r lr, RootLogger a w = Done r w ∧ heap w !! r = Some lr ∧ hs = handlers lr.
Proof.
  unfold Handlers. munfold.
  destruct (RootLogger a w) as [r w1| | |] eqn:Hr; try done.
  pose proof (RootLogger_loop_pure _ _ _ _ _ Hr) as ->.
  destruct (heap w !! r) as [lr|] eqn:Hl; [|done].
  intros; simplify_eq. eauto 10.
Qed.

Lemma Handlers_sameTree a (w w' : World) hs :
  eraseState <$> heap w' = eraseState <$> heap w →
  Handlers a w = Done hs w → Handlers a w' = Done hs w'.
Proof.
  intros Hs H. destruct (Handlers_inv _ _ _ _ H) as (_ & r & lr & Hr & Hl & ->).
  destruct (sameTree_lookup _ _ _ _ Hs Hl) as (lr' & Hl' & He).
  destruct (eraseState_fields _ _ He) as (_ & _ & _ & _ & <-).
  apply (Handlers_root w' a r lr'); [|done]. by eapply RootLogger_sameTree.
Qed.


(** ** The three dispatch loops *)

Lemma dispatched_nil mk t0 : dispatched mk [] t0 [].
Proof. split; [done|]. intros i h Hi. by rewrite lookup_nil in Hi. Qed.

Lemma dispatched_cons mk h hs t0 calls :
  dispatched mk hs (t0 ++ [mk h t0]) calls →
  dispatched mk (h :: hs) t0 (mk h t0 :: calls).
Proof.
  intros [Hlen Hcalls]. split; [simpl; by rewrite Hlen|].
  intros [|i] h' Hi; simpl in *.
  - simplify_eq. by rewrite app_nil_r.
  - rewrite (Hcalls i h' Hi). by rewrite <- app_assoc.
Qed.

Lemma dispatched_keys mk key hs t0 calls :
  (∀ h t, callKey (mk h t) = key h) →
  dispatched mk hs t0 calls → callKey <$> calls = key <$> hs.
Proof.
  intros Hk [Hlen Hcalls]. apply list_eq. intros i.
  rewrite !list_lookup_fmap.
  destruct (hs !! i) as [h|] eqn:Hi.
  - rewrite (Hcalls i h Hi). simpl. by rewrite Hk.
  - apply lookup_ge_None in Hi. rewrite <- Hlen in Hi.
    apply lookup_ge_None in Hi. by rewrite Hi.
Qed.

Lemma set_trace_set_trace t t' w : set_trace t (set_trace t' w) = set_trace t w.
Proof. done. Qed.

Lemma set_trace_same w : set_trace (trace w) w = w.
Proof. by destruct w. Qed.





Lemma rangeHandleRecord_spec hs a record : ∀ errs w,
  ∃ calls,
    rangeHandleRecord hs a record errs w
      = Done (errs ++ (callResult <$> calls)) (set_trace (trace w ++ calls) w) ∧
    dispatched (mkRecorded a record) hs (trace w) calls.
Proof.
  induction hs as [|h hs IH]; intros errs w; simpl.
  - exists []. split; [|apply dispatched_nil]. munfold.
    by rewrite !app_nil_r, set_trace_same.
  - munfold. unfold call_HandleRecord at 1.
    set (c := CallRecord _ _ _ _).
    destruct (IH (errs ++ [callResult c]) (set_trace (trace w ++ [c]) w))
      as (calls & Hrun & Hd).
    exists (c :: calls). split.
    + simpl in Hrun. rewrite Hrun. simpl.
      by rewrite <- !app_assoc, set_trace_set_trace.
    + by apply (dispatched_cons (mkRecorded a record)).
Qed.

Lemma rangeOnLoggerCreated_spec hs a now caller : ∀ w,
  ∃ calls,
    rangeOnLoggerCreated hs a now caller w
      = Done () (set_trace (trace w ++ calls) w) ∧
    dispatched (mkCreated a now caller) hs (trace w) calls.
Proof.
  induction hs as [|h hs IH]; intros w; simpl.
  - exists []. split; [|apply dispatched_nil]. munfold.
    by rewrite !app_nil_r, set_trace_same.
  - munfold. unfold call_OnLoggerCreated at 1.
    set (c := CallCreated _ _ _ _).
    destruct (IH (set_trace (trace w ++ [c]) w)) as (calls & Hrun & Hd).
    exists (c :: calls). split.
    + simpl in Hrun. rewrite Hrun. simpl.
      by rewrite <- !app_assoc, set_trace_set_trace.
    + by apply (dispatched_cons (mkCreated a now caller)).
Qed.

(** [errors.Join] keeps exactly the non-nil errors, in order, and is nil
    when there is none. *)
Lemma nonNil_cons_Some e errs : nonNil (Some e :: errs) = e :: nonNil errs.
Proof. done. Qed.



Lemma nonNil_Some es : nonNil (Some <$> es) = es.
Proof. induction es as [|e es IH]; [done|]. by rewrite fmap_cons, nonNil_cons_Some, IH. Qed.




(** ** Descendants *)










Lemma closeOrder_preOrder_length fuel : ∀ h a,
  length (closeOrder fuel h a) = length (preOrder fuel h a).
Proof.
  induction fuel as [|fuel IH]; intros h a; simpl; [done|].
  destruct (h !! a) as [lg|]; [|done]. destruct (state lg); [|done].
  rewrite length_app. simpl.
  assert (length (children lg ≫= closeOrder fuel h)
          = length (children lg ≫= preOrder fuel h)) as ->; [|lia].
  induction (children lg) as [|c cs IHc]; [done|].
  by rewrite !bind_cons, !length_app, IH, IHc.
Qed.

(** ** [Close] *)

Section CloseProofs.

Variable resolve : list Frame → Try (option Frame * option Err).
Variable timeNow : nat → Time.

Abbreviation Close_fuel := (Close_fuel resolve timeNow).
Abbreviation Close := (Close resolve timeNow).


Lemma levelsBelow_prepend h l lg c n j :
  h !! l = Some lg → c ∈ children lg →
  levelsBelow h c n j → levelsBelow h l n (S j).
Proof.
  intros Hl Hc H. induction H as [|l' lg' c' j _ IH Hl' Hc'].
  - by apply (levelsBelow_S h l l lg c 0); [constructor|..].
  - by apply (levelsBelow_S h l l' lg' c' (S j)).
Qed.







Lemma Close_fuel_closed fuel stk a w lg :
  heap w !! a = Some lg → state lg = LoggerState_Closed →
  Close_fuel (S fuel) stk a w = Done None w.
Proof. intros Ha Hs. simpl. munfold. by rewrite Ha, Hs. Qed.

(** An open logger whose resolver gives up: [Close] returns the error
    right after the children. *)
Lemma Close_fuel_abort fuel stk a w lg errs w1 caller err :
  heap w !! a = Some lg → state lg = LoggerState_Open →
  closeChildren (Close_fuel fuel (frame_Close_rec :: stk)) (children lg) [] w
    = Done errs w1 →
  resolve (closeStack 0 stk) = Value_ (caller, err) →
  otherError err = true →
  Close_fuel (S fuel) stk a w = Done err w1.
Proof.
  intros Ha Hs Hch Hr Ho. simpl. munfold. rewrite Ha, Hs.
  fold frame_Close_rec. rewrite Hch.
  unfold callGetCaller. munfold. fold frame_Close_get.
  unfold closeStack in Hr. simpl in Hr. rewrite Hr. by rewrite Ho.
Qed.






End CloseProofs.

(** ** The order of closing *)


















(** ** Checking a concrete store *)

Lemma wfb_wf h : wfb h = true → wf h.
Proof.
  unfold wfb. rewrite forallb_forall. intros H a lg Ha.
  specialize (H a). rewrite Ha in H.
  assert (Hin : In a (seq 0 (length h))).
  { apply in_seq. pose proof (lookup_lt_Some _ _ _ Ha). lia. }
  specialize (H Hin). unfold wfNodeb in H.
  apply andb_prop in H as [H Hnd]. apply andb_prop in H as [Hp Hc].
  split_and!.
  - intros p Hpp. rewrite Hpp in Hp.
    apply andb_prop in Hp as [Hlt Hlp]. apply bool_decide_eq_true in Hlt.
    split; [done|]. destruct (h !! p) as [lp|]; [|done].
    apply bool_decide_eq_true in Hlp. by exists lp.
  - intros c Hcc. rewrite forallb_forall in Hc.
    specialize (Hc c ltac:(by apply list_elem_of_In)).
    apply andb_prop in Hc as [Hlt Hlc]. apply bool_decide_eq_true in Hlt.
    split; [done|]. destruct (h !! c) as [lc|]; [|done].
    apply bool_decide_eq_true in Hlc. by exists lc.
  - by apply bool_decide_eq_true in Hnd.
Qed.

(** ** [getCaller] never gives up *)

Lemma getCaller_loop_resolves thisModule frames :
  frames ≠ [] → Forall wellNamed frames →
  resolves (getCaller_loop thisModule frames).
Proof.
  induction frames as [|frame rest IH]; [done|]. intros _ Hall.
  apply Forall_cons in Hall as [[m Hm] Hall]. simpl. rewrite Hm.
  destruct (bool_decide (m ≠ thisModule)); [by eexists _, _|].
  destruct rest as [|f rest]; [by eexists _, _|by apply IH].
Qed.

(** On a stack whose frames all have a module path, [getCaller] returns a
    frame, or [ErrNoCaller]: it does not panic and returns no other error. *)
Lemma getCaller_resolves stack :
  Forall wellNamed stack → resolves (getCaller stack).
Proof.
  intros Hall. unfold getCaller.
  assert (Hpcs : Forall wellNamed (take 8 stack)) by by apply Forall_take.
  destruct (take 8 stack) as [|firstFrame [|f rest]]; [by eexists _, _..|].
  apply Forall_cons in Hpcs as [[m Hm] Hrest]. rewrite Hm.
  by apply getCaller_loop_resolves.
Qed.


(** ** The closing cascade *)






(** Every error [getCaller] returns is [ErrNoCaller], with no frame. *)
Lemma getCaller_loop_error thisModule frames caller e :
  getCaller_loop thisModule frames = Value_ (caller, Some e) →
  caller = None ∧ e = ErrNoCaller.
Proof.
  induction frames as [|frame rest IH]; simpl.
  - done.
  - destruct (getModulePath (Function frame)); [|done].
    case_bool_decide; [intros; by simplify_eq|].
    destruct rest; [intros; by simplify_eq|done].
Qed.

Lemma getCaller_error stack caller e :
  getCaller stack = Value_ (caller, Some e) → caller = None ∧ e = ErrNoCaller.
Proof.
  unfold getCaller.
  destruct (take 8 stack) as [|firstFrame [|f rest]]; [intros; by simplify_eq..|].
  destruct (getModulePath (Function firstFrame)); [|done].
  apply getCaller_loop_error.
Qed.

Lemma closeStack_length k stk : length (closeStack k stk) = 2 + k + length stk.
Proof. unfold closeStack. simpl. rewrite length_app, length_replicate. lia. Qed.

(** Computed: a closed logger hides what lies below it. 2 was created
    under 1 after 1 was closed; [Close] on the root does not reach it, and
    it stays open. *)
Example Close_stops_at_closed_logger :
  ∃ err w',
    parent <$> heap shieldWorld = [None; Some 0; Some 1] ∧
    state <$> heap shieldWorld
      = [LoggerState_Open; LoggerState_Closed; LoggerState_Open] ∧
    Close getCaller clock0 [mainFrame] 0 shieldWorld = Done err w' ∧
    state <$> heap w'
      = [LoggerState_Closed; LoggerState_Closed; LoggerState_Open] ∧
    closedTargets (drop (length (trace shieldWorld)) (trace w')) = [0].
Proof. eexists _, _. split_and!; vm_compute; reflexivity. Qed.

(** ** Dispatch *)

Section DispatchProofs.

Variable resolve : list Frame → Try (option Frame * option Err).
Variable timeNow : nat → Time.

(** [Log] when the resolver does not make it give up. *)
Lemma Log_dispatch stk a level message args w caller err hs :
  resolve (frame_getCaller :: frameAt ".(*Logger).Log" 208 :: stk)
    = Value_ (caller, err) →
  otherErrorIs err = false →
  Handlers a w = Done hs w →
  ∃ calls,
    Log resolve timeNow stk a level message args w
      = Done (errors_Join (callResult <$> calls))
          (set_trace (trace w ++ calls) (tick w)) ∧
    dispatched
      (mkRecorded a (mkRecord (timeNow (ticks w)) level message caller
                       (argsToAttrs args)))
      hs (trace w) calls.
Proof.
  intros Hr Ho Hh.
  set (record := mkRecord (timeNow (ticks w)) level message caller (argsToAttrs args)).
  destruct (rangeHandleRecord_spec hs a record [] (tick w)) as (calls & Hrun & Hd).
  exists calls. split; [|done].
  unfold Log, callGetCaller. munfold. rewrite Hr, Ho. unfold time_Now.
  assert (Hh' : Handlers a (tick w) = Done hs (tick w))
    by (by apply (Handlers_sameTree a w)).
  rewrite Hh'. fold record. by rewrite Hrun.
Qed.

(** [Log] when the resolver makes it give up: no handler is called. *)
Lemma Log_abort stk a level message args w caller err :
  resolve (frame_getCaller :: frameAt ".(*Logger).Log" 208 :: stk)
    = Value_ (caller, err) →
  otherErrorIs err = true →
  Log resolve timeNow stk a level message args w = Done err w.
Proof.
  intros Hr Ho. unfold Log, callGetCaller. munfold. by rewrite Hr, Ho.
Qed.

End DispatchProofs.


Lemma mainStack_wellNamed : Forall wellNamed [mainFrame].
Proof. repeat constructor. eexists. vm_compute. reflexivity. Qed.


(** The same calls, computed: the failing handler does not stop the quiet
    one, and only its error is in the result. *)
Example Log_two_handlers :
  ∃ w',
    Log getCaller clock0 [mainFrame] 2 LevelInfo "started" [AString "port"; AInt 80%Z]
        chainWorld2
      = Done (Some (ErrJoin [ErrNew "disk full"])) w' ∧
    callKey <$> drop (length (trace chainWorld2)) (trace w')
      = [KRecord 1 2; KRecord 2 2].
Proof. eexists. split; vm_compute; reflexivity. Qed.

(** ** The levelled calls *)

Lemma PanicOnError_sameTree a (w w' : World) b :
  eraseState <$> heap w' = eraseState <$> heap w →
  PanicOnError a w = Done b w → PanicOnError a w' = Done b w'.
Proof.
  intros Hs. unfold PanicOnError. munfold.
  destruct (RootLogger a w) as [r w1| | |] eqn:Hr; try done.
  pose proof (RootLogger_loop_pure _ _ _ _ _ Hr) as ->.
  rewrite (RootLogger_sameTree a w w' r Hs Hr).
  destruct (heap w !! r) as [lr|] eqn:Hl; [|done].
  destruct (sameTree_lookup _ _ _ _ Hs Hl) as (lr' & Hl' & He).
  destruct (eraseState_fields _ _ He) as (_ & _ & _ & Hp & _).
  rewrite Hl', Hp. intros; by simplify_eq.
Qed.

(** C5. [Debug], [Info], [Warn] and [Error] dispatch the record to the
    handlers of the root and look at the aggregate of their answers: with
    [panicOnError] unset they return it, nil or not; with [panicOnError]
    set they panic with it when it is not nil, and return nil when it is. *)
Theorem C5_leveled_calls_policy
    (resolve : list Frame → Try (option Frame * option Err))
    (timeNow : nat → Time) (m : LeveledMethod) (stk : list Frame) (a : addr)
    (w : World) (hs : list Handler) (flag : bool)
    (message : string) (args : list Any) :
  Handlers a w = Done hs w →
  PanicOnError a w = Done flag w →
  resolves (resolve (logStack (methodFrame m :: stk))) →
  ∃ calls caller,
    dispatched
      (mkRecorded a (mkRecord (timeNow (ticks w)) (levelOf m) message caller
                       (argsToAttrs args)))
      hs (trace w) calls ∧
    (flag = false →
       runLeveled resolve timeNow m stk a message args w
         = Done (errors_Join (callResult <$> calls))
             (set_trace (trace w ++ calls) (tick w))) ∧
    (flag = true →
       ∀ e, errors_Join (callResult <$> calls) = Some e →
         runLeveled resolve timeNow m stk a message args w
           = Panics (PanicError e) (set_trace (trace w ++ calls) (tick w))) ∧
    (errors_Join (callResult <$> calls) = None →
       runLeveled resolve timeNow m stk a message args w
         = Done None (set_trace (trace w ++ calls) (tick w))).
Proof.
  intros Hh Hp (caller & err & Hr & Ho).
  assert (Ho' : otherErrorIs err = false).
  { destruct err as [[]|]; simpl in *; done. }
  destruct (Log_dispatch resolve timeNow (methodFrame m :: stk) a (levelOf m)
              message args w caller err hs Hr Ho' Hh) as (calls & Hrun & Hd).
  exists calls, caller. split; [exact Hd|].
  set (w' := set_trace (trace w ++ calls) (tick w)) in *.
  assert (Hp' : PanicOnError a w' = Done flag w')
    by (by apply (PanicOnError_sameTree a w)).
  assert (Hlev : runLeveled resolve timeNow m stk a message args w
            = match errors_Join (callResult <$> calls) with
              | None => Done None w'
              | Some e => if flag then Panics (PanicError e) w'
                          else Done (Some e) w'
              end).
  { destruct m; simpl; unfold Debug, Info, Warn, Error, leveled; munfold;
      simpl in Hrun; rewrite Hrun;
      (destruct (errors_Join (callResult <$> calls)); [|done]);
      rewrite Hp'; by destruct flag. }
  rewrite Hlev. split_and!.
  - intros ->. by destruct (errors_Join (callResult <$> calls)).
  - intros -> e ->. done.
  - intros ->. done.
Qed.

(** [Debug] on the leaf of the chain whose root has a failing handler, with
    [panicOnError] unset. *)
Lemma C5_leveled_calls_policy_witness :
  ∃ calls caller,
    dispatched
      (mkRecorded 2 (mkRecord (clock0 (ticks chainWorld2)) (levelOf MDebug) "tick" caller
                       (argsToAttrs [])))
      twoHandlers (trace chainWorld2) calls ∧
    (false = false →
       runLeveled getCaller clock0 MDebug [mainFrame] 2 "tick" [] chainWorld2
         = Done (errors_Join (callResult <$> calls))
             (set_trace (trace chainWorld2 ++ calls) (tick chainWorld2))) ∧
    (false = true →
       ∀ e, errors_Join (callResult <$> calls) = Some e →
         runLeveled getCaller clock0 MDebug [mainFrame] 2 "tick" [] chainWorld2
           = Panics (PanicError e) (set_trace (trace chainWorld2 ++ calls) (tick chainWorld2))) ∧
    (errors_Join (callResult <$> calls) = None →
       runLeveled getCaller clock0 MDebug [mainFrame] 2 "tick" [] chainWorld2
         = Done None (set_trace (trace chainWorld2 ++ calls) (tick chainWorld2))).
Proof.
  apply (C5_leveled_calls_policy getCaller clock0 MDebug [mainFrame] 2
           chainWorld2 twoHandlers false "tick" []).
  - vm_compute. reflexivity.
  - vm_compute. reflexivity.
  - apply getCaller_resolves.
    do 3 (apply Forall_cons_2; [by eexists; vm_compute|]).
    apply mainStack_wellNamed.
Defined.

(** The two policies, computed on that tree: the error is returned, and
    after [SetPanicOnError(true)], called on the leaf, it is raised. *)
Example Warn_returns_or_panics :
  (∃ w', Warn getCaller clock0 [mainFrame] 2 "hot" [] chainWorld2
           = Done (Some (ErrJoin [ErrNew "disk full"])) w') ∧
  (∃ w', (SetPanicOnError 2 true;; Warn getCaller clock0 [mainFrame] 2 "hot" [])
           chainWorld2
           = Panics (PanicError (ErrJoin [ErrNew "disk full"])) w').
Proof. split; eexists; vm_compute; reflexivity. Qed.

(** ** [Log] and the state of loggers *)

Lemma sameTree_lookup_None (h h' : list Logger) i :
  eraseState <$> h' = eraseState <$> h → h !! i = None → h' !! i = None.
Proof.
  intros Hs Hi. apply lookup_ge_None. apply lookup_ge_None in Hi.
  by rewrite (sameTree_length _ _ Hs).
Qed.

Lemma RootLogger_loop_withHeap fuel : ∀ a (w : World) h',
  eraseState <$> h' = eraseState <$> heap w →
  RootLogger_loop fuel a (set_heap h' w) = withHeap h' (RootLogger_loop fuel a w).
Proof.
  induction fuel as [|fuel IH]; intros a w h' Hs; simpl; [done|].
  munfold. simpl.
  destruct (heap w !! a) as [lg|] eqn:Hlg.
  - destruct (sameTree_lookup _ _ _ _ Hs Hlg) as (lg' & Hlg' & He).
    destruct (eraseState_fields _ _ He) as (_ & Hp & _).
    rewrite Hlg', Hp. destruct (parent lg) as [p|]; [by apply IH|done].
  - by rewrite (sameTree_lookup_None _ _ _ Hs Hlg).
Qed.

Lemma RootLogger_withHeap a (w : World) h' :
  eraseState <$> h' = eraseState <$> heap w →
  RootLogger a (set_heap h' w) = withHeap h' (RootLogger a w).
Proof.
  intros Hs. unfold RootLogger. change (heap (set_heap h' w)) with h'.
  rewrite (sameTree_length _ _ Hs).
  by apply RootLogger_loop_withHeap.
Qed.

Lemma RootLogger_pure_any a (w : World) :
  match RootLogger a w with
  | Done _ w' | Panics _ w' | Exits _ w' => w' = w
  | Diverges => True
  end.
Proof.
  unfold RootLogger. generalize (S (length (heap w))). intros fuel. revert a.
  induction fuel as [|fuel IH]; intros a; simpl; [done|].
  munfold. destruct (heap w !! a) as [lg|]; [|done].
  destruct (parent lg) as [p|]; [apply IH|done].
Qed.

Lemma Handlers_withHeap a (w : World) h' :
  eraseState <$> h' = eraseState <$> heap w →
  Handlers a (set_heap h' w) = withHeap h' (Handlers a w).
Proof.
  intros Hs. unfold Handlers. munfold. rewrite (RootLogger_withHeap _ _ _ Hs).
  pose proof (RootLogger_pure_any a w) as Hpure.
  destruct (RootLogger a w) as [r w1| | |]; simpl; try done. subst w1. simpl.
  destruct (heap w !! r) as [lr|] eqn:Hl.
  - destruct (sameTree_lookup _ _ _ _ Hs Hl) as (lr' & Hl' & He).
    destruct (eraseState_fields _ _ He) as (_ & _ & _ & _ & Hh).
    by rewrite Hl', Hh.
  - by rewrite (sameTree_lookup_None _ _ _ Hs Hl).
Qed.

Lemma PanicOnError_withHeap a (w : World) h' :
  eraseState <$> h' = eraseState <$> heap w →
  PanicOnError a (set_heap h' w) = withHeap h' (PanicOnError a w).
Proof.
  intros Hs. unfold PanicOnError. munfold. rewrite (RootLogger_withHeap _ _ _ Hs).
  pose proof (RootLogger_pure_any a w) as Hpure.
  destruct (RootLogger a w) as [r w1| | |]; simpl; try done. subst w1. simpl.
  destruct (heap w !! r) as [lr|] eqn:Hl.
  - destruct (sameTree_lookup _ _ _ _ Hs Hl) as (lr' & Hl' & He).
    destruct (eraseState_fields _ _ He) as (_ & _ & _ & Hp & _).
    by rewrite Hl', Hp.
  - by rewrite (sameTree_lookup_None _ _ _ Hs Hl).
Qed.

Lemma rangeHandleRecord_withHeap hs a record errs (w : World) h' :
  rangeHandleRecord hs a record errs (set_heap h' w)
  = withHeap h' (rangeHandleRecord hs a record errs w).
Proof.
  revert errs w. induction hs as [|h hs IH]; intros errs w; simpl; [done|].
  munfold. unfold call_HandleRecord. simpl.
  exact (IH _ (set_trace _ w)).
Qed.

Lemma rangeHandleRecord_heap hs a record errs (w : World) :
  ∃ r w', rangeHandleRecord hs a record errs w = Done r w' ∧ heap w' = heap w.
Proof.
  destruct (rangeHandleRecord_spec hs a record errs w) as (calls & Hrun & _).
  eexists _, _. split; [exact Hrun|done].
Qed.

Section LogState.

Variable resolve : list Frame → Try (option Frame * option Err).
Variable timeNow : nat → Time.

Lemma Log_withHeap stk a level message args (w : World) h' :
  eraseState <$> h' = eraseState <$> heap w →
  Log resolve timeNow stk a level message args (set_heap h' w)
  = withHeap h' (Log resolve timeNow stk a level message args w).
Proof.
  intros Hs. unfold Log, callGetCaller. munfold.
  destruct (resolve _) as [[caller err]|v]; [|done].
  destruct (otherErrorIs err); [done|].
  unfold time_Now.
  change (tick (set_heap h' w)) with (set_heap h' (tick w)).
  rewrite (Handlers_withHeap a (tick w) h' Hs).
  destruct (Handlers a (tick w)) as [hs w1| | |]; simpl; try done.
  rewrite rangeHandleRecord_withHeap.
  by destruct (rangeHandleRecord _ _ _ _ _).
Qed.

(** [Log] writes to no logger. *)
Lemma Log_heap stk a level message args (w : World) :
  match Log resolve timeNow stk a level message args w with
  | Done _ w' | Panics _ w' | Exits _ w' => heap w' = heap w
  | Diverges => True
  end.
Proof.
  unfold Log, callGetCaller. munfold.
  destruct (resolve _) as [[caller err]|v]; [|done].
  destruct (otherErrorIs err); [done|].
  unfold time_Now, Handlers. munfold.
  pose proof (RootLogger_pure_any a (tick w)) as Hpure.
  destruct (RootLogger a (tick w)) as [r w1| | |]; try by subst.
  subst w1. destruct (heap (tick w) !! r) as [lr|]; [|done].
  destruct (rangeHandleRecord_heap (handlers lr) a
              (mkRecord (timeNow (ticks w)) level message caller (argsToAttrs args))
              [] (tick w)) as (r' & w' & -> & Hh).
  done.
Qed.

Lemma leveled_withHeap name line level stk a message args (w : World) h' :
  eraseState <$> h' = eraseState <$> heap w →
  leveled resolve timeNow name line level stk a message args (set_heap h' w)
  = withHeap h' (leveled resolve timeNow name line level stk a message args w).
Proof.
  intros Hs. unfold leveled. munfold. rewrite (Log_withHeap _ _ _ _ _ _ _ Hs).
  pose proof (Log_heap (frameAt name line :: stk) a level message args w) as Hheap.
  destruct (Log _ _ _ _ _ _ _ w) as [[e|] w1| | |]; simpl; try done.
  rewrite <- Hheap in Hs.
  rewrite (PanicOnError_withHeap a w1 h' Hs).
  destruct (PanicOnError a w1) as [[] w2| | |]; done.
Qed.

End LogState.

Lemma set_state_sameTree (h : list Logger) a lg s :
  h !! a = Some lg →
  eraseState <$> <[a := set_state s lg]> h = eraseState <$> h.
Proof.
  intros Ha. rewrite list_fmap_insert.
  apply list_eq. intros i. destruct (decide (i = a)) as [->|Hne].
  - rewrite list_lookup_insert_eq
      by (rewrite length_fmap; by eapply lookup_lt_Some).
    by rewrite list_lookup_fmap, Ha.
  - by rewrite list_lookup_insert_ne.
Qed.

(** C10. [Log], and with it [Debug], [Info], [Warn] and [Error], does not
    look at the state of the logger: with the logger in the state [s],
    open or closed, it makes the calls, returns or raises what it does with
    the logger as it was, and leaves every logger as it found it. [Close]
    does look at the state: on a closed logger it returns at once. *)
Theorem C10_Log_ignores_state
    (resolve : list Frame → Try (option Frame * option Err))
    (timeNow : nat → Time) (stk : list Frame) (a : addr) (w : World)
    (lg : Logger) (s : LoggerState)
    (level : Level) (message : string) (args : list Any) :
  heap w !! a = Some lg →
  Log resolve timeNow stk a level message args
      (set_heap (<[a := set_state s lg]> (heap w)) w)
    = withHeap (<[a := set_state s lg]> (heap w))
        (Log resolve timeNow stk a level message args w) ∧
  (∀ m,
     runLeveled resolve timeNow m stk a message args
         (set_heap (<[a := set_state s lg]> (heap w)) w)
       = withHeap (<[a := set_state s lg]> (heap w))
           (runLeveled resolve timeNow m stk a message args w)) ∧
  (∀ w', resWorld (Log resolve timeNow stk a level message args w) = Some w' →
     heap w' = heap w) ∧
  Close resolve timeNow stk a
      (set_heap (<[a := set_state LoggerState_Closed lg]> (heap w)) w)
    = Done None (set_heap (<[a := set_state LoggerState_Closed lg]> (heap w)) w).
Proof.
  intros Ha.
  pose proof (set_state_sameTree _ _ _ s Ha) as Hs.
  split_and!.
  - by apply Log_withHeap.
  - intros []; simpl; by apply leveled_withHeap.
  - intros w' Hw'.
    pose proof (Log_heap resolve timeNow stk a level message args w) as Hh.
    destruct (Log _ _ _ _ _ _ _ w); simpl in Hw'; by simplify_eq.
  - unfold Close.
    apply (Close_fuel_closed _ _ _ _ _ _ (set_state LoggerState_Closed lg)); [|done].
    simpl. apply list_lookup_insert_eq. by eapply lookup_lt_Some.
Qed.

(** On the leaf of the chain, closed instead of open. *)
Lemma C10_Log_ignores_state_witness :
  Log getCaller clock0 [mainFrame] 2 LevelInfo "late" []
      (set_heap (<[2 := set_state LoggerState_Closed leaf2]> (heap chainWorld2)) chainWorld2)
    = withHeap (<[2 := set_state LoggerState_Closed leaf2]> (heap chainWorld2))
        (Log getCaller clock0 [mainFrame] 2 LevelInfo "late" [] chainWorld2) ∧
  (∀ m,
     runLeveled getCaller clock0 m [mainFrame] 2 "late" []
         (set_heap (<[2 := set_state LoggerState_Closed leaf2]> (heap chainWorld2)) chainWorld2)
       = withHeap (<[2 := set_state LoggerState_Closed leaf2]> (heap chainWorld2))
           (runLeveled getCaller clock0 m [mainFrame] 2 "late" [] chainWorld2)) ∧
  (∀ w', resWorld (Log getCaller clock0 [mainFrame] 2 LevelInfo "late" [] chainWorld2)
           = Some w' →
     heap w' = heap chainWorld2) ∧
  Close getCaller clock0 [mainFrame] 2
      (set_heap (<[2 := set_state LoggerState_Closed leaf2]> (heap chainWorld2)) chainWorld2)
    = Done None
        (set_heap (<[2 := set_state LoggerState_Closed leaf2]> (heap chainWorld2)) chainWorld2).
Proof.
  apply (C10_Log_ignores_state getCaller clock0 [mainFrame] 2 chainWorld2 leaf2
           LoggerState_Closed LevelInfo "late" []).
  vm_compute. reflexivity.
Defined.

(** Computed: [Log] on the closed leaf still reaches both handlers. *)
Example Log_on_closed_logger :
  ∃ w',
    (Close getCaller clock0 [mainFrame] 2;;
     Log getCaller clock0 [mainFrame] 2 LevelInfo "late" []) chainWorld2
      = Done (Some (ErrJoin [ErrNew "disk full"])) w' ∧
    heap w' !! 2 = Some (set_state LoggerState_Closed leaf2) ∧
    callKey <$> drop (length (trace chainWorld2)) (trace w')
      = [KClosed 1 2; KClosed 2 2; KRecord 1 2; KRecord 2 2].
Proof. eexists. split_and!; vm_compute; reflexivity. Qed.

(** ** Creating loggers *)

Lemma RootLogger_loop_mono fuel : ∀ a (w : World) r fuel',
  RootLogger_loop fuel a w = Done r w → fuel ≤ fuel' →
  RootLogger_loop fuel' a w = Done r w.
Proof.
  induction fuel as [|fuel IH]; intros a w r fuel'; simpl; [done|].
  intros H Hle. destruct fuel' as [|fuel']; [lia|]. simpl. munfold.
  destruct (heap w !! a) as [lg|]; [|done].
  destruct (parent lg) as [p|]; [|done]. apply IH; [done|lia].
Qed.

Lemma RootLogger_loop_kept fuel : ∀ a (w w' : World) r,
  linksKept (heap w) (heap w') →
  RootLogger_loop fuel a w = Done r w →
  RootLogger_loop fuel a w' = Done r w'.
Proof.
  induction fuel as [|fuel IH]; intros a w w' r Hk; simpl; [done|].
  munfold. destruct (heap w !! a) as [lg|] eqn:Hlg; [|done].
  destruct (Hk a lg Hlg) as (lg' & Hlg' & Hp & _).
  rewrite Hlg', Hp. destruct (parent lg) as [p|]; [by apply IH|].
  intros; by simplify_eq.
Qed.

Lemma RootLogger_kept a (w w' : World) r :
  linksKept (heap w) (heap w') → length (heap w) ≤ length (heap w') →
  RootLogger a w = Done r w → RootLogger a w' = Done r w'.
Proof.
  intros Hk Hlen Hr. unfold RootLogger in *.
  apply (RootLogger_loop_mono (S (length (heap w)))); [|lia].
  by apply (RootLogger_loop_kept _ _ w).
Qed.

Lemma Handlers_kept a (w w' : World) hs :
  linksKept (heap w) (heap w') → length (heap w) ≤ length (heap w') →
  Handlers a w = Done hs w → Handlers a w' = Done hs w'.
Proof.
  intros Hk Hlen H. destruct (Handlers_inv _ _ _ _ H) as (_ & r & lr & Hr & Hl & ->).
  destruct (Hk r lr Hl) as (lr' & Hl' & _ & <- & _).
  apply (Handlers_root w' a r lr'); [|done]. by apply (RootLogger_kept a w).
Qed.

Lemma PanicOnError_kept a (w w' : World) b :
  linksKept (heap w) (heap w') → length (heap w) ≤ length (heap w') →
  PanicOnError a w = Done b w → PanicOnError a w' = Done b w'.
Proof.
  intros Hk Hlen. unfold PanicOnError. munfold.
  destruct (RootLogger a w) as [r w1| | |] eqn:Hr; try done.
  pose proof (RootLogger_loop_pure _ _ _ _ _ Hr) as ->.
  rewrite (RootLogger_kept a w w' r Hk Hlen Hr).
  destruct (heap w !! r) as [lr|] eqn:Hl; [|done].
  destruct (Hk r lr Hl) as (lr' & Hl' & _ & _ & Hp).
  rewrite Hl', Hp. intros; by simplify_eq.
Qed.

Lemma childAdded_length h a lg u : length (childAdded h a lg u) = S (length h).
Proof. unfold childAdded. rewrite length_app, length_insert. simpl. lia. Qed.

Lemma childAdded_lookup_new h a lg u :
  childAdded h a lg u !! length h = Some (freshChild u a).
Proof.
  unfold childAdded. rewrite lookup_app_r by (by rewrite length_insert).
  by rewrite length_insert, Nat.sub_diag.
Qed.

Lemma childAdded_lookup_parent h a lg u :
  h !! a = Some lg →
  childAdded h a lg u !! a = Some (set_children (children lg ++ [length h]) lg).
Proof.
  intros Ha. pose proof (lookup_lt_Some _ _ _ Ha).
  unfold childAdded. rewrite lookup_app_l by (by rewrite length_insert).
  by apply list_lookup_insert_eq.
Qed.

Lemma childAdded_lookup_other h a lg u i :
  i ≠ a → i < length h → childAdded h a lg u !! i = h !! i.
Proof.
  intros Hne Hlt. unfold childAdded.
  rewrite lookup_app_l by (by rewrite length_insert).
  by apply list_lookup_insert_ne.
Qed.

Lemma childAdded_kept h a lg u :
  h !! a = Some lg → linksKept h (childAdded h a lg u).
Proof.
  intros Ha i li Hi. pose proof (lookup_lt_Some _ _ _ Hi).
  destruct (decide (i = a)) as [->|Hne].
  - rewrite (childAdded_lookup_parent _ _ _ _ Ha). simplify_eq. by eexists.
  - rewrite childAdded_lookup_other by done. by exists li.
Qed.

(** [NewChildLogger] keeps the store a forest. *)
Lemma childAdded_wf h a lg u :
  wf h → h !! a = Some lg → wf (childAdded h a lg u).
Proof.
  intros Hwf Ha i li Hi.
  pose proof (lookup_lt_Some _ _ _ Ha) as Halt.
  pose proof (lookup_lt_Some _ _ _ Hi) as Hilt. rewrite childAdded_length in Hilt.
  destruct (Hwf a lg Ha) as (Hpa & Hca & Hnda).
  assert (Hnew : length h ∉ children lg).
  { intros Hin. destruct (Hca _ Hin) as (_ & lc & Hlc & _).
    apply lookup_lt_Some in Hlc. lia. }
  destruct (decide (i = length h)) as [->|Hnl].
  - (* the new logger *)
    rewrite childAdded_lookup_new in Hi. simplify_eq. simpl. split_and!.
    + intros p [= <-]. split; [done|].
      rewrite (childAdded_lookup_parent _ _ _ _ Ha). eexists. split; [done|].
      simpl. apply elem_of_app. right. by apply list_elem_of_singleton.
    + by intros c ?%elem_of_nil.
    + constructor.
  - assert (Hi' : i < length h) by lia.
    assert (∃ li0, h !! i = Some li0 ∧ parent li = parent li0 ∧
                   (children li = children li0 ∨
                    (i = a ∧ li0 = lg ∧ children li = children lg ++ [length h])))
      as (li0 & Hi0 & Hpi & Hci).
    { destruct (decide (i = a)) as [->|Hne].
      - rewrite (childAdded_lookup_parent _ _ _ _ Ha) in Hi. simplify_eq.
        exists lg. split_and!; [done|done|]. right. done.
      - rewrite childAdded_lookup_other in Hi by done.
        exists li. split_and!; [done|done|by left]. }
    destruct (Hwf i li0 Hi0) as (Hp & Hc & Hnd). rewrite Hpi. split_and!.
    + intros p Hpp. destruct (Hp p Hpp) as (Hlt & lp & Hlp & Hin).
      split; [done|]. destruct (decide (p = a)) as [->|Hpa'].
      * rewrite (childAdded_lookup_parent _ _ _ _ Ha). eexists. split; [done|].
        simpl. simplify_eq. apply elem_of_app. by left.
      * rewrite childAdded_lookup_other by (done || lia). by exists lp.
    + assert (Hold : ∀ c, c ∈ children li0 →
                i < c ∧ ∃ lc, childAdded h a lg u !! c = Some lc ∧ parent lc = Some i).
      { intros c Hcc. destruct (Hc c Hcc) as (Hlt & lc & Hlc & Hpc).
        split; [done|]. pose proof (lookup_lt_Some _ _ _ Hlc).
        destruct (decide (c = a)) as [->|Hca'].
        - rewrite (childAdded_lookup_parent _ _ _ _ Ha). eexists. split; [done|].
          simpl. by simplify_eq.
        - rewrite childAdded_lookup_other by done. by exists lc. }
      destruct Hci as [->|(-> & -> & ->)]; [done|].
      intros c [Hc0| ->%list_elem_of_singleton]%elem_of_app; [by apply Hold|].
      split; [done|]. rewrite childAdded_lookup_new. by eexists.
    + destruct Hci as [->|(-> & -> & ->)]; [done|].
      apply NoDup_app. split_and!; [done| |apply NoDup_singleton].
      by intros c Hc0 ->%list_elem_of_singleton.
Qed.

Lemma freshLogger_wf h u : wf h → wf (h ++ [freshLogger u]).
Proof.
  intros Hwf i li Hi.
  apply lookup_app_Some in Hi as [Hi|[Hlen Hi]].
  - destruct (Hwf i li Hi) as (Hp & Hc & Hnd). split_and!; [| |done].
    + intros p Hpp. destruct (Hp p Hpp) as (Hlt & lp & Hlp & Hin).
      split; [done|]. exists lp. split; [by apply lookup_app_l_Some|done].
    + intros c Hcc. destruct (Hc c Hcc) as (Hlt & lc & Hlc & Hpc).
      split; [done|]. exists lc. split; [by apply lookup_app_l_Some|done].
  - destruct (i - length h) as [|n] eqn:E; simpl in Hi; [|by destruct n].
    simplify_eq. split_and!; [done|by intros c ?%elem_of_nil|constructor].
Qed.

Section CreateProofs.

Variable resolve : list Frame → Try (option Frame * option Err).
Variable timeNow : nat → Time.
Variable uuidNew : nat → UUID.

Lemma NewLogger_spec (w : World) :
  NewLogger uuidNew w
  = Done (length (heap w))
      (mkWorld (heap w ++ [freshLogger (uuidNew (uuids w))])
         (trace w) (ticks w) (S (uuids w))).
Proof. done. Qed.

Lemma NewChildLogger_spec stk a (w : World) lg hs caller err :
  heap w !! a = Some lg →
  Handlers a w = Done hs w →
  resolve (frame_getCaller :: frameAt ".(*Logger).NewChildLogger" 133 :: stk)
    = Value_ (caller, err) →
  otherError err = false →
  ∃ calls,
    NewChildLogger resolve timeNow uuidNew stk a w
      = Done (length (heap w))
          (mkWorld (childAdded (heap w) a lg (uuidNew (uuids w)))
             (trace w ++ calls) (S (ticks w)) (S (uuids w))) ∧
    dispatched (mkCreated (length (heap w)) (timeNow (ticks w)) caller)
      hs (trace w) calls.
Proof.
  intros Ha Hh Hr Ho.
  pose proof (lookup_lt_Some _ _ _ Ha) as Halt.
  set (c := length (heap w)).
  set (u := uuidNew (uuids w)).
  set (w5 := mkWorld (childAdded (heap w) a lg u) (trace w) (S (ticks w)) (S (uuids w))).
  destruct (rangeOnLoggerCreated_spec hs c (timeNow (ticks w)) caller w5)
    as (calls & Hrun & Hd).
  exists calls. split; [|exact Hd].
  assert (Hh5 : Handlers c w5 = Done hs w5).
  { destruct (Handlers_inv _ _ _ _ Hh) as (_ & r & lr & Hroot & Hl & ->).
    pose proof (childAdded_kept (heap w) a lg u Ha) as Hk.
    destruct (Hk r lr Hl) as (lr' & Hl' & _ & <- & _).
    apply (Handlers_root w5 c r lr'); [|done].
    unfold RootLogger. simpl. munfold. simpl. unfold c.
    rewrite childAdded_lookup_new. simpl.
    rewrite childAdded_length.
    apply (RootLogger_loop_kept _ _ w w5 r Hk Hroot). }
  unfold NewChildLogger, isNil, NewLogger, uuid_New, alloc, callGetCaller. munfold.
  rewrite bool_decide_false by (by rewrite Ha).
  simpl. fold c u.
  rewrite (list_lookup_middle (heap w) [] _ c eq_refl).
  simpl.
  rewrite !list_lookup_insert_ne by (unfold c; lia).
  rewrite !lookup_app_l by done. rewrite Ha. simpl.
  rewrite !list_lookup_insert_ne by (unfold c; lia).
  rewrite !lookup_app_l by done. rewrite Ha. simpl.
  rewrite Hr, Ho. unfold time_Now. simpl.
  assert (Hheap : <[a := set_children (children lg ++ [c]) lg]>
                    (<[c := set_parent (Some a) (freshLogger u)]>
                       (heap w ++ [freshLogger u]))
                  = childAdded (heap w) a lg u).
  { unfold childAdded. fold c.
    rewrite (insert_app_r_alt _ _ c) by (unfold c; lia).
    unfold c at 1. rewrite Nat.sub_diag. simpl.
    by rewrite insert_app_l. }
  match goal with
  | |- context [Handlers c ?x] => replace x with w5
  end.
  2: { unfold tick, set_heap, w5. simpl. f_equal. symmetry. exact Hheap. }
  rewrite Hh5, Hrun. done.
Qed.

End CreateProofs.

(** C8. [NewChildLogger] returns a new logger whose parent is the logger it
    was called on, appends it to the child list of that logger, and leaves
    every other logger, and the parent and state of that logger, as they
    were; the store is still a forest. Every handler of the root gets one
    creation call for the new logger, in the order of the list.
    [NewLogger] makes a logger with no parent and calls no handler. *)
Theorem C8_NewChildLogger_appends_one_child
    (resolve : list Frame → Try (option Frame * option Err))
    (timeNow : nat → Time) (uuidNew : nat → UUID) (stk : list Frame)
    (a : addr) (w : World) (lg : Logger) (hs : list Handler) :
  wf (heap w) → heap w !! a = Some lg →
  Handlers a w = Done hs w →
  resolves (resolve (childStack stk)) →
  (∃ w' calls caller,
     NewChildLogger resolve timeNow uuidNew stk a w = Done (length (heap w)) w' ∧
     heap w' !! length (heap w) = Some (freshChild (uuidNew (uuids w)) a) ∧
     heap w' !! a = Some (set_children (children lg ++ [length (heap w)]) lg) ∧
     (∀ n, n ≠ a → n < length (heap w) → heap w' !! n = heap w !! n) ∧
     length (heap w') = S (length (heap w)) ∧
     wf (heap w') ∧
     trace w' = trace w ++ calls ∧
     dispatched (mkCreated (length (heap w)) (timeNow (ticks w)) caller)
       hs (trace w) calls ∧
     length calls = length hs ∧
     callKey <$> calls = (λ h, KCreated (hid h) (length (heap w))) <$> hs) ∧
  (∃ w0,
     NewLogger uuidNew w = Done (length (heap w)) w0 ∧
     trace w0 = trace w ∧
     heap w0 = heap w ++ [freshLogger (uuidNew (uuids w))] ∧
     wf (heap w0)).
Proof.
  intros Hwf Ha Hh (caller & err & Hr & Ho). split.
  - destruct (NewChildLogger_spec resolve timeNow uuidNew stk a w lg hs caller err
                Ha Hh Hr Ho) as (calls & Hrun & Hd).
    eexists _, calls, caller. split; [exact Hrun|]. simpl. split_and!.
    + apply childAdded_lookup_new.
    + by apply childAdded_lookup_parent.
    + intros n Hne Hlt. by apply childAdded_lookup_other.
    + apply childAdded_length.
    + by apply childAdded_wf.
    + done.
    + done.
    + apply Hd.
    + exact (dispatched_keys (mkCreated _ _ _) (λ h, KCreated (hid h) (length (heap w)))
               hs (trace w) calls (λ _ _, eq_refl) Hd).
  - eexists. split; [apply NewLogger_spec|]. simpl.
    split_and!; [done|done|by apply freshLogger_wf].
Qed.

(** A second child for the root of the family tree. *)
Lemma C8_NewChildLogger_appends_one_child_witness :
  (∃ w' calls caller,
     NewChildLogger getCaller clock0 uuid0 [mainFrame] 0 familyWorld
       = Done (length (heap familyWorld)) w' ∧
     heap w' !! length (heap familyWorld)
       = Some (freshChild (uuid0 (uuids familyWorld)) 0) ∧
     heap w' !! 0
       = Some (set_children (children familyRoot ++ [length (heap familyWorld)])
                 familyRoot) ∧
     (∀ n, n ≠ 0 → n < length (heap familyWorld) →
        heap w' !! n = heap familyWorld !! n) ∧
     length (heap w') = S (length (heap familyWorld)) ∧
     wf (heap w') ∧
     trace w' = trace familyWorld ++ calls ∧
     dispatched (mkCreated (length (heap familyWorld)) (clock0 (ticks familyWorld)) caller)
       [quietHandler 1] (trace familyWorld) calls ∧
     length calls = length [quietHandler 1] ∧
     callKey <$> calls
       = (λ h, KCreated (hid h) (length (heap familyWorld))) <$> [quietHandler 1]) ∧
  (∃ w0,
     NewLogger uuid0 familyWorld = Done (length (heap familyWorld)) w0 ∧
     trace w0 = trace familyWorld ∧
     heap w0 = heap familyWorld ++ [freshLogger (uuid0 (uuids familyWorld))] ∧
     wf (heap w0)).
Proof.
  apply (C8_NewChildLogger_appends_one_child getCaller clock0 uuid0 [mainFrame] 0
           familyWorld familyRoot [quietHandler 1]).
  - apply wfb_wf. vm_compute. reflexivity.
  - vm_compute. reflexivity.
  - vm_compute. reflexivity.
  - apply getCaller_resolves.
    do 2 (apply Forall_cons_2; [by eexists; vm_compute|]).
    apply mainStack_wellNamed.
Defined.

(** ** The configuration of a tree *)




Section ConfigProofs.

Variable resolve : list Frame → Try (option Frame * option Err).
Variable timeNow : nat → Time.
Variable uuidNew : nat → UUID.



End ConfigProofs.



(** ** What every operation preserves *)

Section Preservation.

(** A relation between the world before and the world after that holds
    when the store is unchanged, composes, and holds over a write to the
    fields of one logger that touches no link and reopens nothing. *)
Variable R : World → World → Prop.
Hypothesis R_heap : ∀ w w', heap w' = heap w → R w w'.
Hypothesis R_trans : ∀ w1 w2 w3, R w1 w2 → R w2 w3 → R w1 w3.
Hypothesis R_write : ∀ w l lg f,
  heap w !! l = Some lg → fieldWrite f →
  R w (set_heap (<[l := f lg]> (heap w)) w).

Variable resolve : list Frame → Try (option Frame * option Err).
Variable timeNow : nat → Time.

Lemma Pres_same_heap {A} (m : M A) :
  (∀ w w', resWorld (m w) = Some w' → heap w' = heap w) → Pres R m.
Proof. intros H w w' Hw. by apply R_heap, (H w). Qed.

Lemma Pres_ret {A} (a : A) : Pres R (mret a).
Proof. apply Pres_same_heap. by intros w w' [= <-]. Qed.

Lemma Pres_bind {A B} (m : M A) (k : A → M B) :
  Pres R m → (∀ a, Pres R (k a)) → Pres R (m ≫= k).
Proof.
  intros Hm Hk w w'. munfold.
  destruct (m w) as [a w1|v w1|c w1|] eqn:E; simpl.
  - intros H. apply (R_trans w w1); [|by apply (Hk a)].
    apply Hm. by rewrite E.
  - intros [= <-]. apply Hm. by rewrite E.
  - intros [= <-]. apply Hm. by rewrite E.
  - done.
Qed.

Lemma Pres_panic {A} v : Pres R (panic (A := A) v).
Proof. apply Pres_same_heap. by intros w w' [= <-]. Qed.

Lemma Pres_exit {A} c : Pres R (os_Exit (A := A) c).
Proof. apply Pres_same_heap. by intros w w' [= <-]. Qed.

Lemma Pres_diverge {A} : Pres R (diverge (A := A)).
Proof. by intros w w'. Qed.

Lemma Pres_liftTry {A} (t : Try A) : Pres R (liftTry t).
Proof. apply Pres_same_heap. intros w w'. by destruct t; intros [= <-]. Qed.

Lemma Pres_deref l : Pres R (deref l).
Proof.
  apply Pres_same_heap. intros w w'. unfold deref.
  by destruct (heap w !! l); intros [= <-].
Qed.

Lemma Pres_update l f : fieldWrite f → Pres R (update l f).
Proof.
  intros Hf w w'. unfold update.
  destruct (heap w !! l) as [lg|] eqn:Hl; intros [= <-]; [|by apply R_heap].
  by apply R_write.
Qed.

Lemma Pres_time_Now : Pres R (time_Now timeNow).
Proof. apply Pres_same_heap. by intros ? ? [= <-]. Qed.

Lemma Pres_call_OnLoggerClosed h l now caller :
  Pres R (call_OnLoggerClosed h l now caller).
Proof.
  apply Pres_same_heap. intros w w'. unfold call_OnLoggerClosed.
  by destruct (OnLoggerClosed _ _ _ _ _); intros [= <-].
Qed.

Ltac pres_step :=
  first
    [ apply Pres_ret | apply Pres_panic | apply Pres_exit | apply Pres_diverge
    | apply Pres_liftTry | apply Pres_deref | apply Pres_time_Now
    | apply Pres_call_OnLoggerClosed
    | apply Pres_update; intros []; simpl; done
    | apply Pres_same_heap; intros ? ? [= <-]; done
    | apply Pres_bind; [|intros ?]
    | match goal with
      | |- Pres R (match ?x with _ => _ end) => destruct x
      end ].

Lemma Pres_RootLogger_loop fuel : ∀ l, Pres R (RootLogger_loop fuel l).
Proof. induction fuel as [|fuel IH]; intros l; simpl; repeat pres_step. apply IH. Qed.

Lemma Pres_RootLogger l : Pres R (RootLogger l).
Proof. intros w w'. apply (Pres_RootLogger_loop _ l). Qed.

Lemma Pres_Handlers l : Pres R (Handlers l).
Proof. unfold Handlers. repeat first [apply Pres_RootLogger | pres_step]. Qed.

Lemma Pres_PanicOnError l : Pres R (PanicOnError l).
Proof. unfold PanicOnError. repeat first [apply Pres_RootLogger | pres_step]. Qed.

Lemma Pres_AddHandler l h : Pres R (AddHandler l h).
Proof. unfold AddHandler. repeat first [apply Pres_RootLogger | pres_step]. Qed.

Lemma Pres_SetPanicOnError l v : Pres R (SetPanicOnError l v).
Proof. unfold SetPanicOnError. repeat first [apply Pres_RootLogger | pres_step]. Qed.

Lemma Pres_rangeOnLoggerCreated hs l now caller :
  Pres R (rangeOnLoggerCreated hs l now caller).
Proof. induction hs as [|h hs IH]; simpl; repeat pres_step. apply IH. Qed.

Lemma Pres_rangeOnLoggerClosed hs l now caller : ∀ errs,
  Pres R (rangeOnLoggerClosed hs l now caller errs).
Proof. induction hs as [|h hs IH]; intros errs; simpl; repeat pres_step. apply IH. Qed.

Lemma Pres_rangeHandleRecord hs l record : ∀ errs,
  Pres R (rangeHandleRecord hs l record errs).
Proof. induction hs as [|h hs IH]; intros errs; simpl; repeat pres_step. apply IH. Qed.

Lemma Pres_closeChildren close cs :
  (∀ c, Pres R (close c)) → ∀ errs, Pres R (closeChildren close cs errs).
Proof.
  intros Hc. induction cs as [|c cs IH]; intros errs; simpl;
    repeat first [apply Hc | apply IH | pres_step].
Qed.

Ltac pres :=
  repeat first
    [ apply Pres_RootLogger | apply Pres_Handlers | apply Pres_PanicOnError
    | apply Pres_rangeOnLoggerCreated | apply Pres_rangeOnLoggerClosed
    | apply Pres_rangeHandleRecord | pres_step ].

(** What [NewChildLogger] does once the child is linked. *)
Lemma Pres_notifyCreated stk childLogger :
  Pres R (
    r ← callGetCaller resolve (frameAt ".(*Logger).NewChildLogger" 133 :: stk);
    let '(caller, err) := r in
    if otherError err then
      match err with Some e => panic (PanicError e) | None => mret childLogger end
    else
      now ← time_Now timeNow;
      hs ← Handlers childLogger;
      rangeOnLoggerCreated hs childLogger now caller;;
      mret childLogger).
Proof. unfold callGetCaller. pres. Qed.

Lemma Pres_Close_fuel fuel : ∀ stk l, Pres R (Close_fuel resolve timeNow fuel stk l).
Proof.
  induction fuel as [|fuel IH]; intros stk l; simpl; unfold callGetCaller;
    repeat first [ apply Pres_closeChildren; intros; apply IH | progress pres ].
Qed.

Lemma Pres_Close stk l : Pres R (Close resolve timeNow stk l).
Proof. intros w w'. apply (Pres_Close_fuel _ stk l). Qed.

Lemma Pres_Log stk l level message args :
  Pres R (Log resolve timeNow stk l level message args).
Proof. unfold Log, callGetCaller. pres. Qed.

Lemma Pres_leveled name line level stk l message args :
  Pres R (leveled resolve timeNow name line level stk l message args).
Proof. unfold leveled. repeat first [apply Pres_Log | progress pres]. Qed.

Lemma Pres_runLeveled m stk l message args :
  Pres R (runLeveled resolve timeNow m stk l message args).
Proof. destruct m; apply Pres_leveled. Qed.

Lemma Pres_Fatal stk l message args :
  Pres R (Fatal resolve timeNow stk l message args).
Proof. unfold Fatal. repeat first [apply Pres_Log | progress pres]. Qed.

Lemma Pres_Panic stk l message args :
  Pres R (Panic resolve timeNow stk l message args).
Proof. unfold Panic. repeat first [apply Pres_Log | progress pres]. Qed.

Lemma Pres_LogReader stk l scans level format args :
  Pres R (LogReader resolve timeNow stk l scans level format args).
Proof.
  induction scans as [|[text [err|]] rest IH]; simpl;
    repeat first [apply Pres_Log | apply IH | progress pres].
Qed.

End Preservation.

(** ** No operation reopens a logger *)

Lemma grows_same_heap w w' : heap w' = heap w → grows w w'.
Proof. intros Hh i lg Hi. exists lg. by rewrite Hh. Qed.

Lemma grows_trans w1 w2 w3 : grows w1 w2 → grows w2 w3 → grows w1 w3.
Proof.
  intros H12 H23 i lg Hi.
  destruct (H12 i lg Hi) as (lg2 & Hi2 & Hs2).
  destruct (H23 i lg2 Hi2) as (lg3 & Hi3 & Hs3).
  exists lg3. split; [done|]. auto.
Qed.

(** Writing fields is harmless when the write keeps a closed logger
    closed. *)
Lemma grows_update w l lg f :
  heap w !! l = Some lg →
  (state lg = LoggerState_Closed → state (f lg) = LoggerState_Closed) →
  grows w (set_heap (<[l := f lg]> (heap w)) w).
Proof.
  intros Hl Hf i li Hi. simpl. destruct (decide (i = l)) as [->|Hne].
  - rewrite list_lookup_insert_eq by (by eapply lookup_lt_Some).
    assert (li = lg) as -> by congruence.
    exists (f lg). split; [done|apply Hf].
  - rewrite list_lookup_insert_ne by done. by exists li.
Qed.

Lemma grows_write w l lg f :
  heap w !! l = Some lg → fieldWrite f →
  grows w (set_heap (<[l := f lg]> (heap w)) w).
Proof. intros Hl Hf. apply grows_update; [done|apply Hf]. Qed.

Lemma grows_childAdded w a lg u w' :
  heap w !! a = Some lg → heap w' = childAdded (heap w) a lg u → grows w w'.
Proof.
  intros Ha Hh i li Hi. rewrite Hh.
  pose proof (lookup_lt_Some _ _ _ Hi).
  destruct (decide (i = a)) as [->|Hne].
  - rewrite (childAdded_lookup_parent _ _ _ _ Ha).
    assert (li = lg) as -> by congruence. by eexists.
  - rewrite childAdded_lookup_other by done. by exists li.
Qed.

Lemma grows_fresh w u w' : heap w' = heap w ++ [freshLogger u] → grows w w'.
Proof.
  intros Hh i li Hi. rewrite Hh. exists li. split; [|done].
  by apply lookup_app_l_Some.
Qed.

(** ** No operation breaks the forest *)

Lemma sameLinks_same_heap w w' : heap w' = heap w → sameLinks w w'.
Proof. unfold sameLinks. by intros ->. Qed.

Lemma sameLinks_trans w1 w2 w3 : sameLinks w1 w2 → sameLinks w2 w3 → sameLinks w1 w3.
Proof. unfold sameLinks. congruence. Qed.

Lemma sameLinks_write w l lg f :
  heap w !! l = Some lg → fieldWrite f →
  sameLinks w (set_heap (<[l := f lg]> (heap w)) w).
Proof.
  intros Hl Hf. unfold sameLinks, links. simpl.
  rewrite list_fmap_insert. destruct (Hf lg) as (-> & -> & _).
  apply list_insert_id. by rewrite list_lookup_fmap, Hl.
Qed.

Lemma links_lookup (h h' : list Logger) i lg :
  links h' = links h → h !! i = Some lg →
  ∃ lg', h' !! i = Some lg' ∧ parent lg' = parent lg ∧ children lg' = children lg.
Proof.
  intros H Hi. apply (f_equal (.!! i)) in H. unfold links in H.
  rewrite !list_lookup_fmap, Hi in H. simpl in H.
  destruct (h' !! i) as [lg'|]; simpl in H; [|done].
  exists lg'. split; [done|]. by simplify_eq.
Qed.

Lemma wf_links (h h' : list Logger) : links h' = links h → wf h → wf h'.
Proof.
  intros H Hwf a lg' Ha.
  destruct (links_lookup h' h a lg' (eq_sym H) Ha) as (lg & Hlg & Hp & Hc).
  destruct (Hwf a lg Hlg) as (Hpar & Hch & Hnd).
  rewrite <- Hp, <- Hc. split_and!; [| |done].
  - intros p Hpp. destruct (Hpar p Hpp) as (Hlt & lp & Hlp & Hin).
    split; [done|].
    destruct (links_lookup h h' p lp H Hlp) as (lp' & Hlp' & _ & Hc').
    exists lp'. by rewrite Hc'.
  - intros c Hcc. destruct (Hch c Hcc) as (Hlt & lc & Hlc & Hpc).
    split; [done|].
    destruct (links_lookup h h' c lc H Hlc) as (lc' & Hlc' & Hp' & _).
    exists lc'. by rewrite Hp'.
Qed.

Ltac grows_side := first [exact grows_same_heap | exact grows_trans | exact grows_write].
Ltac links_side :=
  first [exact sameLinks_same_heap | exact sameLinks_trans | exact sameLinks_write].

Section RunProofs.

Variable resolve : list Frame → Try (option Frame * option Err).
Variable timeNow : nat → Time.
Variable uuidNew : nat → UUID.

(** However [NewChildLogger] ends, the store is the old one with a fresh
    logger (nil receiver) or with the child linked to the receiver. *)
Lemma NewChildLogger_heap stk a (w w' : World) :
  resWorld (NewChildLogger resolve timeNow uuidNew stk a w) = Some w' →
  (heap w !! a = None ∧ heap w' = heap w ++ [freshLogger (uuidNew (uuids w))]) ∨
  (∃ lg, heap w !! a = Some lg ∧
         heap w' = childAdded (heap w) a lg (uuidNew (uuids w))).
Proof.
  destruct (heap w !! a) as [lg|] eqn:Ha.
  - intros H. right. exists lg. split; [done|].
    pose proof (lookup_lt_Some _ _ _ Ha) as Halt.
    set (c := length (heap w)). set (u := uuidNew (uuids w)).
    assert (Hheap : <[a := set_children (children lg ++ [c]) lg]>
                      (<[c := set_parent (Some a) (freshLogger u)]>
                         (heap w ++ [freshLogger u]))
                    = childAdded (heap w) a lg u).
    { unfold childAdded. fold c.
      rewrite (insert_app_r_alt _ _ c) by (unfold c; lia).
      unfold c at 1. rewrite Nat.sub_diag. simpl.
      by rewrite insert_app_l. }
    pose proof (Pres_notifyCreated (λ w w', heap w' = heap w)
                  (λ _ _ H, H) (λ w1 w2 w3 H12 H23, eq_trans H23 H12)
                  resolve timeNow stk c) as Htail.
    revert H.
    unfold NewChildLogger, isNil, NewLogger, uuid_New, alloc. munfold.
    rewrite bool_decide_false by (by rewrite Ha). simpl. fold c u.
    rewrite (list_lookup_middle (heap w) [] _ c eq_refl). simpl.
    rewrite !list_lookup_insert_ne by (unfold c; lia).
    rewrite !lookup_app_l by done. rewrite Ha. simpl.
    rewrite !list_lookup_insert_ne by (unfold c; lia).
    rewrite !lookup_app_l by done. rewrite Ha. simpl.
    intros H. rewrite <- Hheap. exact (Htail _ _ H).
  - intros H. left. split; [done|]. revert H.
    unfold NewChildLogger, isNil, NewLogger, uuid_New, alloc. munfold.
    rewrite bool_decide_true by done. simpl. by intros [= <-].
Qed.

Lemma Mono_run op : Mono (run resolve timeNow uuidNew op).
Proof.
  assert (Hb : ∀ A (m : M A), Pres grows m → Pres grows (_ ← m; mret ())).
  { intros A m Hm. apply Pres_bind;
      first [ grows_side | done | intros _; apply Pres_ret; grows_side ]. }
  destruct op; simpl; try apply Hb.
  - intros w w' [= <-]. by eapply grows_fresh.
  - intros w w' H. destruct (NewChildLogger_heap _ _ _ _ H) as [[_ Hh]|(lg & Ha & Hh)].
    + by eapply grows_fresh.
    + by eapply grows_childAdded.
  - apply Pres_Close; grows_side.
  - apply Pres_RootLogger; grows_side.
  - apply Pres_Handlers; grows_side.
  - apply Pres_AddHandler; grows_side.
  - apply Pres_PanicOnError; grows_side.
  - apply Pres_SetPanicOnError; grows_side.
  - apply Pres_Log; grows_side.
  - apply Pres_runLeveled; grows_side.
  - apply Pres_Fatal; grows_side.
  - apply Pres_Panic; grows_side.
  - apply Pres_LogReader; grows_side.
Qed.

(** What does not create a logger leaves the links as they are. *)
Lemma run_sameLinks op :
  match op with
  | OpNewLogger | OpNewChildLogger _ _ => True
  | _ => Pres sameLinks (run resolve timeNow uuidNew op)
  end.
Proof.
  assert (Hb : ∀ A (m : M A), Pres sameLinks m → Pres sameLinks (_ ← m; mret ())).
  { intros A m Hm. apply Pres_bind;
      first [ links_side | done | intros _; apply Pres_ret; links_side ]. }
  destruct op; simpl; try done; try apply Hb.
  - apply Pres_Close; links_side.
  - apply Pres_RootLogger; links_side.
  - apply Pres_Handlers; links_side.
  - apply Pres_AddHandler; links_side.
  - apply Pres_PanicOnError; links_side.
  - apply Pres_SetPanicOnError; links_side.
  - apply Pres_Log; links_side.
  - apply Pres_runLeveled; links_side.
  - apply Pres_Fatal; links_side.
  - apply Pres_Panic; links_side.
  - apply Pres_LogReader; links_side.
Qed.

(** Every operation, however it ends, leaves a forest a forest. *)
Lemma run_wf op (w w' : World) :
  wf (heap w) → resWorld (run resolve timeNow uuidNew op w) = Some w' →
  wf (heap w').
Proof.
  intros Hwf H. pose proof (run_sameLinks op) as Hl.
  destruct op; try (by apply (wf_links (heap w)); [apply (Hl w w' H)|]).
  - simpl in H. injection H as <-. by apply freshLogger_wf.
  - assert (H' : resWorld (NewChildLogger resolve timeNow uuidNew stk logger w) = Some w').
    { simpl in H. revert H. munfold.
      by destruct (NewChildLogger _ _ _ _ _ w). }
    destruct (NewChildLogger_heap _ _ _ _ H') as [[_ ->]|(lg & Ha & ->)].
    + by apply freshLogger_wf.
    + by apply childAdded_wf.
Qed.

(** The worlds a program can build are forests. *)
Lemma reachable_wf (w : World) :
  reachable resolve timeNow uuidNew w → wf (heap w).
Proof.
  induction 1 as [|op w w' _ IH Hrun].
  - intros a lg Ha. by destruct a.
  - by apply (run_wf op w).
Qed.

End RunProofs.

(** C3. A closed logger stays closed: whatever operation of the package
    runs, on whatever logger and however it ends, the logger is closed
    afterwards. [Close] on a closed logger returns nil at once: the world
    is the one it was called in, with no call to a handler and no child
    touched. *)
Theorem C3_closed_is_final
    (resolve : list Frame → Try (option Frame * option Err))
    (timeNow : nat → Time) (uuidNew : nat → UUID) (stk : list Frame)
    (a : addr) (w : World) (lg : Logger) :
  heap w !! a = Some lg → state lg = LoggerState_Closed →
  Close resolve timeNow stk a w = Done None w ∧
  ∀ op w', resWorld (run resolve timeNow uuidNew op w) = Some w' →
    ∃ lg', heap w' !! a = Some lg' ∧ state lg' = LoggerState_Closed.
Proof.
  intros Ha Hs. split.
  - by apply (Close_fuel_closed resolve timeNow _ stk a w lg).
  - intros op w' Hw'.
    destruct (Mono_run resolve timeNow uuidNew op w w' Hw' a lg Ha) as (lg' & Hlg' & Hst).
    exists lg'. auto.
Qed.

(** On the chain whose leaf has been closed. *)
Lemma C3_closed_is_final_witness :
  Close getCaller clock0 [mainFrame] 2 closedLeafWorld = Done None closedLeafWorld ∧
  ∀ op w', resWorld (run getCaller clock0 uuid0 op closedLeafWorld) = Some w' →
    ∃ lg', heap w' !! 2 = Some lg' ∧ state lg' = LoggerState_Closed.
Proof.
  apply (C3_closed_is_final getCaller clock0 uuid0 [mainFrame] 2 closedLeafWorld
           (set_state LoggerState_Closed leaf2)).
  - vm_compute. reflexivity.
  - reflexivity.
Defined.

(** Computed: the second [Close] on the leaf adds no call to the trace, and
    a [Close] on its parent afterwards does not notify for the leaf again. *)
Example Close_twice :
  ∃ w',
    (Close getCaller clock0 [mainFrame] 2;;
     Close getCaller clock0 [mainFrame] 2;;
     Close getCaller clock0 [mainFrame] 1) chainWorld2
      = Done (Some (ErrJoin [ErrNew "disk full"])) w' ∧
    closedTargets (trace w') = [2; 2; 1; 1].
Proof. eexists. split; vm_compute; reflexivity. Qed.

(** ** What [Close] calls and writes, however it ends *)

Section EmitProofs.

Variable h0 : list Logger.
Variable P : Call → Prop.
Variable W : addr → Prop.

Lemma emitted_refl w : links (heap w) = links h0 → emitted h0 P W w w.
Proof.
  intros Hl. split; [done|]. split; [done|]. exists []. by rewrite app_nil_r.
Qed.

Lemma emitted_trans w1 w2 w3 :
  emitted h0 P W w1 w2 → emitted h0 P W w2 w3 → emitted h0 P W w1 w3.
Proof.
  intros (_ & Hf1 & ext1 & Ht1 & Hp1) (Hl & Hf2 & ext2 & Ht2 & Hp2).
  split; [done|]. split.
  - intros n Hn. by rewrite Hf2, Hf1.
  - exists (ext1 ++ ext2). split; [by rewrite Ht2, Ht1, app_assoc|].
    by apply Forall_app.
Qed.

Lemma emits_bind {A C} (Q1 : A → Prop) (Q2 : C → Prop) (m : M A) (k : A → M C) :
  emits h0 P W Q1 m → (∀ a, Q1 a → emits h0 P W Q2 (k a)) →
  emits h0 P W Q2 (a ← m; k a).
Proof.
  intros Hm Hk w Hl. specialize (Hm w Hl). munfold.
  destruct (m w) as [a w1|v w1|c w1|]; try done.
  destruct Hm as [Ha Hw1]. specialize (Hk a Ha w1 (proj1 Hw1)).
  destruct (k a w1) as [b w2|v w2|c w2|]; try done.
  - destruct Hk as [Hb Hw2]. split; [done|]. by apply (emitted_trans w w1).
  - by apply (emitted_trans w w1).
  - by apply (emitted_trans w w1).
Qed.

Lemma emits_weaken {A} (Q Q' : A → Prop) (m : M A) :
  (∀ a, Q a → Q' a) → emits h0 P W Q m → emits h0 P W Q' m.
Proof.
  intros HQ Hm w Hl. specialize (Hm w Hl).
  destruct (m w) as [a w1|v w1|c w1|]; try done.
  destruct Hm as [Ha Hw1]. split; [by apply HQ|done].
Qed.

Lemma emits_ret {A} (Q : A → Prop) a : Q a → emits h0 P W Q (mret a).
Proof. intros Ha w Hl. split; [done|by apply emitted_refl]. Qed.

(** Reading through a pointer: the logger read has the children that the
    logger at this address has in [h0]. *)
Lemma emits_deref l :
  emits h0 P W (λ lg, ∃ lg0, h0 !! l = Some lg0 ∧ children lg = children lg0)
    (deref l).
Proof.
  intros w Hl. unfold deref.
  destruct (heap w !! l) as [lg|] eqn:Hlg; [|by apply emitted_refl].
  split; [|by apply emitted_refl].
  assert (H : links (heap w) !! l = Some (parent lg, children lg))
    by (unfold links; by rewrite list_lookup_fmap, Hlg).
  rewrite Hl in H. unfold links in H. rewrite list_lookup_fmap in H.
  destruct (h0 !! l) as [lg0|]; [|done]. injection H as _ Hc.
  by exists lg0.
Qed.

Lemma emits_update l f :
  fieldWrite f → W l → emits h0 P W (λ _, True) (update l f).
Proof.
  intros Hf HW w Hl. unfold update.
  destruct (heap w !! l) as [lg|] eqn:Hlg; [|by apply emitted_refl].
  split; [done|]. split_and!.
  - pose proof (sameLinks_write w l lg f Hlg Hf) as Hs.
    unfold sameLinks in Hs. by rewrite Hs.
  - intros n Hn. simpl. rewrite list_lookup_insert_ne; [done|].
    by intros ->.
  - exists []. by rewrite app_nil_r.
Qed.

Lemma emits_RootLogger_loop fuel : ∀ l,
  emits h0 P W (λ _, True) (RootLogger_loop fuel l).
Proof.
  induction fuel as [|fuel IH]; intros l; simpl; [by intros w Hl|].
  apply (emits_bind _ _ _ _ (emits_deref l)). intros lg _.
  destruct (parent lg); [apply IH|by apply emits_ret].
Qed.

Lemma emits_Handlers l : emits h0 P W (λ _, True) (Handlers l).
Proof.
  unfold Handlers.
  apply (emits_bind (λ _, True)).
  { intros w Hl. by apply (emits_RootLogger_loop _ l w). }
  intros r _. apply (emits_bind _ _ _ _ (emits_deref r)).
  intros lr _. by apply emits_ret.
Qed.

(** The dispatch of a closing: each call is recorded, also the one that
    panics. *)
Lemma emits_rangeOnLoggerClosed hs l now caller :
  (∀ hid res, P (CallClosed hid l now caller res)) →
  ∀ errs, emits h0 P W (λ _, True) (rangeOnLoggerClosed hs l now caller errs).
Proof.
  intros HP. induction hs as [|h hs IH]; intros errs; simpl.
  - by apply emits_ret.
  - apply (emits_bind (λ _, True)); [|intros e _; apply IH].
    intros w Hl. unfold call_OnLoggerClosed.
    assert (He : emitted h0 P W w
              (set_trace (trace w ++ [CallClosed (hid h) l now caller
                                        (OnLoggerClosed h (trace w) l now caller)]) w)).
    { split; [done|]. split; [done|].
      eexists [_]. split; [done|]. by apply Forall_singleton. }
    by destruct (OnLoggerClosed h (trace w) l now caller).
Qed.

Lemma emits_closeChildren (close : addr → M (option Err)) cs :
  (∀ c, c ∈ cs → emits h0 P W (λ _, True) (close c)) →
  ∀ errs, emits h0 P W (λ _, True) (closeChildren close cs errs).
Proof.
  induction cs as [|c cs IH]; intros Hc errs; simpl.
  - by apply emits_ret.
  - apply (emits_bind (λ _, True)); [apply Hc; by left|].
    intros err _. apply IH. intros c' Hc'. apply Hc. by right.
Qed.

End EmitProofs.

Lemma emits_calls h0 (P P' : Call → Prop) (W W' : addr → Prop)
    {A} (Q : A → Prop) (m : M A) :
  (∀ c, P c → P' c) → (∀ n, W n → W' n) →
  emits h0 P W Q m → emits h0 P' W' Q m.
Proof.
  intros HP HW Hm w Hl. specialize (Hm w Hl).
  assert (He : ∀ w', emitted h0 P W w w' → emitted h0 P' W' w w').
  { intros w' (Hl' & Hf & ext & Ht & Hall). split; [done|]. split.
    - intros n Hn. apply Hf. intros Hn'. by apply Hn, HW.
    - exists ext. split; [done|]. by apply (Forall_impl _ _ _ Hall). }
  destruct (m w) as [a w1|v w1|c w1|]; try done; [|by apply He..].
  destruct Hm as [Ha Hw1]. split; [done|by apply He].
Qed.

Section CloseCallers.

Variable resolve : list Frame → Try (option Frame * option Err).
Variable timeNow : nat → Time.
Variable stk : list Frame.
Variable h0 : list Logger.

(** However [Close] on [l] ends, it has only made closing calls for the
    loggers at and below [l], each with the caller the resolver finds at
    that depth, and it has only written loggers at and below [l]. *)
Lemma emits_Close_fuel fuel : ∀ k l,
  emits h0 (closedAt resolve stk h0 l k) (below h0 l) (λ _, True)
    (Close_fuel resolve timeNow fuel (replicate k frame_Close_rec ++ stk) l).
Proof.
  induction fuel as [|fuel IH]; intros k l; simpl; [by intros w Hl|].
  apply (emits_bind _ _ _ _ _ _ _ (emits_deref _ _ _ l)).
  intros lg (lg0 & Hlg0 & Hch).
  destruct (state lg); [|by apply emits_ret].
  apply (emits_bind _ _ _ (λ _, True)).
  { apply emits_closeChildren. intros c Hc.
    apply (emits_calls h0 (closedAt resolve stk h0 c (S k)) _ (below h0 c)).
    - intros call (hid & n & t & caller & res & j & err & -> & Hlev & Hres).
      exists hid, n, t, caller, res, (S j), err. split_and!; [done| |].
      + apply (levelsBelow_prepend h0 l lg0 c); [done|by rewrite <- Hch|done].
      + by replace (k + S j) with (S k + j) by lia.
    - intros n [j Hn]. exists (S j).
      apply (levelsBelow_prepend h0 l lg0 c); [done|by rewrite <- Hch|done].
    - apply (IH (S k) c). }
  intros errs _. unfold callGetCaller.
  fold frame_Close_get. fold (closeStack k stk).
  destruct (resolve (closeStack k stk)) as [[caller err]|v] eqn:Hres;
    [|intros w Hl; by apply emitted_refl].
  apply (emits_bind _ _ _ (λ r, r = (caller, err))).
  { intros w Hl. split; [done|by apply emitted_refl]. }
  intros r ->. destruct (otherError err); [by apply emits_ret|].
  apply (emits_bind _ _ _ (λ _, True)).
  { intros w Hl. unfold time_Now. split; [done|]. split; [done|]. split; [done|].
    exists []. by rewrite app_nil_r. }
  intros now _. apply (emits_bind _ _ _ _ _ _ _ (emits_Handlers _ _ _ l)).
  intros hs _. apply (emits_bind _ _ _ (λ _, True)).
  { apply emits_rangeOnLoggerClosed. intros hid res.
    exists hid, l, now, caller, res, 0, err. split_and!; [done|constructor|].
    by rewrite Nat.add_0_r. }
  intros errs' _. apply (emits_bind _ _ _ (λ _, True)).
  { apply emits_update; [by intros []|]. exists 0. constructor. }
  intros _ _. by apply emits_ret.
Qed.

End CloseCallers.

(** ** The resolver in [Close] *)















(** Computed: with no frame of another module on the stack the resolver
    returns [ErrNoCaller], and [Close] goes on without a caller. *)
Example Close_without_caller :
  ∃ w',
    getCaller (closeStack 0 []) = Value_ (None, Some ErrNoCaller) ∧
    Close getCaller clock0 [] 2 chainWorld2
      = Done (Some (ErrJoin [ErrNew "disk full"])) w' ∧
    closedWith <$> drop (length (trace chainWorld2)) (trace w')
      = [Some (2, None); Some (2, None)] ∧
    state <$> heap w'
      = [LoggerState_Open; LoggerState_Open; LoggerState_Closed].
Proof. eexists. split_and!; vm_compute; reflexivity. Qed.

(** ** A closing call that panics *)



(** * More of the package *)

(** ** [getModulePath] *)

Lemma strings_Contains_app a b c :
  strings_Contains (a +:+ b) c = strings_Contains a c || strings_Contains b c.
Proof.
  induction a as [|x a IH]; simpl; [done|].
  by rewrite IH, orb_assoc.
Qed.

Lemma lastIndex_from_absent s c : ∀ i found,
  strings_Contains s c = false → lastIndex_from i found s c = found.
Proof.
  induction s as [|x s IH]; intros i found; simpl; [done|].
  intros [Hx Hs]%orb_false_elim. rewrite Hx. by apply IH.
Qed.

Lemma lastIndex_from_app a b c : ∀ i found,
  lastIndex_from i found (a +:+ b) c
  = lastIndex_from (i + Z.of_nat (String.length a)) (lastIndex_from i found a c) b c.
Proof.
  induction a as [|x a IH]; intros i found; simpl.
  - by rewrite Z.add_0_r.
  - rewrite IH. f_equal. lia.
Qed.

(** The index of the last [c], when there is one. *)
Lemma lastIndex_from_present s c : ∀ i found,
  strings_Contains s c = true →
  (i ≤ lastIndex_from i found s c < i + Z.of_nat (String.length s))%Z.
Proof.
  induction s as [|x s IH]; intros i found; simpl; [done|].
  pose proof (IH (i + 1)%Z i) as IH1.
  pose proof (IH (i + 1)%Z found) as IH2.
  pose proof (lastIndex_from_absent s c (i + 1)%Z i) as Hab. clear IH.
  destruct (Ascii.eqb x c) eqn:Hx; simpl.
  - intros _. destruct (strings_Contains s c).
    + specialize (IH1 eq_refl). lia.
    + rewrite Hab by done. lia.
  - intros Hs. specialize (IH2 Hs). lia.
Qed.

Lemma strings_LastIndex_absent s c :
  strings_Contains s c = false → strings_LastIndex s c = (-1)%Z.
Proof. apply lastIndex_from_absent. Qed.

Lemma strings_LastIndex_present s c :
  strings_Contains s c = true →
  (0 ≤ strings_LastIndex s c < Z.of_nat (String.length s))%Z.
Proof. intros H. apply (lastIndex_from_present s c 0 (-1) H). Qed.

(** The last [c] of [a ++ c ++ b] when [b] has none. *)
Lemma strings_LastIndex_last a b c :
  strings_Contains b c = false →
  strings_LastIndex (a +:+ String c b) c = Z.of_nat (String.length a).
Proof.
  intros Hb. unfold strings_LastIndex. rewrite lastIndex_from_app. simpl.
  rewrite Ascii.eqb_refl. by rewrite lastIndex_from_absent.
Qed.

Lemma substring_prefix m rest :
  String.substring 0 (String.length m) (m +:+ rest) = m.
Proof.
  induction m as [|x m IH]; simpl.
  - by destruct rest.
  - by rewrite IH.
Qed.

Lemma substring_split s : ∀ n,
  n < String.length s →
  ∃ rest, s = String.substring 0 n s +:+ rest ∧ rest ≠ "".
Proof.
  induction s as [|x s IH]; intros n; simpl; [lia|].
  destruct n as [|n].
  - intros _. by exists (String x s).
  - intros Hn. destruct (IH n ltac:(lia)) as (rest & Hs & Hr).
    exists rest. split; [|done].
    change (String x s = String x (String.substring 0 n s +:+ rest)).
    f_equal. exact Hs.
Qed.

(** The string whose last [c] is its first byte. *)
Lemma strings_LastIndex_zero s c :
  strings_Contains s c = true → strings_LastIndex s c = 0%Z →
  ∃ rest, s = String c rest ∧ strings_Contains rest c = false.
Proof.
  destruct s as [|x s]; simpl; [done|]. unfold strings_LastIndex. simpl.
  intros _ H0. destruct (strings_Contains s c) eqn:Hs.
  - pose proof (lastIndex_from_present s c (0 + 1)
                  (if Ascii.eqb x c then 0%Z else (-1)%Z) Hs). lia.
  - rewrite lastIndex_from_absent in H0 by done.
    destruct (Ascii.eqb x c) eqn:Hx; [|done].
    apply Ascii.eqb_eq in Hx as ->. by exists s.
Qed.

(** X1. On the name of a function, [m.name], and on the name of a method,
    where the module is followed by a dot and the receiver type in
    parentheses, [getModulePath] returns the module [m]: the text before
    the last dot when the name has no parenthesis, and the text before the
    byte in front of the last opening parenthesis when it has one. *)
Theorem X1_getModulePath_well_formed (m name method : string) :
  strings_Contains m "(" = false →
  strings_Contains name "(" = false → strings_Contains name "." = false →
  strings_Contains method "(" = false →
  getModulePath (m +:+ "." +:+ name) = Value_ m ∧
  getModulePath (m +:+ ".(" +:+ method) = Value_ m.
Proof.
  intros Hm Hname Hdot Hmethod. split.
  - change ("." +:+ name) with (String "." name).
    unfold getModulePath. rewrite strings_Contains_app, Hm.
    cbn [strings_Contains orb Ascii.eqb Bool.eqb]. rewrite Hname.
    rewrite strings_LastIndex_last by done.
    destruct (Z.eqb_spec (Z.of_nat (String.length m)) (-1)); [lia|].
    rewrite Nat2Z.id. by rewrite substring_prefix.
  - change (".(" +:+ method) with (String "." (String "(" method)).
    assert (Hs : m +:+ String "." (String "(" method)
                 = (m +:+ ".") +:+ String "(" method).
    { clear. induction m as [|x m IH]; [done|].
      change (String x (m +:+ String "." (String "(" method))
              = String x ((m +:+ ".") +:+ String "(" method)).
      by rewrite IH. }
    assert (Hl : String.length (m +:+ ".") = S (String.length m)).
    { clear. induction m as [|x m IH]; [done|].
      change (S (String.length (m +:+ ".")) = S (S (String.length m))).
      by rewrite IH. }
    assert (HL : strings_LastIndex (m +:+ String "." (String "(" method)) "("
                 = Z.of_nat (S (String.length m))).
    { rewrite Hs, strings_LastIndex_last by done. by rewrite Hl. }
    unfold getModulePath. rewrite strings_Contains_app.
    cbn [strings_Contains orb Ascii.eqb Bool.eqb]. rewrite orb_true_r, HL.
    destruct (Z.eqb_spec (Z.of_nat (S (String.length m)) - 1) (-1)); [lia|].
    replace (Z.to_nat (Z.of_nat (S (String.length m)) - 1))
      with (String.length m) by lia.
    by rewrite substring_prefix.
Qed.

(** On the names of [NewLogger] and of the method [Log]. *)
Lemma X1_getModulePath_well_formed_witness :
  getModulePath (pkg +:+ "." +:+ "NewLogger") = Value_ pkg ∧
  getModulePath (pkg +:+ ".(" +:+ "*Logger).Log") = Value_ pkg.
Proof.
  apply (X1_getModulePath_well_formed pkg "NewLogger" "*Logger).Log");
    vm_compute; reflexivity.
Defined.

(** X2. [getModulePath] panics on exactly two kinds of names: those with
    neither a parenthesis nor a dot, and those whose only opening
    parenthesis is their first byte. A name with a parenthesis is never
    searched for a dot. When [getModulePath] returns, the result is a
    prefix of the name, and shorter than the name. *)
Theorem X2_getModulePath_panic_or_prefix (s : string) :
  (∀ v, getModulePath s = Panic_ v ↔
     v = PanicString "malformed module name does not contain a . delimiter" ∧
     ((strings_Contains s "(" = false ∧ strings_Contains s "." = false) ∨
      ∃ rest, s = String "(" rest ∧ strings_Contains rest "(" = false)) ∧
  (∀ m, getModulePath s = Value_ m → ∃ rest, s = m +:+ rest ∧ rest ≠ "").
Proof.
  unfold getModulePath.
  destruct (strings_Contains s "(") eqn:Hp.
  - pose proof (strings_LastIndex_present s "(" Hp) as HL.
    destruct (Z.eqb_spec (strings_LastIndex s "(" - 1) (-1)) as [He|He]; split.
    + intros v. split.
      * intros [= <-]. split; [done|]. right.
        apply strings_LastIndex_zero; [done|lia].
      * intros [-> _]. done.
    + done.
    + intros v. split; [done|]. intros [_ [[? _]|(rest & -> & Hr)]]; [done|].
      pose proof (strings_LastIndex_last "" rest "(" Hr) as H0.
      change ("" +:+ String "(" rest) with (String "(" rest) in H0.
      simpl in H0. lia.
    + intros m [= <-]. apply substring_split. lia.
  - destruct (Z.eqb_spec (strings_LastIndex s ".") (-1)) as [He|He]; split.
    + intros v. split.
      * intros [= <-]. split; [done|]. left. split; [done|].
        destruct (strings_Contains s ".") eqn:Hd; [|done].
        pose proof (strings_LastIndex_present s "." Hd). lia.
      * intros [-> _]. done.
    + done.
    + intros v. split; [done|]. intros [_ [[_ Hd]|(rest & -> & Hr)]].
      * by rewrite strings_LastIndex_absent in He.
      * simpl in Hp. done.
    + intros m [= <-]. apply substring_split.
      destruct (strings_Contains s ".") eqn:Hd.
      * pose proof (strings_LastIndex_present s "." Hd). lia.
      * by rewrite strings_LastIndex_absent in He.
Qed.

(** ** [getCaller] *)

Lemma getCaller_loop_char thisModule frames :
  frames ≠ [] →
  match getCaller_loop thisModule frames with
  | Value_ (Some f, err) =>
      err = None ∧
      ∃ own rest m,
        frames = own ++ f :: rest ∧
        Forall (λ g, getModulePath (Function g) = Value_ thisModule) own ∧
        getModulePath (Function f) = Value_ m ∧ m ≠ thisModule
  | Value_ (None, err) =>
      err = Some ErrNoCaller ∧
      Forall (λ g, getModulePath (Function g) = Value_ thisModule) frames
  | Panic_ v => ∃ g, g ∈ frames ∧ getModulePath (Function g) = Panic_ v
  end.
Proof.
  induction frames as [|frame rest IH]; [done|]. intros _. simpl.
  destruct (getModulePath (Function frame)) as [m|v] eqn:Hm.
  - case_bool_decide as Hne.
    + split; [done|]. exists [], rest, m. by split_and!.
    + assert (m = thisModule) as -> by (by destruct (decide (m = thisModule))).
      destruct rest as [|f rest].
      * split; [done|]. by apply Forall_singleton.
      * specialize (IH ltac:(done)).
        destruct (getCaller_loop thisModule (f :: rest)) as [[[g|] err]|v].
        -- destruct IH as (-> & own & rest' & m & Hfr & Hown & Hg & Hne').
           split; [done|]. exists (frame :: own), rest', m.
           split_and!; [by rewrite Hfr|by apply Forall_cons|done|done].
        -- destruct IH as (-> & Hall). split; [done|]. by apply Forall_cons.
        -- destruct IH as (g & Hg & Hv). exists g. split; [|done].
           by apply list_elem_of_further.
  - exists frame. split; [|done]. apply list_elem_of_here.
Qed.

(** X3. [getCaller] looks at the first eight frames of the stack, its own
    frame first. The frame it returns is the first of them, after its own,
    whose module is not the module of its own frame, and it comes with no
    error. It returns no frame, with [ErrNoCaller] and no other error, when
    there is no such frame among the eight: every frame after the first has
    the module of the first. It panics only with the panic of
    [getModulePath] on the name of one of the eight frames. *)
Theorem X3_getCaller_first_foreign_frame (stack : list Frame) :
  match getCaller stack with
  | Value_ (Some f, err) =>
      err = None ∧
      ∃ first own rest thisModule m,
        take 8 stack = first :: own ++ f :: rest ∧
        getModulePath (Function first) = Value_ thisModule ∧
        Forall (λ g, getModulePath (Function g) = Value_ thisModule) own ∧
        getModulePath (Function f) = Value_ m ∧ m ≠ thisModule
  | Value_ (None, err) =>
      err = Some ErrNoCaller ∧
      ∀ first rest g, take 8 stack = first :: rest → g ∈ rest →
        getModulePath (Function g) = getModulePath (Function first)
  | Panic_ v =>
      ∃ g, g ∈ take 8 stack ∧ getModulePath (Function g) = Panic_ v
  end.
Proof.
  unfold getCaller.
  destruct (take 8 stack) as [|firstFrame [|f rest]].
  - split; [done|]. intros ? ? ? [=].
  - split; [done|]. intros first rest g [= <- <-] Hg. by apply elem_of_nil in Hg.
  - destruct (getModulePath (Function firstFrame)) as [thisModule|v] eqn:Hfirst.
    + pose proof (getCaller_loop_char thisModule (f :: rest) ltac:(done)) as H.
      destruct (getCaller_loop thisModule (f :: rest)) as [[[g|] err]|v].
      * destruct H as (-> & own & rest' & m & Hfr & Hown & Hg & Hne).
        split; [done|]. exists firstFrame, own, rest', thisModule, m.
        split_and!; [by rewrite Hfr|done..].
      * destruct H as (-> & Hall). split; [done|].
        intros first rest' g [= <- <-] Hg. rewrite Hfirst.
        by apply (proj1 (Forall_forall _ _) Hall).
      * destruct H as (g & Hg & Hv). exists g. split; [|done].
        by apply list_elem_of_further.
    + exists firstFrame. split; [|done]. apply list_elem_of_here.
Qed.

Lemma getCaller_loop_skip thisModule g rest :
  getModulePath (Function g) = Value_ thisModule → rest ≠ [] →
  getCaller_loop thisModule (g :: rest) = getCaller_loop thisModule rest.
Proof.
  intros Hg Hrest. simpl. rewrite Hg.
  rewrite bool_decide_false by (intros H; by apply H).
  by destruct rest.
Qed.

Lemma getCaller_loop_hit thisModule f rest m :
  getModulePath (Function f) = Value_ m → m ≠ thisModule →
  getCaller_loop thisModule (f :: rest) = Value_ (Some f, None).
Proof. intros Hf Hne. simpl. rewrite Hf. by rewrite bool_decide_true. Qed.

Lemma getCaller_closeStack k f stk m :
  getModulePath (Function f) = Value_ m → m ≠ pkg →
  getCaller (closeStack k (f :: stk))
  = if bool_decide (k ≤ 5) then Value_ (Some f, None)
    else Value_ (None, Some ErrNoCaller).
Proof.
  intros Hf Hne.
  assert (Hgc : getModulePath (Function frame_getCaller) = Value_ pkg)
    by (vm_compute; reflexivity).
  assert (Hcg : getModulePath (Function frame_Close_get) = Value_ pkg)
    by (vm_compute; reflexivity).
  assert (Hcr : getModulePath (Function frame_Close_rec) = Value_ pkg)
    by (vm_compute; reflexivity).
  case_bool_decide as Hk.
  - unfold getCaller, closeStack.
    do 6 (destruct k as [|k]; [
      cbn [replicate app take]; rewrite Hgc;
      rewrite ?getCaller_loop_skip by done;
      by apply (getCaller_loop_hit pkg f _ m)|]).
    lia.
  - do 6 (destruct k as [|k]; [lia|]).
    unfold getCaller, closeStack. cbn [replicate app take]. rewrite Hgc.
    rewrite !getCaller_loop_skip by done.
    cbn [getCaller_loop]. rewrite Hcr.
    by rewrite bool_decide_false by (intros H; by apply H).
Qed.

(** X4. The caller [Close] reports depends on the depth of the recursion.
    When [Close] is called from the frame [f] of another module, the
    [Close] of a logger [k] levels below calls [getCaller] under [k + 2]
    frames of the package. Down to the fifth level [getCaller] still finds
    [f]; from the sixth level on the eight frames it looks at are all
    frames of the package, and it returns no frame and [ErrNoCaller],
    whatever the stack holds further out. *)
Theorem X4_Close_caller_window (k : nat) (f : Frame) (stk : list Frame)
    (m : string) :
  getModulePath (Function f) = Value_ m → m ≠ pkg →
  getCaller (closeStack k (f :: stk))
  = if bool_decide (k ≤ 5) then Value_ (Some f, None)
    else Value_ (None, Some ErrNoCaller).
Proof. apply getCaller_closeStack. Qed.

(** [Close] called from [main], at the fifth and at the sixth level. *)
Lemma X4_Close_caller_window_witness :
  getCaller (closeStack 5 [mainFrame]) = Value_ (Some mainFrame, None) ∧
  getCaller (closeStack 6 [mainFrame]) = Value_ (None, Some ErrNoCaller).
Proof.
  split.
  - apply (X4_Close_caller_window 5 mainFrame [] "main");
      [vm_compute; reflexivity|discriminate].
  - apply (X4_Close_caller_window 6 mainFrame [] "main");
      [vm_compute; reflexivity|discriminate].
Defined.

(** Under a [Close] called from a frame of another module on a logger that
    has nothing six levels below it, every closing call carries a caller:
    handlers that return when they are given one, like the JSON handler,
    return from all of them. *)
Lemma closingReturns_shallow f stk m h a hs :
  getModulePath (Function f) = Value_ m → m ≠ pkg →
  (∀ n j, levelsBelow h a n j → j ≤ 5) →
  Forall (λ hd, ∀ t l now frame, ∃ res,
            OnLoggerClosed hd t l now (Some frame) = Value_ res) hs →
  closingReturns getCaller (f :: stk) h a hs.
Proof.
  intros Hf Hne Hdepth Hall l k caller err Hl Hr hd t now Hin.
  rewrite (getCaller_closeStack k f stk m Hf Hne) in Hr.
  rewrite bool_decide_true in Hr by (by eapply Hdepth).
  injection Hr as <- _. rewrite Forall_forall in Hall. by apply Hall.
Qed.

(** ** [Fatal] and [Panic] *)

Lemma neverExits_bind {A C} (m : M A) (k : A → M C) :
  neverExits m → (∀ a, neverExits (k a)) → neverExits (a ← m; k a).
Proof.
  intros Hm Hk w c w'. munfold.
  destruct (m w) as [a w1|v w1|c1 w1|] eqn:Hmw; try done.
  - apply Hk.
  - by destruct (Hm w c1 w1).
Qed.

Lemma neverExits_ret {A} (a : A) : neverExits (mret a : M A).
Proof. by intros w c w'. Qed.

Lemma neverExits_deref l : neverExits (deref l).
Proof. intros w c w'. unfold deref. by destruct (heap w !! l). Qed.

Lemma neverExits_RootLogger_loop fuel : ∀ l, neverExits (RootLogger_loop fuel l).
Proof.
  induction fuel as [|fuel IH]; intros l; simpl; [by intros w c w'|].
  apply neverExits_bind; [apply neverExits_deref|].
  intros lg. destruct (parent lg); [apply IH|apply neverExits_ret].
Qed.

Lemma neverExits_RootLogger l : neverExits (RootLogger l).
Proof. intros w. apply neverExits_RootLogger_loop. Qed.

Lemma neverExits_Handlers l : neverExits (Handlers l).
Proof.
  apply neverExits_bind; [apply neverExits_RootLogger|]. intros r.
  apply neverExits_bind; [apply neverExits_deref|]. intros lg.
  apply neverExits_ret.
Qed.

Lemma neverExits_PanicOnError l : neverExits (PanicOnError l).
Proof.
  apply neverExits_bind; [apply neverExits_RootLogger|]. intros r.
  apply neverExits_bind; [apply neverExits_deref|]. intros lg.
  apply neverExits_ret.
Qed.

Lemma neverExits_rangeHandleRecord hs l record : ∀ errs,
  neverExits (rangeHandleRecord hs l record errs).
Proof.
  induction hs as [|h hs IH]; intros errs; simpl; [apply neverExits_ret|].
  apply neverExits_bind; [by intros w c w'|]. intros e. apply IH.
Qed.

Lemma neverExits_Log resolve timeNow stk l level message args :
  neverExits (Log resolve timeNow stk l level message args).
Proof.
  apply neverExits_bind.
  { intros w c w'. unfold callGetCaller, liftTry. by destruct (resolve _). }
  intros [caller err]. destruct (otherErrorIs err); [apply neverExits_ret|].
  apply neverExits_bind; [by intros w c w'|]. intros now.
  apply neverExits_bind; [apply neverExits_Handlers|]. intros hs.
  apply neverExits_bind; [apply neverExits_rangeHandleRecord|]. intros errs.
  apply neverExits_ret.
Qed.

(** X5. [Fatal] and [Panic] do not return to their caller, whatever the
    resolver, the handlers and the tree are. When [Fatal] ends the process
    the status is 1, and [Panic] never ends the process with [os.Exit]: it
    panics, unless it runs forever on a cycle of parents. *)
Theorem X5_Fatal_and_Panic_never_return
    (resolve : list Frame → Try (option Frame * option Err))
    (timeNow : nat → Time) (stk : list Frame) (a : addr)
    (message : string) (args : list Any) (w : World) :
  (∀ x w', Fatal resolve timeNow stk a message args w ≠ Done x w') ∧
  (∀ c w', Fatal resolve timeNow stk a message args w = Exits c w' → c = 1%Z) ∧
  (∀ x w', Panic resolve timeNow stk a message args w ≠ Done x w') ∧
  (∀ c w', Panic resolve timeNow stk a message args w ≠ Exits c w').
Proof.
  pose proof (neverExits_Log resolve timeNow) as HL.
  pose proof neverExits_PanicOnError as HP.
  unfold Fatal, Panic. munfold. split_and!.
  - intros x w'.
    destruct (Log _ _ _ _ _ _ _ w) as [[e|] w1| | |]; try done.
    destruct (PanicOnError a w1) as [[] w2| | |]; done.
  - intros c w'.
    destruct (Log _ _ _ _ _ _ _ w) as [[e|] w1|v w1|c1 w1|] eqn:Hlog; try done.
    + destruct (PanicOnError a w1) as [[] w2|v w2|c2 w2|] eqn:Hp; try done.
      * unfold os_Exit. by intros [= <- _].
      * by destruct (HP a w1 c2 w2).
    + unfold os_Exit. by intros [= <- _].
    + by destruct (HL _ _ _ _ _ _ _ _ Hlog).
  - intros x w'.
    destruct (Log _ _ _ _ _ _ _ w) as [[e|] w1| | |]; try done.
    destruct (PanicOnError a w1) as [[] w2| | |]; done.
  - intros c w'.
    destruct (Log _ _ _ _ _ _ _ w) as [[e|] w1|v w1|c1 w1|] eqn:Hlog; try done.
    + destruct (PanicOnError a w1) as [[] w2|v w2|c2 w2|] eqn:Hp; try done.
      by destruct (HP a w1 c2 w2).
    + by destruct (HL _ _ _ _ _ _ _ _ Hlog).
Qed.

Lemma resolves_otherErrorIs (err : option Err) :
  otherError err = false → otherErrorIs err = false.
Proof. by destruct err as [[]|]. Qed.

(** X6. [Fatal] first dispatches a record of level [LevelFatal] to every
    handler of the root, in order. Then it panics with the aggregate of
    their answers when there is a non-nil answer and [panicOnError] is set,
    and ends the process with status 1 otherwise. *)
Theorem X6_Fatal_dispatches_then_ends
    (resolve : list Frame → Try (option Frame * option Err))
    (timeNow : nat → Time) (stk : list Frame) (a : addr)
    (w : World) (hs : list Handler) (flag : bool)
    (message : string) (args : list Any) :
  Handlers a w = Done hs w →
  PanicOnError a w = Done flag w →
  resolves (resolve (logStack (frame_Fatal :: stk))) →
  ∃ calls caller,
    dispatched
      (mkRecorded a (mkRecord (timeNow (ticks w)) LevelFatal message caller
                       (argsToAttrs args)))
      hs (trace w) calls ∧
    Fatal resolve timeNow stk a message args w
    = match errors_Join (callResult <$> calls) with
      | Some e =>
          if flag
          then Panics (PanicError e) (set_trace (trace w ++ calls) (tick w))
          else Exits 1 (set_trace (trace w ++ calls) (tick w))
      | None => Exits 1 (set_trace (trace w ++ calls) (tick w))
      end.
Proof.
  intros Hh Hp (caller & err & Hr & Ho).
  apply resolves_otherErrorIs in Ho.
  destruct (Log_dispatch resolve timeNow (frame_Fatal :: stk) a LevelFatal
              message args w caller err hs Hr Ho Hh) as (calls & Hrun & Hd).
  exists calls, caller. split; [exact Hd|].
  set (w' := set_trace (trace w ++ calls) (tick w)) in *.
  assert (Hp' : PanicOnError a w' = Done flag w')
    by (by apply (PanicOnError_sameTree a w)).
  unfold Fatal. munfold. fold frame_Fatal. rewrite Hrun.
  destruct (errors_Join (callResult <$> calls)); [|done].
  rewrite Hp'. by destruct flag.
Qed.

(** [Fatal] on the leaf of the chain whose root has a failing handler. *)
Lemma X6_Fatal_dispatches_then_ends_witness :
  ∃ calls caller,
    dispatched
      (mkRecorded 2 (mkRecord (clock0 (ticks chainWorld2)) LevelFatal "lost" caller
                       (argsToAttrs [])))
      twoHandlers (trace chainWorld2) calls ∧
    Fatal getCaller clock0 [mainFrame] 2 "lost" [] chainWorld2
    = match errors_Join (callResult <$> calls) with
      | Some e =>
          if false
          then Panics (PanicError e) (set_trace (trace chainWorld2 ++ calls) (tick chainWorld2))
          else Exits 1 (set_trace (trace chainWorld2 ++ calls) (tick chainWorld2))
      | None => Exits 1 (set_trace (trace chainWorld2 ++ calls) (tick chainWorld2))
      end.
Proof.
  apply (X6_Fatal_dispatches_then_ends getCaller clock0 [mainFrame] 2
           chainWorld2 twoHandlers false "lost" []).
  - vm_compute. reflexivity.
  - vm_compute. reflexivity.
  - apply getCaller_resolves.
    do 3 (apply Forall_cons_2; [by eexists; vm_compute|]).
    apply mainStack_wellNamed.
Defined.

(** X7. [Panic] first dispatches a record of level [LevelPanic] to every
    handler of the root, in order. Then it panics: with the aggregate of
    their answers when there is a non-nil answer and [panicOnError] is set,
    and with its fixed message otherwise. *)
Theorem X7_Panic_dispatches_then_panics
    (resolve : list Frame → Try (option Frame * option Err))
    (timeNow : nat → Time) (stk : list Frame) (a : addr)
    (w : World) (hs : list Handler) (flag : bool)
    (message : string) (args : list Any) :
  Handlers a w = Done hs w →
  PanicOnError a w = Done flag w →
  resolves (resolve (logStack (frame_Panic :: stk))) →
  ∃ calls caller,
    dispatched
      (mkRecorded a (mkRecord (timeNow (ticks w)) LevelPanic message caller
                       (argsToAttrs args)))
      hs (trace w) calls ∧
    Panic resolve timeNow stk a message args w
    = Panics
        match errors_Join (callResult <$> calls) with
        | Some e =>
            if flag then PanicError e
            else PanicString "an unrecoverable error has occurred"
        | None => PanicString "an unrecoverable error has occurred"
        end
        (set_trace (trace w ++ calls) (tick w)).
Proof.
  intros Hh Hp (caller & err & Hr & Ho).
  apply resolves_otherErrorIs in Ho.
  destruct (Log_dispatch resolve timeNow (frame_Panic :: stk) a LevelPanic
              message args w caller err hs Hr Ho Hh) as (calls & Hrun & Hd).
  exists calls, caller. split; [exact Hd|].
  set (w' := set_trace (trace w ++ calls) (tick w)) in *.
  assert (Hp' : PanicOnError a w' = Done flag w')
    by (by apply (PanicOnError_sameTree a w)).
  unfold Panic. munfold. fold frame_Panic. rewrite Hrun.
  destruct (errors_Join (callResult <$> calls)); [|done].
  rewrite Hp'. by destruct flag.
Qed.

(** [Panic] on the leaf of the chain whose root has a failing handler. *)
Lemma X7_Panic_dispatches_then_panics_witness :
  ∃ calls caller,
    dispatched
      (mkRecorded 2 (mkRecord (clock0 (ticks chainWorld2)) LevelPanic "lost" caller
                       (argsToAttrs [])))
      twoHandlers (trace chainWorld2) calls ∧
    Panic getCaller clock0 [mainFrame] 2 "lost" [] chainWorld2
    = Panics
        match errors_Join (callResult <$> calls) with
        | Some e =>
            if false then PanicError e
            else PanicString "an unrecoverable error has occurred"
        | None => PanicString "an unrecoverable error has occurred"
        end
        (set_trace (trace chainWorld2 ++ calls) (tick chainWorld2)).
Proof.
  apply (X7_Panic_dispatches_then_panics getCaller clock0 [mainFrame] 2
           chainWorld2 twoHandlers false "lost" []).
  - vm_compute. reflexivity.
  - vm_compute. reflexivity.
  - apply getCaller_resolves.
    do 3 (apply Forall_cons_2; [by eexists; vm_compute|]).
    apply mainStack_wellNamed.
Defined.

(** ** [LogReader] *)

Lemma dispatched_fmap {C} (g : Call → C) mk key hs t0 calls :
  (∀ h t, g (mk h t) = key h) →
  dispatched mk hs t0 calls → g <$> calls = key <$> hs.
Proof.
  intros Hk [Hlen Hcalls]. apply list_eq. intros i.
  rewrite !list_lookup_fmap.
  destruct (hs !! i) as [h|] eqn:Hi.
  - rewrite (Hcalls i h Hi). simpl. by rewrite Hk.
  - apply lookup_ge_None in Hi. rewrite <- Hlen in Hi.
    apply lookup_ge_None in Hi. by rewrite Hi.
Qed.

(** The scans of lines that leave no error pending. *)
Lemma LogReader_spec resolve timeNow stk a hs level format args caller err lines :
  resolve (logStack (frame_LogReader :: stk)) = Value_ (caller, err) →
  otherErrorIs err = false →
  ∀ w, Handlers a w = Done hs w →
  ∃ calls w',
    (∀ tail,
       LogReader resolve timeNow stk a (((λ line, (line, None)) <$> lines) ++ tail)
         level format args w
       = LogReader resolve timeNow stk a tail level format args w') ∧
    heap w' = heap w ∧ ticks w' = ticks w + length lines ∧
    uuids w' = uuids w ∧ trace w' = trace w ++ calls ∧
    recordedBy <$> calls
    = imap (λ i line, mkRecord (timeNow (ticks w + i)) level (format line)
                        caller (argsToAttrs args)) lines
        ≫= (λ r, (λ h, Some (hid h, a, r)) <$> hs).
Proof.
  intros Hr Ho. induction lines as [|line rest IH]; intros w Hh.
  - exists [], w. simpl.
    split_and!; first [done | lia | by rewrite app_nil_r].
  - destruct (Log_dispatch resolve timeNow (frame_LogReader :: stk) a level
                (format line) args w caller err hs Hr Ho Hh) as (calls1 & Hrun1 & Hd1).
    set (w1 := set_trace (trace w ++ calls1) (tick w)) in *.
    assert (Hh1 : Handlers a w1 = Done hs w1)
      by (by apply (Handlers_sameTree a w)).
    destruct (IH w1 Hh1) as (calls2 & w' & Hrun2 & Hheap & Hticks & Hu & Htr & Hrec).
    exists (calls1 ++ calls2), w'. split_and!.
    + intros tail. simpl. munfold. fold frame_LogReader. by rewrite Hrun1.
    + by rewrite Hheap.
    + rewrite Hticks. simpl. lia.
    + by rewrite Hu.
    + rewrite Htr. simpl. by rewrite app_assoc.
    + rewrite fmap_app, Hrec. simpl. rewrite Nat.add_0_r. f_equal.
      * by apply (dispatched_fmap recordedBy
                    (mkRecorded a (mkRecord (timeNow (ticks w)) level (format line)
                                     caller (argsToAttrs args)))
                    (λ h, Some (hid h, a, mkRecord (timeNow (ticks w)) level
                                            (format line) caller (argsToAttrs args)))
                    hs (trace w) calls1 (λ _ _, eq_refl)).
      * f_equal. apply imap_ext. intros i x _. simpl.
        by replace (S (ticks w + i)) with (ticks w + S i) by lia.
Qed.

(** X8. [LogReader] logs the lines of the reader, in order, up to the
    first scan that leaves an error pending: for each line before it one
    record with the formatted line as its message, at the given level and
    with the given arguments, is dispatched to every handler of the root.
    When no scan leaves an error it returns nil, whatever the handlers
    answer: their errors are dropped. When a scan leaves an error,
    [LogReader] returns this error; the token of that scan and what the
    scanner would deliver after it are not logged. The tree is left as it
    was. *)
Theorem X8_LogReader_logs_every_line
    (resolve : list Frame → Try (option Frame * option Err))
    (timeNow : nat → Time) (stk : list Frame) (a : addr) (w : World)
    (hs : list Handler) (lines : list string) (level : Level)
    (format : string → string) (args : list Any) :
  Handlers a w = Done hs w →
  resolves (resolve (logStack (frame_LogReader :: stk))) →
  ∃ caller calls w',
    LogReader resolve timeNow stk a ((λ line, (line, None)) <$> lines)
      level format args w = Done None w' ∧
    (∀ text e rest,
       LogReader resolve timeNow stk a
         (((λ line, (line, None)) <$> lines) ++ (text, Some e) :: rest)
         level format args w = Done (Some e) w') ∧
    heap w' = heap w ∧ ticks w' = ticks w + length lines ∧
    trace w' = trace w ++ calls ∧
    recordedBy <$> calls
    = imap (λ i line, mkRecord (timeNow (ticks w + i)) level (format line)
                        caller (argsToAttrs args)) lines
        ≫= (λ r, (λ h, Some (hid h, a, r)) <$> hs).
Proof.
  intros Hh (caller & err & Hr & Ho).
  apply resolves_otherErrorIs in Ho.
  destruct (LogReader_spec resolve timeNow stk a hs level format args caller err
              lines Hr Ho w Hh) as (calls & w' & Hrun & Hheap & Hticks & Hu & Htr & Hrec).
  exists caller, calls, w'.
  split_and!; [|intros text e rest; by rewrite Hrun|done..].
  specialize (Hrun []). by rewrite app_nil_r in Hrun.
Qed.

(** Two lines read on the leaf of the chain whose root has two handlers, the
    first of which fails; then the same two lines followed by a scan that
    leaves an error. *)
Lemma X8_LogReader_logs_every_line_witness :
  ∃ caller calls w',
    LogReader getCaller clock0 [mainFrame] 2 [("one", None); ("two", None)] LevelInfo
      (String.append "read: ") [] chainWorld2 = Done None w' ∧
    (∀ text e rest,
       LogReader getCaller clock0 [mainFrame] 2
         ([("one", None); ("two", None)] ++ (text, Some e) :: rest) LevelInfo
         (String.append "read: ") [] chainWorld2 = Done (Some e) w') ∧
    heap w' = heap chainWorld2 ∧ ticks w' = ticks chainWorld2 + 2 ∧
    trace w' = trace chainWorld2 ++ calls ∧
    recordedBy <$> calls
    = imap (λ i line, mkRecord (clock0 (ticks chainWorld2 + i)) LevelInfo
                        (String.append "read: " line) caller (argsToAttrs []))
        ["one"; "two"]
        ≫= (λ r, (λ h, Some (hid h, 2, r)) <$> twoHandlers).
Proof.
  apply (X8_LogReader_logs_every_line getCaller clock0 [mainFrame] 2 chainWorld2
           twoHandlers ["one"; "two"] LevelInfo (String.append "read: ") []).
  - vm_compute. reflexivity.
  - apply getCaller_resolves.
    do 3 (apply Forall_cons_2; [by eexists; vm_compute|]).
    apply mainStack_wellNamed.
Defined.

(** Computed: a reader that fails after its first line. The scanner still
    delivers what it holds, with the error pending; [LogReader] returns the
    error and logs the first line only. *)
Example LogReader_failing_reader :
  ∃ w',
    LogReader getCaller clock0 [mainFrame] 2
      [("one", None); ("tw", Some (ErrNew "connection reset")); ("three", None)]
      LevelInfo (String.append "read: ") [] chainWorld2
    = Done (Some (ErrNew "connection reset")) w' ∧
    (Message <$> omap (λ c, match c with CallRecord _ _ r _ => Some r | _ => None end)
                   (drop (length (trace chainWorld2)) (trace w')))
    = ["read: one"; "read: one"].
Proof. eexists. split; vm_compute; reflexivity. Qed.

(** ** The root of a tree *)

Lemma RootLogger_at_root (w : World) r lr :
  heap w !! r = Some lr → parent lr = None → RootLogger r w = Done r w.
Proof.
  intros Hr Hp. unfold RootLogger. simpl. munfold. by rewrite Hr, Hp.
Qed.

Lemma RootLogger_of_under (w : World) r lr b :
  wf (heap w) → heap w !! r = Some lr → parent lr = None →
  under (heap w) r b → RootLogger b w = Done r w.
Proof.
  intros Hwf Hr Hp. induction 1 as [|b lb p Hb Hpb _ IH].
  - by apply (RootLogger_at_root w r lr).
  - by rewrite (RootLogger_child w b lb p).
Qed.

Lemma RootLogger_under (w : World) :
  wf (heap w) → ∀ a r, a < length (heap w) →
  RootLogger a w = Done r w → under (heap w) r a.
Proof.
  intros Hwf a. induction a as [a IH] using lt_wf_ind. intros r Ha Hrun.
  destruct (lookup_lt_is_Some_2 _ _ Ha) as [lg Hlg].
  destruct (parent lg) as [p|] eqn:Hp.
  - destruct (Hwf a lg Hlg) as (Hpar & _).
    destruct (Hpar p Hp) as (Hlt & _).
    rewrite (RootLogger_child w a lg p) in Hrun by done.
    apply (under_child _ _ a lg p); [done|done|].
    apply IH; [done|lia|done].
  - rewrite (RootLogger_at_root w a lg) in Hrun by done.
    injection Hrun as <-. apply under_refl.
Qed.

(** X9. On a tree [RootLogger] returns, and what it returns is the root of
    the tree of the logger: a logger with no parent that the chain of
    parents of the logger reaches, and the only such logger. It is the
    same for every logger of that tree, the root included. *)
Theorem X9_RootLogger_root_of_the_tree (w : World) (a : addr) :
  wf (heap w) → a < length (heap w) →
  ∃ r lr,
    RootLogger a w = Done r w ∧
    heap w !! r = Some lr ∧ parent lr = None ∧
    under (heap w) r a ∧
    (∀ b, under (heap w) r b → RootLogger b w = Done r w) ∧
    (∀ r' lr', heap w !! r' = Some lr' → parent lr' = None →
       under (heap w) r' a → r' = r).
Proof.
  intros Hwf Ha.
  destruct (RootLogger_total w a Hwf Ha) as (r & lr & Hrun & Hr & Hp).
  exists r, lr. split_and!; try done.
  - by apply RootLogger_under.
  - intros b Hb. by apply (RootLogger_of_under w r lr).
  - intros r' lr' Hr' Hp' Hu.
    pose proof (RootLogger_of_under w r' lr' a Hwf Hr' Hp' Hu) as Hrun'.
    rewrite Hrun in Hrun'. by injection Hrun' as ->.
Qed.

(** On the tree with the root 0, its children 1 and 2, and the child 3 of
    1, from the logger 3. *)
Lemma X9_RootLogger_root_of_the_tree_witness :
  ∃ r lr,
    RootLogger 3 familyWorld = Done r familyWorld ∧
    heap familyWorld !! r = Some lr ∧ parent lr = None ∧
    under (heap familyWorld) r 3 ∧
    (∀ b, under (heap familyWorld) r b → RootLogger b familyWorld = Done r familyWorld) ∧
    (∀ r' lr', heap familyWorld !! r' = Some lr' → parent lr' = None →
       under (heap familyWorld) r' 3 → r' = r).
Proof.
  apply (X9_RootLogger_root_of_the_tree familyWorld 3).
  - apply wfb_wf. vm_compute. reflexivity.
  - vm_compute. lia.
Defined.

(** ** The worlds a program can build *)

Lemma linksGrow_refl (h : list Logger) : linksGrow h h.
Proof. intros i lg Hi. by exists lg. Qed.

Lemma linksGrow_sameLinks (w w' : World) :
  sameLinks w w' → linksGrow (heap w) (heap w').
Proof.
  intros Hl i lg Hi. unfold sameLinks, links in Hl.
  assert (Hi' : ((λ l, (parent l, children l)) <$> heap w) !! i
                = Some (parent lg, children lg))
    by (by rewrite list_lookup_fmap, Hi).
  rewrite <- Hl, list_lookup_fmap in Hi'.
  destruct (heap w' !! i) as [lg'|]; [|done].
  injection Hi' as Hp Hc. exists lg'. by rewrite Hp, Hc.
Qed.

Lemma linksGrow_childAdded h a lg u :
  h !! a = Some lg → linksGrow h (childAdded h a lg u).
Proof.
  intros Ha i li Hi. destruct (decide (i = a)) as [->|Hne].
  - assert (li = lg) as -> by congruence.
    exists (set_children (children lg ++ [length h]) lg).
    split_and!; [by apply childAdded_lookup_parent|done|].
    by apply prefix_app_r.
  - exists li. split_and!; [|done|done].
    rewrite childAdded_lookup_other; [done|done|by eapply lookup_lt_Some].
Qed.

Lemma linksGrow_fresh h lg : linksGrow h (h ++ [lg]).
Proof.
  intros i li Hi. exists li. split_and!; [|done|done].
  by apply lookup_app_l_Some.
Qed.

(** X10. No operation of the package unlinks a logger. Whatever operation
    runs and however it ends, every logger is still in the store, with the
    parent it had, and the children it had are still its first children,
    in the same order: [Close] marks loggers closed and leaves them in the
    tree, and [NewChildLogger] appends. The store of a tree stays the
    store of a tree. *)
Theorem X10_operations_never_unlink
    (resolve : list Frame → Try (option Frame * option Err))
    (timeNow : nat → Time) (uuidNew : nat → UUID) (op : Op) (w w' : World) :
  resWorld (run resolve timeNow uuidNew op w) = Some w' →
  linksGrow (heap w) (heap w') ∧ (wf (heap w) → wf (heap w')).
Proof.
  intros H. split; [|intros Hwf; by apply (run_wf resolve timeNow uuidNew op w)].
  pose proof (run_sameLinks resolve timeNow uuidNew op) as Hl.
  destruct op; try (by apply linksGrow_sameLinks, Hl).
  - simpl in H. injection H as <-. apply linksGrow_fresh.
  - assert (H' : resWorld (NewChildLogger resolve timeNow uuidNew stk logger w) = Some w').
    { simpl in H. revert H. munfold.
      by destruct (NewChildLogger _ _ _ _ _ w). }
    destruct (NewChildLogger_heap _ _ _ _ _ _ _ H') as [[_ ->]|(lg & Ha & ->)].
    + apply linksGrow_fresh.
    + by apply linksGrow_childAdded.
Qed.

(** [Close] on the root of the chain 0 -> 1 -> 2. *)
Lemma X10_operations_never_unlink_witness :
  linksGrow (heap (chainWorld (quietHandler 7))) (heap closedChainWorld) ∧
  (wf (heap (chainWorld (quietHandler 7))) → wf (heap closedChainWorld)).
Proof.
  apply (X10_operations_never_unlink getCaller clock0 uuid0
           (OpClose [mainFrame] 0) (chainWorld (quietHandler 7)) closedChainWorld).
  vm_compute. reflexivity.
Defined.

Lemma reachable_runFrom ops : ∀ w,
  reachable getCaller clock0 uuid0 w →
  reachable getCaller clock0 uuid0 (runFrom w ops).
Proof.
  induction ops as [|op ops IH]; intros w Hw; [done|].
  simpl. apply IH.
  destruct (resWorld (run getCaller clock0 uuid0 op w)) as [w'|] eqn:Hrun; [|done].
  by apply (reachable_step _ _ _ op w).
Qed.

(** X11. Every world a program can build with the operations of the
    package, whatever they were called on and however they ended, is a
    forest: parents and child lists agree and no chain of parents runs in a
    cycle. So [RootLogger], [Handlers] and [PanicOnError] return for every
    logger of such a world, with the handlers and the flag stored in a
    logger that has no parent. *)
Theorem X11_reachable_worlds_are_forests
    (resolve : list Frame → Try (option Frame * option Err))
    (timeNow : nat → Time) (uuidNew : nat → UUID) (w : World) :
  reachable resolve timeNow uuidNew w →
  wf (heap w) ∧
  ∀ a, a < length (heap w) →
    ∃ r lr,
      heap w !! r = Some lr ∧ parent lr = None ∧
      RootLogger a w = Done r w ∧
      Handlers a w = Done (handlers lr) w ∧
      PanicOnError a w = Done (panicOnError lr) w.
Proof.
  intros Hw. pose proof (reachable_wf resolve timeNow uuidNew w Hw) as Hwf.
  split; [done|]. intros a Ha.
  destruct (RootLogger_total w a Hwf Ha) as (r & lr & Hrun & Hr & Hp).
  exists r, lr. split_and!; [done|done|done| |].
  - by apply (Handlers_root w a r lr).
  - by apply (PanicOnError_root w a r lr).
Qed.

(** On a world built by five operations. *)
Lemma X11_reachable_worlds_are_forests_witness :
  wf (heap builtWorld) ∧
  ∀ a, a < length (heap builtWorld) →
    ∃ r lr,
      heap builtWorld !! r = Some lr ∧ parent lr = None ∧
      RootLogger a builtWorld = Done r builtWorld ∧
      Handlers a builtWorld = Done (handlers lr) builtWorld ∧
      PanicOnError a builtWorld = Done (panicOnError lr) builtWorld.
Proof.
  apply (X11_reachable_worlds_are_forests getCaller clock0 uuid0 builtWorld).
  apply reachable_runFrom, reachable_empty.
Defined.

(** ** Closing twice *)



(** ** [NewChildLogger] when the resolver fails *)

(** X13. [NewChildLogger] links the child before it asks for the caller.
    When the resolver panics, or returns an error other than [ErrNoCaller],
    [NewChildLogger] panics with that value: no handler has been notified
    and the clock has not been read, but the child is already in the store,
    with the receiver as its parent and as the last child of the
    receiver. *)
Theorem X13_NewChildLogger_links_before_it_fails
    (resolve : list Frame → Try (option Frame * option Err))
    (timeNow : nat → Time) (uuidNew : nat → UUID) (stk : list Frame)
    (a : addr) (w : World) (lg : Logger) :
  heap w !! a = Some lg →
  (∀ v, resolve (childStack stk) = Panic_ v →
     NewChildLogger resolve timeNow uuidNew stk a w
     = Panics v (childLinked w a lg (uuidNew (uuids w)))) ∧
  (∀ caller e, resolve (childStack stk) = Value_ (caller, Some e) →
     isErrNoCaller e = false →
     NewChildLogger resolve timeNow uuidNew stk a w
     = Panics (PanicError e) (childLinked w a lg (uuidNew (uuids w)))).
Proof.
  intros Ha.
  pose proof (lookup_lt_Some _ _ _ Ha) as Halt.
  set (c := length (heap w)). set (u := uuidNew (uuids w)).
  assert (Hheap : <[a := set_children (children lg ++ [c]) lg]>
                    (<[c := set_parent (Some a) (freshLogger u)]>
                       (heap w ++ [freshLogger u]))
                  = childAdded (heap w) a lg u).
  { unfold childAdded. fold c.
    rewrite (insert_app_r_alt _ _ c) by (unfold c; lia).
    unfold c at 1. rewrite Nat.sub_diag. simpl.
    by rewrite insert_app_l. }
  assert (Hrun : ∀ r,
    resolve (childStack stk) = r →
    NewChildLogger resolve timeNow uuidNew stk a w
    = (r ← liftTry r;
       let '(caller, err) := r in
       if otherError err then
         match err with Some e => panic (PanicError e) | None => mret c end
       else
         now ← time_Now timeNow;
         hs ← Handlers c;
         rangeOnLoggerCreated hs c now caller;;
         mret c) (childLinked w a lg u)).
  { intros r <-.
    unfold NewChildLogger, isNil, NewLogger, uuid_New, alloc, callGetCaller. munfold.
    rewrite bool_decide_false by (by rewrite Ha). simpl. fold c u.
    rewrite (list_lookup_middle (heap w) [] _ c eq_refl). simpl.
    rewrite !list_lookup_insert_ne by (unfold c; lia).
    rewrite !lookup_app_l by done. rewrite Ha. simpl.
    rewrite !list_lookup_insert_ne by (unfold c; lia).
    rewrite !lookup_app_l by done. rewrite Ha. simpl.
    unfold childLinked, childStack. by rewrite <- Hheap. }
  split.
  - intros v Hv. rewrite (Hrun _ Hv). done.
  - intros caller e He Hne. rewrite (Hrun _ He). munfold. simpl.
    by rewrite Hne.
Qed.

(** On the root of the chain, with a resolver that fails on every stack. *)
Lemma X13_NewChildLogger_links_before_it_fails_witness :
  (∀ v, failingResolver (childStack [mainFrame]) = Panic_ v →
     NewChildLogger failingResolver clock0 uuid0 [mainFrame] 0 chainWorld2
     = Panics v (childLinked chainWorld2 0
                   (mkLogger 0%Z None [1] LoggerState_Open false twoHandlers)
                   (uuid0 (uuids chainWorld2)))) ∧
  (∀ caller e, failingResolver (childStack [mainFrame]) = Value_ (caller, Some e) →
     isErrNoCaller e = false →
     NewChildLogger failingResolver clock0 uuid0 [mainFrame] 0 chainWorld2
     = Panics (PanicError e)
         (childLinked chainWorld2 0
            (mkLogger 0%Z None [1] LoggerState_Open false twoHandlers)
            (uuid0 (uuids chainWorld2)))).
Proof.
  apply (X13_NewChildLogger_links_before_it_fails failingResolver clock0 uuid0
           [mainFrame] 0 chainWorld2
           (mkLogger 0%Z None [1] LoggerState_Open false twoHandlers)).
  vm_compute. reflexivity.
Defined.

(** ** The string builder of [logging/ansi] *)

Lemma append_nil_l (s : string) : "" +:+ s = s.
Proof. done. Qed.

Lemma append_cons x (s t : string) : String x s +:+ t = String x (s +:+ t).
Proof. done. Qed.

Lemma append_nil_r (s : string) : s +:+ "" = s.
Proof. induction s as [|x s IH]; [done|]. by rewrite append_cons, IH. Qed.

Lemma append_assoc (s t u : string) : (s +:+ t) +:+ u = s +:+ (t +:+ u).
Proof. induction s as [|x s IH]; [done|]. by rewrite !append_cons, IH. Qed.

Lemma length_append (s t : string) :
  String.length (s +:+ t) = String.length s + String.length t.
Proof.
  induction s as [|x s IH]; [done|]. rewrite append_cons. simpl. by rewrite IH.
Qed.

Lemma countByte_append c (s t : string) :
  countByte c (s +:+ t) = countByte c s + countByte c t.
Proof.
  induction s as [|x s IH]; [done|]. rewrite append_cons. simpl. rewrite IH. lia.
Qed.

Lemma joined_app (l k : list string) : joined (l ++ k) = joined l +:+ joined k.
Proof.
  induction l as [|s l IH]; [done|]. simpl. unfold joined in *. simpl.
  by rewrite IH, append_assoc.
Qed.

Lemma joined_cons (s : string) (l : list string) : joined (s :: l) = s +:+ joined l.
Proof. done. Qed.

(** The loop of [Write]: the count grows by the bytes appended. *)
Lemma Write_loop_spec ss : ∀ n b,
  ansi.Write_loop ss n b
  = ((n + Z.of_nat (String.length (joined (writtenFor (ansi.escapeMode b) <$> ss))),
      None)%Z,
     ansi.mkBuilder (ansi.str b +:+ joined (writtenFor (ansi.escapeMode b) <$> ss))
       (ansi.escapeMode b)).
Proof.
  induction ss as [|s ss IH]; intros n b.
  - simpl. unfold joined. simpl. rewrite append_nil_r, Z.add_0_r. by destruct b.
  - rewrite fmap_cons, joined_cons. destruct s as [ec|v].
    + cbn [ansi.Write_loop]. unfold mbind, ansi.B_bind, ansi.WriteEscapeCode.
      cbn [writtenFor].
      destruct (ansi.escapeMode b =? ansi.EscapeMode_Disable)%Z eqn:Hm.
      * rewrite IH, append_nil_l. by rewrite Z.add_0_r.
      * unfold ansi.WriteString. rewrite IH. cbn [ansi.escapeMode ansi.str].
        rewrite length_append, append_assoc. do 2 f_equal. lia.
    + destruct v as [s| | | |];
        try (cbn [ansi.Write_loop writtenFor]; by rewrite IH, append_nil_l).
      cbn [ansi.Write_loop]. unfold mbind, ansi.B_bind, ansi.WriteString.
      rewrite IH. cbn [ansi.escapeMode ansi.str writtenFor].
      rewrite length_append, append_assoc. do 2 f_equal. lia.
Qed.

Lemma Write_spec ss b :
  ansi.Write ss b
  = ((Z.of_nat (String.length (joined (writtenFor (ansi.escapeMode b) <$> ss))), None),
     ansi.mkBuilder (ansi.str b +:+ joined (writtenFor (ansi.escapeMode b) <$> ss))
       (ansi.escapeMode b)).
Proof. unfold ansi.Write. by rewrite Write_loop_spec. Qed.

(** X14. [Write] returns the number of bytes it has appended to the text of
    the builder, and never an error; what was in the builder before is
    still its beginning, and the escape mode is the one it was. *)
Theorem X14_Write_counts_what_it_appends (ss : list ansi.Val)
    (b : ansi.AnsiStringBuilder) :
  ∃ text,
    ansi.Write ss b
    = ((Z.of_nat (String.length text), None),
       ansi.mkBuilder (ansi.str b +:+ text) (ansi.escapeMode b)) ∧
    Z.of_nat (String.length (ansi.String_ (snd (ansi.Write ss b))))
    = (Z.of_nat (String.length (ansi.String_ b)) + fst (fst (ansi.Write ss b)))%Z.
Proof.
  exists (joined (writtenFor (ansi.escapeMode b) <$> ss)).
  rewrite Write_spec. split; [done|].
  unfold ansi.String_. simpl. rewrite length_append. lia.
Qed.

Lemma joined_writtenFor_disabled ss :
  joined (writtenFor ansi.EscapeMode_Disable <$> ss) = joined (stringsOf ss).
Proof.
  induction ss as [|s ss IH]; [done|].
  rewrite fmap_cons, joined_cons, IH. unfold stringsOf.
  destruct s as [ec|[]]; simpl; by rewrite ?joined_cons, ?append_nil_l.
Qed.

Lemma writtenFor_other mode v :
  (∀ s, v ≠ AString s) → writtenFor mode (ansi.VAny v) = "".
Proof. intros Hv. destruct v as [s| | | |]; [by destruct (Hv s)|done..]. Qed.

(** X15. With the escape mode [EscapeMode_Disable], [Write] appends the
    strings among its arguments, in order, and nothing else: no escape
    sequence reaches the text. In every mode an argument that is neither
    an escape code nor a string is passed over in silence: the call does
    what it does without that argument. *)
Theorem X15_Write_without_escapes (ss : list ansi.Val)
    (b : ansi.AnsiStringBuilder) :
  (ansi.escapeMode b = ansi.EscapeMode_Disable →
   ansi.String_ (snd (ansi.Write ss b))
   = ansi.String_ b +:+ joined (stringsOf ss)) ∧
  (∀ ss1 ss2 v, ss = ss1 ++ ansi.VAny v :: ss2 → (∀ s, v ≠ AString s) →
   ansi.Write ss b = ansi.Write (ss1 ++ ss2) b).
Proof.
  split.
  - intros Hm. rewrite Write_spec, Hm. simpl.
    by rewrite joined_writtenFor_disabled.
  - intros ss1 ss2 v -> Hv. rewrite !Write_spec.
    rewrite !fmap_app, fmap_cons, !joined_app, joined_cons.
    by rewrite (writtenFor_other _ v Hv), append_nil_l.
Qed.

(** X16. Two calls of [Write] in a row do what one call with all the
    arguments does: the text is the same and the counts add up. *)
Theorem X16_Write_composes (ss1 ss2 : list ansi.Val) (b : ansi.AnsiStringBuilder) :
  ansi.Write (ss1 ++ ss2) b
  = (r1 ← ansi.Write ss1; r2 ← ansi.Write ss2;
     mret ((fst r1 + fst r2)%Z, snd r2)) b.
Proof.
  unfold mbind, ansi.B_bind, mret, ansi.B_ret. rewrite !Write_spec.
  cbn [ansi.escapeMode ansi.str fst snd].
  rewrite fmap_app, joined_app, length_append, append_assoc.
  do 2 f_equal. f_equal. lia.
Qed.

(** ** The table of escape sequences *)

Lemma strs_at_range (ec : Z) :
  (0 ≤ ec < 40)%Z → ec ∈ (seqZ 0 40).
Proof. intros H. apply elem_of_seqZ. lia. Qed.

Lemma strs_at_outside (ec : Z) : ¬ (0 ≤ ec < 40)%Z → ansi.strs_at ec = "".
Proof.
  intros Hr. unfold ansi.strs_at.
  destruct (_ !! _) as [s|] eqn:Hs; [|reflexivity].
  apply elem_of_list_to_map_2 in Hs.
  assert (Hk : ec ∈ (fst <$> ansi.strs_entries))
    by (apply list_elem_of_fmap; by exists (ec, s)).
  assert (Hkeys : Forall (λ k, (0 ≤ k < 40)%Z) (fst <$> ansi.strs_entries)).
  { apply (bool_decide_unpack _). by vm_compute. }
  destruct Hr. by apply (proj1 (Forall_forall _ _) Hkeys).
Qed.

(** X17. Every escape code the package declares, from [Reset] to
    [BgBrightWhite], has an entry in [strs], the entry is a well-formed
    Select Graphic Rendition sequence, and two codes never share a
    sequence. A value that is none of the declared codes has no entry:
    [WriteEscapeCode] writes nothing for it. *)
Theorem X17_strs_is_complete_and_injective (ec : Z) :
  ((0 ≤ ec < 40)%Z → isSGR (ansi.strs_at ec) = true) ∧
  (¬ (0 ≤ ec < 40)%Z → ansi.strs_at ec = "") ∧
  (∀ ec', (0 ≤ ec < 40)%Z → (0 ≤ ec' < 40)%Z →
     ansi.strs_at ec = ansi.strs_at ec' → ec = ec').
Proof.
  assert (Hall : Forall (λ e, isSGR (ansi.strs_at e) = true) (seqZ 0 40)).
  { apply (bool_decide_unpack _). by vm_compute. }
  pose (codeOf := λ s : string,
          default (-1)%Z
            (fst <$> List.find (λ p : Z * string, String.eqb (snd p) s)
                       ansi.strs_entries)).
  assert (Hinj : Forall (λ e, codeOf (ansi.strs_at e) = e) (seqZ 0 40)).
  { apply (bool_decide_unpack _). vm_compute. exact I. }
  split_and!.
  - intros Hr. by apply (proj1 (Forall_forall _ _) Hall), strs_at_range.
  - apply strs_at_outside.
  - intros ec' Hr Hr' Heq.
    rewrite <- (proj1 (Forall_forall _ _) Hinj ec (strs_at_range _ Hr)).
    rewrite <- (proj1 (Forall_forall _ _) Hinj ec' (strs_at_range _ Hr')).
    by rewrite Heq.
Qed.

(** ** The pretty handler *)

Lemma appendsCount_ret {A} mode c (x : A) : appendsCount mode c 0 (mret x).
Proof.
  intros b Hm. exists x, "". split; [|done].
  unfold mret, ansi.B_ret. rewrite append_nil_r. destruct b. simpl in *. by subst.
Qed.

Lemma appendsCount_bind {A C} mode c k1 k2 (m : ansi.B A) (f : A → ansi.B C) :
  appendsCount mode c k1 m → (∀ x, appendsCount mode c k2 (f x)) →
  appendsCount mode c (k1 + k2) (x ← m; f x).
Proof.
  intros Hm Hf b Hb. destruct (Hm b Hb) as (x & t1 & Hrun1 & Hc1).
  destruct (Hf x (ansi.mkBuilder (ansi.str b +:+ t1) mode) eq_refl)
    as (y & t2 & Hrun2 & Hc2).
  exists y, (t1 +:+ t2). split.
  - unfold mbind, ansi.B_bind. rewrite Hrun1, Hrun2. simpl.
    by rewrite append_assoc.
  - rewrite countByte_append. lia.
Qed.

Lemma appendsCount_eq {A} mode c k k' (m : ansi.B A) :
  k = k' → appendsCount mode c k m → appendsCount mode c k' m.
Proof. by intros ->. Qed.

Lemma appendsCount_WriteString mode c s :
  appendsCount mode c (countByte c s) (ansi.WriteString s).
Proof.
  intros b Hb. eexists _, s. split; [|done].
  unfold ansi.WriteString. by rewrite Hb.
Qed.

Lemma appendsCount_Write mode c ss :
  appendsCount mode c (countByte c (joined (writtenFor mode <$> ss))) (ansi.Write ss).
Proof.
  intros b Hb. eexists _, _. split; [|done].
  rewrite Write_spec. by rewrite Hb.
Qed.

Section PrinterProofs.

Variable goSyntaxError : Err → string.
Variable goSyntax : Any → string.
Variable errorText : Err → string.
Variable mode : ansi.EscapeMode.
Variable c : ascii.
Hypothesis c_layout : notInLayout c.
Hypothesis c_codes : notInCodes mode c.

Lemma layout_free s :
  s ∈ ["├─ "; "└─ "; "│   "; "    "; ": "; " "; dquote; globalPadding;
       "DBG"; "INF"; "WRN"; "ERR"; "FTL"; "!!!"; "<"; ":"; "> ";
       "<UNKNOWN CALLER> "] →
  countByte c s = 0.
Proof. apply (proj1 (Forall_forall _ _) c_layout). Qed.

Ltac layout := apply layout_free; repeat first [apply list_elem_of_here | apply list_elem_of_further].

(** The connector in front of a key. *)
Lemma appendsCount_connector (isLast : bool) :
  appendsCount mode c 0
    (if negb isLast then ansi.WriteString "├─ " else ansi.WriteString "└─ ").
Proof.
  destruct isLast; simpl.
  - apply (appendsCount_eq mode c (countByte c "└─ ")); [layout|].
    apply appendsCount_WriteString.
  - apply (appendsCount_eq mode c (countByte c "├─ ")); [layout|].
    apply appendsCount_WriteString.
Qed.

Lemma printAttrsRec_count attrs : ∀ padding,
  countByte c padding = 0 →
  attrsFree goSyntaxError goSyntax errorText c attrs →
  appendsCount mode c (attrCount attrs * countByte c nl)
    (printAttrsRec goSyntaxError goSyntax errorText attrs padding).
Proof.
  induction attrs as [|key value IHv rest IHr| v IHv | e | v]
    using AttrList_mut
    with (P0 := λ value,
            match value with
            | VAttrs v =>
                ∀ padding, countByte c padding = 0 →
                  attrsFree goSyntaxError goSyntax errorText c v →
                  appendsCount mode c (attrCount v * countByte c nl)
                    (printAttrsRec goSyntaxError goSyntax errorText v padding)
            | _ => True
            end); try done.
  - intros padding _ _. apply appendsCount_ret.
  - intros padding Hp (Hkey & Hval & Hrest).
    cbn [printAttrsRec attrCount].
    set (isLast := match rest with AttrNil => true | _ => false end).
    apply (appendsCount_eq mode c
             (0 + (0 + ((countByte c nl
                         + match value with VAttrs v => attrCount v | _ => 0 end
                           * countByte c nl)
                        + attrCount rest * countByte c nl)))); [lia|].
    apply appendsCount_bind.
    { apply (appendsCount_eq mode c (countByte c padding)); [done|].
      apply appendsCount_WriteString. }
    intros _. apply appendsCount_bind; [apply appendsCount_connector|].
    intros _. apply appendsCount_bind; [|intros _; by apply IHr].
    destruct value as [v|e|v].
    + apply appendsCount_bind.
      * eapply appendsCount_eq; [|apply appendsCount_Write].
        cbn [fmap list_fmap]. rewrite !joined_cons, !countByte_append.
        rewrite !c_codes. cbn [writtenFor]. rewrite Hkey.
        unfold joined. simpl. lia.
      * intros _. destruct (negb isLast).
        -- apply IHv; [|done]. rewrite countByte_append, Hp, Nat.add_0_l.
           layout.
        -- apply IHv; [|done]. rewrite countByte_append, Hp, Nat.add_0_l.
           layout.
    + destruct Hval as [He1 He2].
      apply (appendsCount_eq mode c (countByte c nl + 0)); [lia|].
      apply appendsCount_bind; [|intros _; apply appendsCount_ret].
      eapply appendsCount_eq; [|apply appendsCount_Write].
      cbn [fmap list_fmap]. rewrite !joined_cons, !countByte_append.
      rewrite !c_codes. cbn [writtenFor]. rewrite !countByte_append.
      rewrite Hkey, He1, He2.
      assert (countByte c ": " = 0) as -> by layout.
      assert (countByte c " " = 0) as -> by layout.
      assert (countByte c dquote = 0) as -> by layout.
      unfold joined. simpl. lia.
    + apply (appendsCount_eq mode c (countByte c nl + 0)); [lia|].
      apply appendsCount_bind; [|intros _; apply appendsCount_ret].
      eapply appendsCount_eq; [|apply appendsCount_Write].
      cbn [fmap list_fmap]. rewrite !joined_cons, !countByte_append.
      rewrite !c_codes. cbn [writtenFor]. rewrite Hkey, Hval.
      assert (countByte c ": " = 0) as -> by layout.
      unfold joined. simpl. lia.
Qed.

End PrinterProofs.

Lemma notInLayout_LF : notInLayout LF.
Proof. apply (bool_decide_unpack _). vm_compute. exact I. Qed.

Lemma notInLayout_ESC : notInLayout ansi.ESC.
Proof. apply (bool_decide_unpack _). vm_compute. exact I. Qed.

(** No escape sequence of the table holds a line feed. *)
Lemma notInCodes_LF mode : notInCodes mode LF.
Proof.
  intros ec. unfold writtenFor. destruct (_ =? _)%Z; [done|].
  destruct (decide (0 ≤ ec < 40)%Z) as [Hr|Hr].
  - assert (Hall : Forall (λ e, countByte LF (ansi.strs_at e) = 0) (seqZ 0 40)).
    { apply (bool_decide_unpack _). vm_compute. exact I. }
    by apply (proj1 (Forall_forall _ _) Hall), strs_at_range.
  - by rewrite strs_at_outside.
Qed.

Lemma notInCodes_disabled c : notInCodes ansi.EscapeMode_Disable c.
Proof. by intros ec. Qed.

(** X18. [printAttrsRec] appends one line for each attribute, the
    attributes of nested slices included, and nothing for an empty slice:
    when no key, no rendering of a value and not the padding holds a line
    feed, the text grows by as many line feeds as there are attributes.
    What was in the builder before stays in front. *)
Theorem X18_printAttrsRec_one_line_per_attribute
    (goSyntaxError : Err → string) (goSyntax : Any → string)
    (errorText : Err → string) (attrs : AttrList) (padding : string)
    (b : ansi.AnsiStringBuilder) :
  countByte LF padding = 0 →
  attrsFree goSyntaxError goSyntax errorText LF attrs →
  ∃ text,
    printAttrsRec goSyntaxError goSyntax errorText attrs padding b
    = ((), ansi.mkBuilder (ansi.str b +:+ text) (ansi.escapeMode b)) ∧
    countByte LF text = attrCount attrs.
Proof.
  intros Hp Hfree.
  destruct (printAttrsRec_count goSyntaxError goSyntax errorText (ansi.escapeMode b)
              LF notInLayout_LF (notInCodes_LF _) attrs padding Hp Hfree b eq_refl)
    as ([] & text & Hrun & Hc).
  exists text. split; [done|]. rewrite Hc. simpl. lia.
Qed.

(** Four attributes, two of them nested, printed with colours. *)
Lemma X18_printAttrsRec_one_line_per_attribute_witness :
  ∃ text,
    printAttrsRec plainError plainSyntax plainError sampleAttrs globalPadding
      ansi.NewAnsiStringBuilder
    = ((), ansi.mkBuilder (ansi.str ansi.NewAnsiStringBuilder +:+ text)
             (ansi.escapeMode ansi.NewAnsiStringBuilder)) ∧
    countByte LF text = attrCount sampleAttrs.
Proof.
  apply (X18_printAttrsRec_one_line_per_attribute plainError plainSyntax plainError
           sampleAttrs globalPadding ansi.NewAnsiStringBuilder).
  - vm_compute. reflexivity.
  - vm_compute. tauto.
Defined.

Section PrettyProofs.

Variable goSyntaxError : Err → string.
Variable goSyntax : Any → string.
Variable errorText : Err → string.
Variable itoa : Z → string.
Variable formatTime : Time → string.
Variable filepath_Rel : string → option string.
Variable view : Any → AttrValue.

(** What [HandleRecord] writes after it has set the escape mode. *)
Lemma PrettyHandler_build_count handler record c :
  notInLayout c →
  notInCodes (if PrettyHandler_useColor handler then ansi.EscapeMode_Enable
              else ansi.EscapeMode_Disable) c →
  recordFree goSyntaxError goSyntax errorText itoa formatTime filepath_Rel view
    c record →
  ∃ text,
    snd (PrettyHandler_build goSyntaxError goSyntax errorText itoa formatTime
           filepath_Rel view handler record ansi.zero)
    = ansi.mkBuilder text
        (if PrettyHandler_useColor handler then ansi.EscapeMode_Enable
         else ansi.EscapeMode_Disable) ∧
    countByte c text
    = countByte c nl * (1 + attrCount (viewAttrs view (Attributes record))).
Proof.
  intros Hlay Hcodes (Htime & Hmsg & Hcaller & Hattrs).
  set (mode := if PrettyHandler_useColor handler then ansi.EscapeMode_Enable
               else ansi.EscapeMode_Disable) in *.
  pose proof (layout_free c Hlay) as Hl.
  assert (Hfix : ∀ s,
            s ∈ ["├─ "; "└─ "; "│   "; "    "; ": "; " "; dquote; globalPadding;
                 "DBG"; "INF"; "WRN"; "ERR"; "FTL"; "!!!"; "<"; ":"; "> ";
                 "<UNKNOWN CALLER> "] → countByte c s = 0) by exact Hl.
  assert (Hw : ∀ ss k,
            countByte c (joined (writtenFor mode <$> ss)) = k →
            appendsCount mode c k (ansi.Write ss)).
  { intros ss k <-. apply appendsCount_Write. }
  assert (Hrest : appendsCount mode c
            (0 + (0 + (0 + (0 + (0 + (countByte c nl
               + attrCount (viewAttrs view (Attributes record)) * countByte c nl))))))
            (_ ← ansi.Write [ansi.VAny (AString (formatTime (Time_ record)));
                             ansi.VAny (AString " ")];
             _ ← match Level_ record with
                 | LevelDebug =>
                     ansi.Write [ansi.VCode ansi.FgMagenta; ansi.VAny (AString "DBG");
                                 ansi.VCode ansi.Reset]
                 | LevelInfo =>
                     ansi.Write [ansi.VCode ansi.FgBlue; ansi.VAny (AString "INF");
                                 ansi.VCode ansi.Reset]
                 | LevelWarn =>
                     ansi.Write [ansi.VCode ansi.FgYellow; ansi.VAny (AString "WRN");
                                 ansi.VCode ansi.Reset]
                 | LevelError =>
                     ansi.Write [ansi.VCode ansi.FgRed; ansi.VAny (AString "ERR");
                                 ansi.VCode ansi.Reset]
                 | LevelFatal =>
                     ansi.Write [ansi.VCode ansi.FgBlack; ansi.VCode ansi.BgRed;
                                 ansi.VAny (AString "FTL"); ansi.VCode ansi.Reset]
                 | LevelPanic =>
                     ansi.Write [ansi.VCode ansi.FgBlack; ansi.VCode ansi.BgRed;
                                 ansi.VAny (AString "!!!"); ansi.VCode ansi.Reset]
                 end;
             _ ← ansi.WriteString " ";
             _ ← match match Caller record with
                       | Some caller => filepath_Rel (File caller)
                       | None => None
                       end, Caller record with
                 | Some relativePath, Some caller =>
                     ansi.Write [ansi.VCode ansi.FgBrightBlack;
                                 ansi.VAny (AString ("<" +:+ relativePath +:+ ":"
                                                     +:+ itoa (Line caller) +:+ "> "));
                                 ansi.VCode ansi.Reset]
                 | _, _ =>
                     ansi.Write [ansi.VCode ansi.FgBrightBlack;
                                 ansi.VAny (AString "<UNKNOWN CALLER> ");
                                 ansi.VCode ansi.Reset]
                 end;
             _ ← ansi.WriteString (Message record);
             _ ← ansi.WriteString nl;
             printAttrsRec goSyntaxError goSyntax errorText
               (viewAttrs view (Attributes record)) globalPadding)).
  { apply appendsCount_bind.
    { apply Hw. cbn [fmap list_fmap writtenFor].
      rewrite !joined_cons, !countByte_append, Htime.
      rewrite (Hfix " ") by (repeat first [apply list_elem_of_here | apply list_elem_of_further]).
      done. }
    intros _. apply appendsCount_bind.
    { destruct (Level_ record); apply Hw; cbn [fmap list_fmap];
        rewrite !joined_cons, !countByte_append, !Hcodes; cbn [writtenFor];
        rewrite Hfix by (repeat first [apply list_elem_of_here | apply list_elem_of_further]);
        done. }
    intros _. apply appendsCount_bind.
    { apply (appendsCount_eq mode c (countByte c " ")); [|apply appendsCount_WriteString].
      apply Hfix. repeat first [apply list_elem_of_here | apply list_elem_of_further]. }
    intros _. apply appendsCount_bind.
    { destruct (Caller record) as [caller|] eqn:Hc.
      - destruct (filepath_Rel (File caller)) as [path|] eqn:Hrel.
        + destruct (Hcaller caller path eq_refl Hrel) as [Hpath Hline].
          apply Hw. cbn [fmap list_fmap].
          rewrite !joined_cons, !countByte_append, !Hcodes. cbn [writtenFor].
          rewrite !countByte_append, Hpath, Hline.
          rewrite !Hfix by (repeat first [apply list_elem_of_here | apply list_elem_of_further]).
          done.
        + apply Hw. cbn [fmap list_fmap].
          rewrite !joined_cons, !countByte_append, !Hcodes. cbn [writtenFor].
          rewrite Hfix by (repeat first [apply list_elem_of_here | apply list_elem_of_further]).
          done.
      - apply Hw. cbn [fmap list_fmap].
        rewrite !joined_cons, !countByte_append, !Hcodes. cbn [writtenFor].
        rewrite Hfix by (repeat first [apply list_elem_of_here | apply list_elem_of_further]).
        done. }
    intros _. apply appendsCount_bind.
    { apply (appendsCount_eq mode c (countByte c (Message record))); [done|].
      apply appendsCount_WriteString. }
    intros _. apply appendsCount_bind; [apply appendsCount_WriteString|].
    intros _. apply printAttrsRec_count; try done.
    apply Hfix. repeat first [apply list_elem_of_here | apply list_elem_of_further]. }
  destruct (Hrest (ansi.mkBuilder "" mode) eq_refl) as ([] & text & Hrun & Hcount).
  exists text. split.
  - unfold PrettyHandler_build. unfold mbind at 1. unfold ansi.B_bind at 1.
    fold mode.
    assert (Hset : (if PrettyHandler_useColor handler
                    then ansi.SetEscapeMode ansi.EscapeMode_Enable
                    else ansi.SetEscapeMode ansi.EscapeMode_Disable) ansi.zero
                   = ((), ansi.mkBuilder "" mode)).
    { unfold mode. by destruct (PrettyHandler_useColor handler). }
    rewrite Hset. rewrite Hrun. done.
  - rewrite Hcount. lia.
Qed.

End PrettyProofs.

(** X19. [PrettyHandler.HandleRecord] drops a record below the level of
    the handler: it returns nil and writes nothing. For any other record
    it calls [fmt.Fprintf] once, with the text it has built as the format,
    and returns the error of that call; the text is a header line followed
    by one line for each attribute, when none of the texts taken from the
    record holds a line feed. *)
Theorem X19_PrettyHandler_filters_and_writes_once
    (goSyntaxError : Err → string) (goSyntax : Any → string)
    (errorText : Err → string) (itoa : Z → string) (formatTime : Time → string)
    (filepath_Rel : string → option string) (view : Any → AttrValue)
    (handler : PrettyHandler) (logger : addr) (record : Record_) :
  ((Level_value (Level_ record) < Level_value (pretty_level handler))%Z →
   PrettyHandler_HandleRecord goSyntaxError goSyntax errorText itoa formatTime
     filepath_Rel view handler logger record = (None, [])) ∧
  ((Level_value (pretty_level handler) ≤ Level_value (Level_ record))%Z →
   ∃ text,
     PrettyHandler_HandleRecord goSyntaxError goSyntax errorText itoa formatTime
       filepath_Rel view handler logger record
     = (writer_Fprintf (pretty_writer handler) text, [text]) ∧
     (recordFree goSyntaxError goSyntax errorText itoa formatTime filepath_Rel
        view LF record →
      countByte LF text = 1 + attrCount (viewAttrs view (Attributes record)))).
Proof.
  unfold PrettyHandler_HandleRecord. split.
  - intros Hlt. by rewrite (proj2 (Z.ltb_lt _ _) Hlt).
  - intros Hle. rewrite (proj2 (Z.ltb_ge _ _) Hle).
    eexists. split; [reflexivity|]. intros Hfree.
    destruct (PrettyHandler_build_count goSyntaxError goSyntax errorText itoa
                formatTime filepath_Rel view handler record LF
                notInLayout_LF (notInCodes_LF _) Hfree) as (text & Hrun & Hc).
    unfold ansi.String_. rewrite Hrun. simpl. rewrite Hc. simpl. lia.
Qed.

(** X20. When the writer of a [PrettyHandler] is not a file, or a file
    that is not a terminal, the text that [HandleRecord] hands to
    [fmt.Fprintf] holds no escape byte, unless one of the texts taken from
    the record holds one: the colours are left out. *)
Theorem X20_PrettyHandler_no_colour_off_terminal
    (goSyntaxError : Err → string) (goSyntax : Any → string)
    (errorText : Err → string) (itoa : Z → string) (formatTime : Time → string)
    (filepath_Rel : string → option string) (view : Any → AttrValue)
    (handler : PrettyHandler) (logger : addr) (record : Record_) :
  isFile (pretty_writer handler) = false ∨
    isTerminal (pretty_writer handler) = false →
  recordFree goSyntaxError goSyntax errorText itoa formatTime filepath_Rel
    view ansi.ESC record →
  Forall (λ text, countByte ansi.ESC text = 0)
    (snd (PrettyHandler_HandleRecord goSyntaxError goSyntax errorText itoa
            formatTime filepath_Rel view handler logger record)).
Proof.
  intros Hterm Hfree. unfold PrettyHandler_HandleRecord.
  destruct (_ <? _)%Z; [by apply Forall_nil|].
  assert (Hcol : PrettyHandler_useColor handler = false).
  { unfold PrettyHandler_useColor. destruct Hterm as [-> | ->]; [done|].
    by destruct (isFile _). }
  pose proof (PrettyHandler_build_count goSyntaxError goSyntax errorText itoa
                formatTime filepath_Rel view handler record ansi.ESC
                notInLayout_ESC) as H.
  rewrite Hcol in H.
  destruct (H (notInCodes_disabled _) Hfree) as (text & Hrun & Hc).
  apply Forall_singleton. unfold ansi.String_. cbn [snd]. rewrite Hrun.
  cbn [ansi.str]. rewrite Hc. done.
Qed.

(** A record with two attributes, written to a buffer. *)
Lemma X20_PrettyHandler_no_colour_off_terminal_witness :
  Forall (λ text, countByte ansi.ESC text = 0)
    (snd (PrettyHandler_HandleRecord plainError plainSyntax plainError
            (λ _, "12") (λ _, "2026/10/31 10:00:00") Some (λ v, VOther v)
            samplePretty 0 sampleRecord)).
Proof.
  apply (X20_PrettyHandler_no_colour_off_terminal plainError plainSyntax plainError
           (λ _, "12") (λ _, "2026/10/31 10:00:00") Some (λ v, VOther v)
           samplePretty 0 sampleRecord).
  - left. reflexivity.
  - split_and!; [vm_compute; reflexivity..| |].
    + intros caller path [= <-] [= <-]. split; vm_compute; reflexivity.
    + vm_compute. tauto.
Defined.

(** Computed: the text written for that record. *)
Example PrettyHandler_sample :
  PrettyHandler_HandleRecord plainError plainSyntax plainError
    (λ _, "12") (λ _, "2026/10/31 10:00:00") Some (λ v, VOther v)
    samplePretty 0 sampleRecord
  = (None,
     ["2026/10/31 10:00:00 WRN <main.go:12> disk almost full" +:+ nl
      +:+ globalPadding +:+ "├─ free: ?" +:+ nl
      +:+ globalPadding +:+ "└─ path: /var" +:+ nl]).
Proof. vm_compute. reflexivity. Qed.

(** ** The JSON handler *)

Section JsonProofs.

Variable uuid_String : UUID → string.
Variable marshalCreated :
  JsonHandlerMessage JsonHandlerLoggerCreated → string * option Err.
Variable marshalClosed :
  JsonHandlerMessage JsonHandlerLoggerClosed → string * option Err.
Variable marshalRecord :
  JsonHandlerMessage JsonHandlerRecord → string * option Err.

Lemma rangeChildren_spec (w : World) cs : ∀ ids,
  (∀ c, c ∈ cs → is_Some (heap w !! c)) →
  ∃ ids',
    rangeChildren uuid_String cs ids w = Done (ids ++ ids') w ∧
    Forall2 (λ c s, ∃ lc, heap w !! c = Some lc ∧ s = uuid_String (id_ lc)) cs ids'.
Proof.
  induction cs as [|c cs IH]; intros ids Hcs.
  - exists []. split; [|by apply Forall2_nil]. simpl. by rewrite app_nil_r.
  - destruct (Hcs c ltac:(by left)) as [lc Hc].
    destruct (IH (ids ++ [uuid_String (id_ lc)])) as (ids' & Hrun & Hall).
    { intros c' Hc'. apply Hcs. by right. }
    exists (uuid_String (id_ lc) :: ids'). split.
    + simpl. munfold. rewrite Hc. rewrite Hrun. by rewrite <- app_assoc.
    + constructor; [by exists lc|done].
Qed.

Lemma describeLogger_spec (w : World) a :
  wf (heap w) → a < length (heap w) →
  ∃ d r,
    describeLogger uuid_String a w = Done d w ∧
    RootLogger a w = Done r w ∧
    describes uuid_String (heap w) a r d.
Proof.
  intros Hwf Ha.
  destruct (lookup_lt_is_Some_2 _ _ Ha) as [lg Hlg].
  destruct (RootLogger_total w a Hwf Ha) as (r & lr & Hroot & Hr & _).
  destruct (Hwf a lg Hlg) as (Hpar & Hch & _).
  destruct (rangeChildren_spec w (children lg) []) as (ids & Hids & Hall).
  { intros c Hc. destruct (Hch c Hc) as (_ & lc & Hlc & _). by exists lc. }
  assert (Hdesc : ∀ P,
            P = (p ← parent lg; lp ← heap w !! p; Some (uuid_String (id_ lp))) →
            describes uuid_String (heap w) a r
              (mkJsonHandlerLogger (uuid_String (id_ lg)) P ids (uuid_String (id_ lr)))).
  { intros P HP. exists lg, lr. by split_and!. }
  destruct (parent lg) as [p|] eqn:Hp.
  - destruct (Hpar p eq_refl) as (_ & lp & Hlp & _).
    eexists _, r. split_and!; [|done|apply Hdesc; simpl; by rewrite Hlp].
    unfold describeLogger. munfold. rewrite Hlg, Hroot, Hr, Hp.
    munfold. rewrite Hlp. simpl in Hids. by rewrite Hids.
  - eexists _, r. split_and!; [|done|by apply Hdesc].
    unfold describeLogger. munfold. rewrite Hlg, Hroot, Hr, Hp.
    munfold. simpl in Hids. by rewrite Hids.
Qed.

(** X21. The JSON handler reads the file and the line of the caller
    without asking whether there is a caller. Whenever [getCaller] returns
    an error, it returns no frame, and each operation of the handler then
    panics on the nil pointer, before anything is written; only
    [HandleRecord] on a record below the level of the handler returns. *)
Theorem X21_JsonHandler_panics_without_caller
    (handler : JsonHandler) (logger : addr) (timestamp : Time)
    (record : Record_) (w : World)
    (stack : list Frame) (caller : option Frame) (e : Err) :
  getCaller stack = Value_ (caller, Some e) →
  Caller record = caller →
  JsonHandler_OnLoggerCreated uuid_String marshalCreated handler logger
    timestamp caller w = Panics PanicNilDeref w ∧
  JsonHandler_OnLoggerClosed uuid_String marshalClosed handler logger
    timestamp caller w = Panics PanicNilDeref w ∧
  JsonHandler_HandleRecord uuid_String marshalRecord handler logger record w
  = if (Level_value (Level_ record) <? Level_value (json_level handler))%Z
    then Done (None, []) w
    else Panics PanicNilDeref w.
Proof.
  intros Hget Hcaller.
  destruct (getCaller_error stack caller e Hget) as [-> _].
  split_and!; [done|done|].
  unfold JsonHandler_HandleRecord. rewrite Hcaller.
  by destruct (_ <? _)%Z.
Qed.

(** X22. On a tree, given a caller, the operations of the JSON handler do
    not panic on a pointer. The message they marshal names the logger, its
    parent, its children in order, and the root that [RootLogger] returns.
    [OnLoggerClosed] and [HandleRecord] return the error of
    [json.Marshal], and otherwise nil after one write of the data and a
    line feed: what the writer answers is not looked at.
    [OnLoggerCreated] panics with the error of [json.Marshal]. *)
Theorem X22_JsonHandler_describes_the_logger
    (handler : JsonHandler) (logger : addr) (timestamp : Time)
    (record : Record_) (w : World) (frame : Frame) :
  wf (heap w) → logger < length (heap w) →
  Caller record = Some frame →
  (Level_value (json_level handler) ≤ Level_value (Level_ record))%Z →
  ∃ d r levelName,
    RootLogger logger w = Done r w ∧
    describes uuid_String (heap w) logger r d ∧
    levelName ∈ ["debug"; "info"; "warn"; "error"; "fatal"; "panic"] ∧
    JsonHandler_OnLoggerCreated uuid_String marshalCreated handler logger
      timestamp (Some frame) w
    = (let '(data, err) :=
         marshalCreated
           (mkJsonHandlerMessage JsonHandlerMessageType_LoggerCreated
              (mkJsonHandlerLoggerCreated timestamp
                 (mkJsonHandlerCaller (File frame) (Line frame)) d)) in
       match err with
       | Some e => Panics (PanicError e) w
       | None => Done [data +:+ nl] w
       end) ∧
    JsonHandler_OnLoggerClosed uuid_String marshalClosed handler logger
      timestamp (Some frame) w
    = (let '(data, err) :=
         marshalClosed
           (mkJsonHandlerMessage JsonHandlerMessageType_LoggerClosed
              (mkJsonHandlerLoggerClosed timestamp
                 (mkJsonHandlerCaller (File frame) (Line frame)) d)) in
       match err with
       | Some e => Done (Some e, []) w
       | None => Done (None, [data +:+ nl]) w
       end) ∧
    JsonHandler_HandleRecord uuid_String marshalRecord handler logger record w
    = (let '(data, err) :=
         marshalRecord
           (mkJsonHandlerMessage JsonHandlerMessageType_Record
              (mkJsonHandlerRecord (Time_ record) levelName (Message record) None
                 (mkJsonHandlerCaller (File frame) (Line frame)) d)) in
       match err with
       | Some e => Done (Some e, []) w
       | None => Done (None, [data +:+ nl]) w
       end).
Proof.
  intros Hwf Ha Hcaller Hlevel.
  destruct (describeLogger_spec w logger Hwf Ha) as (d & r & Hd & Hr & Hdesc).
  exists d, r.
  exists (match Level_ record with
          | LevelDebug => "debug" | LevelInfo => "info" | LevelWarn => "warn"
          | LevelError => "error" | LevelFatal => "fatal" | LevelPanic => "panic"
          end).
  split_and!; [done|done| | | |].
  - destruct (Level_ record);
      repeat first [apply list_elem_of_here | apply list_elem_of_further].
  - unfold JsonHandler_OnLoggerCreated. simpl. munfold. rewrite Hd.
    by destruct (marshalCreated _) as [data [e|]].
  - unfold JsonHandler_OnLoggerClosed. simpl. munfold. rewrite Hd.
    by destruct (marshalClosed _) as [data [e|]].
  - unfold JsonHandler_HandleRecord. rewrite (proj2 (Z.ltb_ge _ _) Hlevel).
    rewrite Hcaller. simpl. munfold. rewrite Hd.
    by destruct (marshalRecord _) as [data [e|]].
Qed.

(** What [Close] gets from the JSON handler is what [jsonHandler] answers:
    on a tree, with an encoder that accepts the message, the closing call
    returns nil when there is a caller, after one write, and panics on the
    nil pointer when there is none. *)
Lemma JsonHandler_closing_call (handler : JsonHandler) (n : nat) (t : list Call)
    (logger : addr) (now : Time) (caller : option Frame) (w : World) :
  wf (heap w) → logger < length (heap w) →
  (∀ m, (marshalClosed m).2 = None) →
  match OnLoggerClosed (jsonHandler n) t logger now caller with
  | Value_ e =>
      ∃ out,
        JsonHandler_OnLoggerClosed uuid_String marshalClosed handler logger now
          caller w = Done (e, out) w
  | Panic_ v =>
      JsonHandler_OnLoggerClosed uuid_String marshalClosed handler logger now
        caller w = Panics v w
  end.
Proof.
  intros Hwf Ha Hm. destruct caller as [frame|]; simpl; [|done].
  destruct (describeLogger_spec w logger Hwf Ha) as (d & r & Hd & Hr & Hdesc).
  unfold JsonHandler_OnLoggerClosed. simpl. munfold. rewrite Hd.
  specialize (Hm (mkJsonHandlerMessage JsonHandlerMessageType_LoggerClosed
                    (mkJsonHandlerLoggerClosed now
                       (mkJsonHandlerCaller (File frame) (Line frame)) d))).
  destruct (marshalClosed _) as [data [e|]]; [done|]. by eexists.
Qed.

End JsonProofs.

(** With the caller [getCaller] finds inside [Close], six levels below a
    [Close] called from [main]. *)
Lemma X21_JsonHandler_panics_without_caller_witness :
  JsonHandler_OnLoggerCreated digitId emptyObject sampleJson 2 0%Z None chainWorld2
  = Panics PanicNilDeref chainWorld2 ∧
  JsonHandler_OnLoggerClosed digitId emptyObject sampleJson 2 0%Z None chainWorld2
  = Panics PanicNilDeref chainWorld2 ∧
  JsonHandler_HandleRecord digitId emptyObject sampleJson 2 orphanRecord chainWorld2
  = if (Level_value (Level_ orphanRecord) <? Level_value (json_level sampleJson))%Z
    then Done (None, []) chainWorld2
    else Panics PanicNilDeref chainWorld2.
Proof.
  apply (X21_JsonHandler_panics_without_caller digitId emptyObject emptyObject
           emptyObject sampleJson 2 0%Z orphanRecord chainWorld2
           (closeStack 6 [mainFrame]) None ErrNoCaller).
  - vm_compute. reflexivity.
  - reflexivity.
Defined.

(** On the logger 1 of the tree with the root 0, its children 1 and 2, and
    the child 3 of 1. *)
Lemma X22_JsonHandler_describes_the_logger_witness :
  ∃ d r levelName,
    RootLogger 1 familyWorld = Done r familyWorld ∧
    describes digitId (heap familyWorld) 1 r d ∧
    levelName ∈ ["debug"; "info"; "warn"; "error"; "fatal"; "panic"] ∧
    JsonHandler_OnLoggerCreated digitId emptyObject sampleJson 1 0%Z
      (Some mainFrame) familyWorld
    = (let '(data, err) :=
         emptyObject
           (mkJsonHandlerMessage JsonHandlerMessageType_LoggerCreated
              (mkJsonHandlerLoggerCreated 0%Z
                 (mkJsonHandlerCaller (File mainFrame) (Line mainFrame)) d)) in
       match err with
       | Some e => Panics (PanicError e) familyWorld
       | None => Done [data +:+ nl] familyWorld
       end) ∧
    JsonHandler_OnLoggerClosed digitId emptyObject sampleJson 1 0%Z
      (Some mainFrame) familyWorld
    = (let '(data, err) :=
         emptyObject
           (mkJsonHandlerMessage JsonHandlerMessageType_LoggerClosed
              (mkJsonHandlerLoggerClosed 0%Z
                 (mkJsonHandlerCaller (File mainFrame) (Line mainFrame)) d)) in
       match err with
       | Some e => Done (Some e, []) familyWorld
       | None => Done (None, [data +:+ nl]) familyWorld
       end) ∧
    JsonHandler_HandleRecord digitId emptyObject sampleJson 1 sampleRecord familyWorld
    = (let '(data, err) :=
         emptyObject
           (mkJsonHandlerMessage JsonHandlerMessageType_Record
              (mkJsonHandlerRecord (Time_ sampleRecord) levelName
                 (Message sampleRecord) None
                 (mkJsonHandlerCaller (File mainFrame) (Line mainFrame)) d)) in
       match err with
       | Some e => Done (Some e, []) familyWorld
       | None => Done (None, [data +:+ nl]) familyWorld
       end).
Proof.
  apply (X22_JsonHandler_describes_the_logger digitId emptyObject emptyObject
           emptyObject sampleJson 1 0%Z sampleRecord familyWorld mainFrame).
  - apply wfb_wf. vm_compute. reflexivity.
  - vm_compute. lia.
  - reflexivity.
  - vm_compute. discriminate.
Defined.

(** ** What [Close] leaves open *)






(** ** The callers that [Close] reports *)

(** X24. The closing calls of one [Close] do not all carry the same
    caller. When [Close] is called from the frame [f] of another module,
    however it ends, every closing call it has made is for a logger some
    [j] levels below the logger it was called on, and the caller it
    carries is [f] when [j] is at most 5 and nil when [j] is 6 or more.
    No other call is made. *)
Theorem X24_Close_reports_callers_by_depth
    (timeNow : nat → Time) (f : Frame) (stk : list Frame) (m : string)
    (a : addr) (w w' : World) :
  getModulePath (Function f) = Value_ m → m ≠ pkg →
  resWorld (Close getCaller timeNow (f :: stk) a w) = Some w' →
  ∃ ext,
    trace w' = trace w ++ ext ∧
    Forall (λ c, ∃ hid n t caller res j,
              c = CallClosed hid n t caller res ∧
              levelsBelow (heap w) a n j ∧
              caller = if bool_decide (j ≤ 5) then Some f else None) ext.
Proof.
  intros Hf Hne Hrun.
  pose proof (emits_Close_fuel getCaller timeNow (f :: stk) (heap w)
                (S (length (heap w))) 0 a w eq_refl) as H.
  unfold Close in Hrun. simpl replicate in H. simpl app in H.
  assert (He : emitted (heap w) (closedAt getCaller (f :: stk) (heap w) a 0)
                 (below (heap w) a) w w').
  { destruct (Close_fuel _ _ _ _ _ w) as [x w1|v w1|c w1|]; simpl in Hrun;
      simplify_eq; [by destruct H|done..]. }
  destruct He as (_ & _ & ext & Htr & Hall). exists ext. split; [done|].
  apply (Forall_impl _ _ _ Hall).
  intros c (hid & n & t & caller & res & j & err & -> & Hlev & Hres).
  exists hid, n, t, caller, res, j. split_and!; [done|done|].
  rewrite Nat.add_0_l, (getCaller_closeStack j f stk m Hf Hne) in Hres.
  by case_bool_decide; simplify_eq.
Qed.

(** [Close] on the root of a chain of eight loggers, called from [main]. *)
Lemma X24_Close_reports_callers_by_depth_witness :
  ∃ ext,
    trace closedDeepWorld = trace deepWorld ++ ext ∧
    Forall (λ c, ∃ hid n t caller res j,
              c = CallClosed hid n t caller res ∧
              levelsBelow (heap deepWorld) 0 n j ∧
              caller = if bool_decide (j ≤ 5) then Some mainFrame else None) ext.
Proof.
  apply (X24_Close_reports_callers_by_depth clock0 mainFrame [] "main" 0
           deepWorld closedDeepWorld).
  - vm_compute. reflexivity.
  - discriminate.
  - vm_compute. reflexivity.
Defined.

(** Computed on that chain: the loggers 7 and 6 are closed with no caller,
    the others with the frame of [main]. *)
Example Close_deep_chain :
  closedWith <$> drop (length (trace deepWorld)) (trace closedDeepWorld)
  = [Some (7, None); Some (6, None); Some (5, Some mainFrame);
     Some (4, Some mainFrame); Some (3, Some mainFrame); Some (2, Some mainFrame);
     Some (1, Some mainFrame); Some (0, Some mainFrame)].
Proof. vm_compute. reflexivity. Qed.

(** ** The caller a record carries *)

Lemma getCaller_loop_own thisModule own f rest m :
  Forall (λ g, getModulePath (Function g) = Value_ thisModule) own →
  getModulePath (Function f) = Value_ m → m ≠ thisModule →
  getCaller_loop thisModule (own ++ f :: rest) = Value_ (Some f, None).
Proof.
  intros Hown Hf Hne. induction Hown as [|g own Hg _ IH]; simpl app.
  - by apply (getCaller_loop_hit thisModule f rest m).
  - rewrite getCaller_loop_skip; [done|done|by destruct own].
Qed.

(** Under at most seven frames of the package, [getCaller] finds the frame
    that called into the package. *)
Lemma getCaller_own_frames first own f stk m :
  Forall (λ g, getModulePath (Function g) = Value_ pkg) (first :: own) →
  length own ≤ 6 →
  getModulePath (Function f) = Value_ m → m ≠ pkg →
  getCaller (first :: own ++ f :: stk) = Value_ (Some f, None).
Proof.
  intros Hown Hlen Hf Hne. apply Forall_cons in Hown as [Hfirst Hown].
  unfold getCaller.
  assert (Htake : take 8 (first :: own ++ f :: stk)
                  = first :: own ++ f :: take (6 - length own) stk).
  { change (take 8 (first :: own ++ f :: stk))
      with (first :: take 7 (own ++ f :: stk)).
    f_equal. rewrite take_app. rewrite take_ge by lia. f_equal.
    replace (7 - length own) with (S (6 - length own)) by lia. done. }
  rewrite Htake. destruct own as [|g own]; simpl app; rewrite Hfirst.
  - by apply (getCaller_loop_hit pkg f _ m).
  - by apply (getCaller_loop_own pkg (g :: own) f _ m).
Qed.

(** X25. A record carries the frame of the code that called the logging
    method. When [Log], or one of [Debug], [Info], [Warn] and [Error], is
    called from the frame [f] of another module, the record that every
    handler of the root receives has [f] as its caller, and not a frame of
    the package: through [Log] alone and through a levelled method that
    calls [Log]. *)
Theorem X25_records_carry_the_calling_frame
    (timeNow : nat → Time) (f : Frame) (stk : list Frame) (m : string)
    (a : addr) (w : World) (hs : list Handler)
    (level : Level) (message : string) (args : list Any) :
  getModulePath (Function f) = Value_ m → m ≠ pkg →
  Handlers a w = Done hs w →
  (∃ calls,
     Log getCaller timeNow (f :: stk) a level message args w
     = Done (errors_Join (callResult <$> calls))
         (set_trace (trace w ++ calls) (tick w)) ∧
     dispatched
       (mkRecorded a (mkRecord (timeNow (ticks w)) level message (Some f)
                        (argsToAttrs args)))
       hs (trace w) calls) ∧
  (∀ method, ∃ calls,
     resWorld (runLeveled getCaller timeNow method (f :: stk) a message args w)
     = Some (set_trace (trace w ++ calls) (tick w)) ∧
     dispatched
       (mkRecorded a (mkRecord (timeNow (ticks w)) (levelOf method) message (Some f)
                        (argsToAttrs args)))
       hs (trace w) calls).
Proof.
  intros Hf Hne Hh.
  split.
  - apply (Log_dispatch getCaller timeNow (f :: stk) a level message args w
             (Some f) None hs); [|done|done].
    apply (getCaller_own_frames frame_getCaller [frameAt ".(*Logger).Log" 208] f stk m);
      [|simpl; lia|done|done].
    repeat apply Forall_cons_2; [by vm_compute..|by apply Forall_nil].
  - intros method.
    destruct (Log_dispatch getCaller timeNow (methodFrame method :: f :: stk) a
                (levelOf method) message args w (Some f) None hs)
      as (calls & Hrun & Hd); [|done|done|].
    { apply (getCaller_own_frames frame_getCaller
               [frameAt ".(*Logger).Log" 208; methodFrame method] f stk m);
        [|simpl; lia|done|done].
      repeat apply Forall_cons_2; [by vm_compute|by vm_compute| |by apply Forall_nil].
      by destruct method; vm_compute. }
    exists calls. split; [|done].
    destruct (Handlers_inv _ _ _ _ Hh) as (_ & r & lr & Hr & Hlr & _).
    pose proof (PanicOnError_root w a r lr Hr Hlr) as Hp.
    apply (PanicOnError_sameTree a w (set_trace (trace w ++ calls) (tick w)))
      in Hp; [|done].
    destruct method; simpl; unfold Debug, Info, Warn, Error, leveled; munfold;
      simpl in Hrun; rewrite Hrun;
      (destruct (errors_Join (callResult <$> calls)); [|done]);
      rewrite Hp; by destruct (panicOnError lr).
Qed.

(** On the leaf of the chain whose root has two handlers, called from
    [main]. *)
Lemma X25_records_carry_the_calling_frame_witness :
  (∃ calls,
     Log getCaller clock0 [mainFrame] 2 LevelInfo "tick" [] chainWorld2
     = Done (errors_Join (callResult <$> calls))
         (set_trace (trace chainWorld2 ++ calls) (tick chainWorld2)) ∧
     dispatched
       (mkRecorded 2 (mkRecord (clock0 (ticks chainWorld2)) LevelInfo "tick"
                        (Some mainFrame) (argsToAttrs [])))
       twoHandlers (trace chainWorld2) calls) ∧
  (∀ method, ∃ calls,
     resWorld (runLeveled getCaller clock0 method [mainFrame] 2 "tick" [] chainWorld2)
     = Some (set_trace (trace chainWorld2 ++ calls) (tick chainWorld2)) ∧
     dispatched
       (mkRecorded 2 (mkRecord (clock0 (ticks chainWorld2)) (levelOf method) "tick"
                        (Some mainFrame) (argsToAttrs [])))
       twoHandlers (trace chainWorld2) calls).
Proof.
  apply (X25_records_carry_the_calling_frame clock0 mainFrame [] "main" 2
           chainWorld2 twoHandlers LevelInfo "tick" []).
  - vm_compute. reflexivity.
  - discriminate.
  - vm_compute. reflexivity.
Defined.
